(** * ticket-annul-bot: the approval workflow of [index.js]

    A shallow embedding of the request registry, the voting handler, the
    quorum block, the rejection handshake and the reminder of
    [src/index.js], and the properties of the specification checked
    against it.  [index.js] holds the program twice; the handlers of the
    two copies behave alike and the embedding follows the first.  Of
    [/stats] the loop over the rows of a sheet is embedded, its numbers
    left abstract; the [/анн] template, the health check and [init] are
    left out.

    Conventions of the embedding.
    - A JavaScript string is the list of its UTF-16 code units.
    - Telegram identifiers (chat, user and message ids) are integers.
    - [ticketsState] is a [Map] keyed by numbers and [pendingComments] a
      [Map] keyed by strings: both are [gmap]s; [st.approvals] is a [Map]
      whose iteration order is used, so it is an association list in
      insertion order; [st.voters] is a [Set] of numbers, a [gset].
    - A handler is a tree of effects ([Prog]): every [await]ed call of the
      bot or of the spreadsheet is a node whose answer comes from the
      environment and is either a value or a raised error.
    - [run] and [run_events] run handlers to completion one after the
      other; [overlap] runs handlers that start while others are suspended
      at an [await].  The object [st] a handler holds is the one stored
      in [ticketsState] under the message id: each mutation of [st] is
      written to the registry where the source performs it, and [st] is
      read from the registry again where the source reads it after an
      [await].  A submission that registers a new object under the
      message id of a request whose handler is suspended is not
      modelled.
    - [REQUIRED] is taken as an integer and the case folding of regular
      expressions as a function on code units. *)

From Stdlib Require Import ZArith NArith Ascii String List Lia.
From stdpp Require Import base decidable option list gmap strings pretty.

Local Open Scope Z_scope.

(** ** JavaScript strings *)

Abbreviation jsstring := (list N).

Module JsString.

(** Code points of a UTF-8 byte sequence (string literals of this file
    are UTF-8). *)
Fixpoint utf8_code_points (bs : list N) : list N :=
  match bs with
  | [] => []
  | b0 :: bs1 =>
    if (b0 <? 128)%N then b0 :: utf8_code_points bs1
    else
      match bs1 with
      | [] => []
      | b1 :: bs2 =>
        if (b0 <? 224)%N
        then ((b0 - 192) * 64 + (b1 - 128))%N :: utf8_code_points bs2
        else
          match bs2 with
          | [] => []
          | b2 :: bs3 =>
            if (b0 <? 240)%N
            then ((b0 - 224) * 4096 + (b1 - 128) * 64 + (b2 - 128))%N
                   :: utf8_code_points bs3
            else
              match bs3 with
              | [] => []
              | b3 :: bs4 =>
                ((b0 - 240) * 262144 + (b1 - 128) * 4096
                 + (b2 - 128) * 64 + (b3 - 128))%N :: utf8_code_points bs4
              end
          end
      end
  end.

(** UTF-16 code units of a code point. *)
Definition utf16_units (cp : N) : list N :=
  if (cp <? 65536)%N then [cp]
  else [(55296 + (cp - 65536) / 1024)%N; (56320 + (cp - 65536) mod 1024)%N].

Definition of_ascii (s : string) : jsstring :=
  (λ a, N_of_ascii a) <$> list_ascii_of_string s.

(** The JavaScript string written by a literal of this file. *)
Definition lit (s : string) : jsstring :=
  utf8_code_points (of_ascii s) ≫= utf16_units.

(** [String(n)] for an integer [n]. *)
Definition of_Z (n : Z) : jsstring := of_ascii (pretty n).

(** [xs.join(sep)] *)
Fixpoint join (sep : jsstring) (xs : list jsstring) : jsstring :=
  match xs with
  | [] => []
  | [x] => x
  | x :: xs' => x ++ sep ++ join sep xs'
  end.

(** [xs.filter(Boolean)] on strings: the empty string is falsy. *)
Definition truthy (s : jsstring) : bool :=
  match s with [] => false | _ => true end.

(** [a || b] on strings. *)
Definition or_else (a b : jsstring) : jsstring :=
  if truthy a then a else b.

(** WhiteSpace and LineTerminator code units: the class [\s] of a regular
    expression and the characters [trim] strips. *)
Definition is_space (c : N) : bool :=
  bool_decide (c ∈ [9; 10; 11; 12; 13; 32; 160; 5760; 8232; 8233; 8239;
                    8287; 12288; 65279]%N)
  || ((8192 <=? c)%N && (c <=? 8202)%N).

Fixpoint trimStart (s : jsstring) : jsstring :=
  match s with
  | c :: s' => if is_space c then trimStart s' else s
  | [] => []
  end.

Definition trim (s : jsstring) : jsstring :=
  rev (trimStart (rev (trimStart s))).

(** [s.split(',')]-style splitting on one code unit. *)
Fixpoint split_on (sep : N) (s : jsstring) : list jsstring :=
  match s with
  | [] => [[]]
  | c :: s' =>
    if (c =? sep)%N then [] :: split_on sep s'
    else match split_on sep s' with
         | [] => [[c]]
         | w :: ws => (c :: w) :: ws
         end
  end.

(** [String(n).padStart(2, '0')] *)
Definition padStart2 (s : jsstring) : jsstring :=
  match s with
  | [] => [48; 48]%N
  | [c] => [48%N; c]
  | _ => s
  end.

End JsString.

Import JsString.

(** ** Data model *)

(** A Telegram user, as far as the handlers read it ([query.from],
    [msg.from]). *)
Record User := {
  uid : Z;                          (* id *)
  username : option jsstring;
  first_name : option jsstring;
  last_name : option jsstring
}.

(** [prof = { id: userId, username, name: fullName(user) }] *)
Record Profile := {
  p_id : Z;
  p_username : jsstring;
  p_name : jsstring
}.

(** An inbound message ([msg]); [reply_to_message] is kept by its
    [message_id], the only field read. *)
Record Message := {
  message_id : Z;
  chat_id : Z;                      (* chat.id *)
  from : option User;
  text : option jsstring;
  reply_to_message : option Z
}.

(** A callback query ([query]). *)
Record CallbackQuery := {
  query_id : jsstring;              (* id *)
  query_from : User;                (* from *)
  query_message : option Message;   (* message *)
  data : option jsstring
}.

(** The object [parsePayload] returns. *)
Record Payload := {
  ticket : jsstring;
  violation : jsstring;
  reason : jsstring;
  amount : jsstring;
  operator : jsstring
}.

(** The value of [ticketsState] under a message id:
    [{ chatId, ...data, approvals, voters, resolved, rejected }], with
    [rejectComment] absent until the message handler sets it. *)
Record TicketState := {
  chatId : Z;
  payload : Payload;                (* ...data *)
  approvals : list (Z * Profile);   (* Map userId -> prof, insertion order *)
  voters : gset Z;
  resolved : bool;
  rejected : bool;
  rejectComment : option jsstring
}.

(** The value of [pendingComments] under [`${chatId}:${userId}`]. *)
Record Pending := {
  promptMsgId : Z;
  ticketMsgId : Z
}.

(** The two process-wide maps. *)
Record Store := {
  ticketsState : gmap Z TicketState;
  pendingComments : gmap jsstring Pending
}.

Definition empty_store : Store :=
  {| ticketsState := ∅; pendingComments := ∅ |}.

(** [process.env]: [APPROVERS] as read, and [REQUIRED] for
    [Number(REQUIRED_APPROVALS) || 1], taken as an integer. *)
Record Config := {
  APPROVERS : jsstring;
  REQUIRED : Z
}.

(** A raised value [e], read through [e.message] (empty when absent) and
    through its string conversion. *)
Record exn := {
  message : jsstring;
  as_string : jsstring
}.

(** What [new Date()] shows of the clock: year and month of the
    Europe/Helsinki wall clock (as [getFullYear], [getMonth] read them off
    the re-parsed en-US rendering) and the ru-RU rendering. *)
Record DateReading := {
  getFullYear : Z;
  getMonth : Z;
  ru_RU : jsstring
}.

Inductive ReplyMarkup :=
| inline_keyboard (rows : list (list (jsstring * jsstring)))
| force_reply.

Record SendOptions := {
  parse_mode : option jsstring;
  reply_markup : option ReplyMarkup
}.

(** The callback given to [setTimeout], by the variables it closes over. *)
Inductive Timer :=
| Reminder (sent_message_id : Z) (chat : Z).

(** ** Effects *)

(** The calls a handler makes to the bot, the spreadsheet document, the
    clock, the timer queue and the console.  A sheet is named by its
    title. *)
Inductive Call :=
| sendMessage (chat : Z) (txt : jsstring) (options : SendOptions)
| answerCallbackQuery (id : jsstring) (txt : jsstring) (show_alert : bool)
| editMessageText (txt : jsstring) (chat : Z) (msg : Z)
| deleteMessage (chat : Z) (msg : Z)
| loadInfo
| addSheet (title : jsstring) (headerValues : list jsstring)
| loadHeaderRow (sheet : jsstring)
| setHeaderRow (sheet : jsstring) (headers : list jsstring)
| addRow (sheet : jsstring) (row : list (jsstring * jsstring))
| newDate
| setTimeout (callback : Timer) (ms : Z)
| console (txt : jsstring).

(** What the environment answers.  An awaited call answers a value or
    raises; [new Date()], [setTimeout] and the console do not raise.
    [sendMessage] answers the [message_id] of the sent message, [loadInfo]
    the titles of [doc.sheetsByTitle], [loadHeaderRow] the sheet's
    [headerValues]. *)
Definition reply_ty (c : Call) : Type :=
  match c with
  | sendMessage _ _ _ => Z + exn
  | answerCallbackQuery _ _ _ => unit + exn
  | editMessageText _ _ _ => unit + exn
  | deleteMessage _ _ => unit + exn
  | loadInfo => list jsstring + exn
  | addSheet _ _ => unit + exn
  | loadHeaderRow _ => list jsstring + exn
  | setHeaderRow _ _ => unit + exn
  | addRow _ _ => unit + exn
  | newDate => DateReading
  | setTimeout _ _ => unit
  | console _ => unit
  end.

(** The error a call raised, if it did. *)
Definition error_of (c : Call) : reply_ty c → option exn :=
  match c with
  | sendMessage _ _ _ | answerCallbackQuery _ _ _ | editMessageText _ _ _
  | deleteMessage _ _ | loadInfo | addSheet _ _ | loadHeaderRow _
  | setHeaderRow _ _ | addRow _ _ =>
      λ r, match r with inl _ => None | inr e => Some e end
  | newDate | setTimeout _ _ | console _ => λ _, None
  end.

(** A handler body: return, throw, call the environment, read or update
    the two maps. *)
Inductive Prog (A : Type) : Type :=
| Ret (a : A)
| Throw (e : exn)
| Do (c : Call) (k : reply_ty c → Prog A)
| Get (k : Store → Prog A)
| Modify (f : Store → Store) (k : Prog A).

Arguments Ret {A} a.
Arguments Throw {A} e.
Arguments Do {A} c k.
Arguments Get {A} k.
Arguments Modify {A} f k.

Fixpoint bind {A B} (p : Prog A) (f : A → Prog B) : Prog B :=
  match p with
  | Ret a => f a
  | Throw e => Throw e
  | Do c k => Do c (λ r, bind (k r) f)
  | Get k => Get (λ s, bind (k s) f)
  | Modify g k => Modify g (bind k f)
  end.

#[global] Instance Prog_ret : MRet Prog := @Ret.
#[global] Instance Prog_bind : MBind Prog := λ A B f p, bind p f.

(** [try { p } catch (e) { h e }] *)
Fixpoint try_catch {A} (p : Prog A) (h : exn → Prog A) : Prog A :=
  match p with
  | Ret a => Ret a
  | Throw e => h e
  | Do c k => Do c (λ r, try_catch (k r) h)
  | Get k => Get (λ s, try_catch (k s) h)
  | Modify g k => Modify g (try_catch k h)
  end.

(** [await c] for a call that may raise, [c] for one that does not. *)
Definition await {R} (c : Call) (val : reply_ty c → R + exn) : Prog R :=
  Do c (λ r, match val r with inl v => Ret v | inr e => Throw e end).

Definition call {R} (c : Call) (val : reply_ty c → R) : Prog R :=
  Do c (λ r, Ret (val r)).

Definition modify (f : Store → Store) : Prog unit := Modify f (Ret tt).

(** The log of a run: the calls made, the latest first, each with the
    error it raised. *)
Definition Log := list (Call * option exn).

(** The environment: its answer to a call, given all that was called
    before. *)
Definition Oracle := Log → ∀ c : Call, reply_ty c.

(** Running a handler body to completion. *)
Fixpoint run {A} (p : Prog A) (o : Oracle) (s : Store) (log : Log)
  : (A + exn) * Store * Log :=
  match p with
  | Ret a => (inl a, s, log)
  | Throw e => (inr e, s, log)
  | Do c k => let r := o log c in run (k r) o s ((c, error_of c r) :: log)
  | Get k => run (k s) o s log
  | Modify f k => run k o (f s) log
  end.

(** The part of a body that runs before control first returns to the
    event loop: the reads and updates up to the first call. *)
Fixpoint first_segment {A} (p : Prog A) (s : Store) : Store :=
  match p with
  | Get k => first_segment (k s) s
  | Modify f k => first_segment k (f s)
  | _ => s
  end.

(** The calls a handler [await]s: at such a call the handler is
    suspended and other handlers run until the call is settled.
    [new Date()], [setTimeout] and the console answer at once. *)
Definition awaited (c : Call) : bool :=
  match c with
  | newDate | setTimeout _ _ | console _ => false
  | _ => true
  end.

(** A handler suspended at an [await]: the call it waits for and what it
    does with the answer. *)
Record Task := {
  waits_for : Call;
  resume : reply_ty waits_for → Prog unit
}.

(** A body run until it awaits, returns or throws. *)
Fixpoint advance (p : Prog unit) (o : Oracle) (s : Store) (log : Log)
  : option Task * Store * Log :=
  match p with
  | Ret _ => (None, s, log)
  | Throw _ => (None, s, log)
  | Do c k =>
    if awaited c then (Some {| waits_for := c; resume := k |}, s, log)
    else let r := o log c in advance (k r) o s ((c, error_of c r) :: log)
  | Get k => advance (k s) o s log
  | Modify f k => advance k o (f s) log
  end.

(** ** Configuration and text helpers *)

Section Helpers.

Variable cfg : Config.

(** [APPROVERS.split(',').map(s => s.trim()).filter(Boolean)] *)
Definition APPROVER_LIST : list jsstring :=
  List.filter truthy (trim <$> split_on 44 (APPROVERS cfg)).

Definition APPROVER_SET : gset jsstring := list_to_set APPROVER_LIST.

Definition PING_TIMEOUT_MS : Z := 2 * 60 * 60 * 1000.

(** The defined, non-empty strings among optional ones:
    [[a, b].filter(Boolean)]. *)
Definition present (xs : list (option jsstring)) : list jsstring :=
  List.filter truthy (omap id xs).

Definition fullName (u : User) : jsstring :=
  or_else (join (lit " ") (present [first_name u; last_name u]))
          (lit "сотрудник").

Definition mentionByProfile (u : User) : jsstring :=
  match present [username u] with
  | name :: _ => lit "@" ++ name
  | [] => lit "<a href=" ++ [34%N] ++ lit "tg://user?id=" ++ of_Z (uid u)
          ++ [34%N] ++ lit ">" ++ fullName u ++ lit "</a>"
  end.

(** A profile read as a user object: it has [id] and [username] and
    neither [first_name] nor [last_name]. *)
Definition profile_user (p : Profile) : User :=
  {| uid := p_id p; username := Some (p_username p);
     first_name := None; last_name := None |}.

Definition at_names (us : list jsstring) : jsstring :=
  join (lit ", ") ((λ u, lit "@" ++ u) <$> us).

Definition mentionApproversLine : jsstring :=
  match APPROVER_LIST with
  | [] => []
  | _ => lit "Утверждающие: " ++ at_names APPROVER_LIST
  end.

Definition needFooterLine : jsstring :=
  if REQUIRED cfg =? 1 then lit "Нужно одобрение: 1"
  else lit "Нужно одобрений: " ++ of_Z (REQUIRED cfg).

Definition nowHelsinkiString : Prog jsstring :=
  call newDate ru_RU.

Definition month_title (d : DateReading) : jsstring :=
  of_Z (getFullYear d) ++ lit "-" ++ padStart2 (of_Z (getMonth d + 1)).

Definition monthSheetName : Prog jsstring :=
  call newDate month_title.

Definition REQUIRED_HEADERS : list jsstring :=
  [lit "Тикет"; lit "Тип нарушения"; lit "Основание для аннулирования";
   lit "Сумма"; lit "Оператор"; lit "Статус согласования";
   lit "Кто подтвердил"; lit "Дата внесения"].

Definition html : SendOptions :=
  {| parse_mode := Some (lit "HTML"); reply_markup := None |}.

Definition no_options : SendOptions :=
  {| parse_mode := None; reply_markup := None |}.

(** [await]ed calls, by their value. *)
Definition bot_sendMessage (chat : Z) (txt : jsstring) (options : SendOptions)
  : Prog Z := await (sendMessage chat txt options) id.
Definition bot_answerCallbackQuery (qid txt : jsstring) (show_alert : bool)
  : Prog unit := await (answerCallbackQuery qid txt show_alert) id.
Definition bot_editMessageText (txt : jsstring) (chat msg : Z)
  : Prog unit := await (editMessageText txt chat msg) id.
Definition bot_deleteMessage (chat msg : Z)
  : Prog unit := await (deleteMessage chat msg) id.
Definition console_log (txt : jsstring) : Prog unit :=
  call (console txt) (λ _, tt).

(** *** Sheets *)

Definition blank_header (c : jsstring) : bool :=
  negb (truthy c) || negb (truthy (trim c)).

Definition ensureHeaders (sheet : jsstring) : Prog unit :=
  current ← await (loadHeaderRow sheet) id;
  if forallb blank_header current then
    await (setHeaderRow sheet REQUIRED_HEADERS) id;;
    console_log (lit "🛠 Шапка листа " ++ [34%N] ++ sheet ++ [34%N]
                 ++ lit " восстановлена.")
  else
    let missing :=
      List.filter (λ h, negb (bool_decide (h ∈ current))) REQUIRED_HEADERS in
    match missing with
    | [] => mret tt
    | _ =>
      await (setHeaderRow sheet (current ++ missing)) id;;
      console_log (lit "🛠 Добавлены колонки: " ++ join (lit ", ") missing)
    end.

Definition getOrCreateMonthlySheet : Prog jsstring :=
  title ← monthSheetName;
  titles ← await loadInfo id;
  (if bool_decide (title ∈ titles) then ensureHeaders title
   else
     console_log (lit "ℹ️ Создаём лист " ++ [34%N] ++ title ++ [34%N]);;
     await (addSheet title REQUIRED_HEADERS) id);;
  mret title.

(** *** The card *)

Definition makeCardText (st : Payload) (progress : option jsstring)
    (footer : jsstring) : jsstring :=
  let lines :=
    [lit "<b>🧾 Аннулирование штрафа</b>"; [];
     lit "<b>Тикет:</b> " ++ ticket st;
     lit "<b>Тип нарушения:</b> " ++ violation st;
     lit "<b>Основание:</b> " ++ reason st;
     (if truthy (amount st) then lit "<b>Сумма:</b> " ++ amount st else []);
     (if truthy (operator st) then lit "<b>Оператор:</b> " ++ operator st
      else []);
     [];
     (match progress with
      | Some p => lit "<b>Статус:</b> " ++ p
      | None => []
      end);
     footer] in
  join [10%N] (List.filter truthy lines).

End Helpers.

(** ** Parsing *)

Section Parsing.

(** The case folding a regular expression with the flag [i] applies to
    each code unit (Canonicalize of ECMAScript): a table of the language. *)
Variable canonicalize : N → N.

(** The pattern characters matched at the head of [t]: what follows. *)
Fixpoint match_chars (pat t : jsstring) : option jsstring :=
  match pat with
  | [] => Some t
  | p :: pat' =>
    match t with
    | c :: t' =>
      if (canonicalize p =? canonicalize c)%N then match_chars pat' t'
      else None
    | [] => None
    end
  end.

(** [[^\n]*] at the head of [t], greedy. *)
Fixpoint line_head (t : jsstring) : jsstring :=
  match t with
  | c :: t' => if (c =? 10)%N then [] else c :: line_head t'
  | [] => []
  end.

(** [([^\n]+)] at the head of [t]. *)
Definition capture (t : jsstring) : option jsstring :=
  match line_head t with
  | [] => None
  | r => Some r
  end.

(** [\s*([^\n]+)] at the head of [t]: the star takes a space when the rest
    then matches, and gives it back otherwise. *)
Fixpoint spaces_capture (t : jsstring) : option jsstring :=
  match t with
  | c :: t' =>
    if is_space c then
      match spaces_capture t' with
      | Some r => Some r
      | None => capture t
      end
    else capture t
  | [] => capture []
  end.

(** [`${label}:\\s*([^\\n]+)`] at the head of [t]: group 1. *)
Definition match_here (label t : jsstring) : option jsstring :=
  match_chars (label ++ lit ":") t ≫= spaces_capture.

(** [text.match(re)]: group 1 of the leftmost match. *)
Fixpoint regexp_match (label t : jsstring) : option jsstring :=
  match match_here label t with
  | Some r => Some r
  | None =>
    match t with
    | [] => None
    | _ :: t' => regexp_match label t'
    end
  end.

Definition grab (text label : jsstring) : jsstring :=
  trim (default [] (regexp_match label text)).

Definition parsePayload (text : jsstring) : option Payload :=
  if negb (truthy text) then None
  else
    let ticket := grab text (lit "Тикет") in
    let violation := grab text (lit "Нарушение") in
    let reason := grab text (lit "Причина") in
    let amount := grab text (lit "Сумма") in
    let operator := grab text (lit "Оператор") in
    if negb (truthy ticket) || negb (truthy violation) || negb (truthy reason)
    then None
    else Some {| ticket := ticket; violation := violation; reason := reason;
                 amount := amount; operator := operator |}.

End Parsing.

(** ** Handlers *)

(** [approvals.set(k, v)] on a [Map] in insertion order. *)
Fixpoint map_set (k : Z) (v : Profile) (m : list (Z * Profile))
  : list (Z * Profile) :=
  match m with
  | [] => [(k, v)]
  | (k', v') :: m' =>
    if k' =? k then (k, v) :: m' else (k', v') :: map_set k v m'
  end.

(** [Array.from(st.approvals.values())] *)
Definition values (m : list (Z * Profile)) : list Profile := snd <$> m.

(** Writes to the two maps: [st] as the object under [msgId],
    [pendingComments.set] and [pendingComments.delete]. *)
Definition set_ticket (msgId : Z) (st : TicketState) (s : Store) : Store :=
  {| ticketsState := <[msgId := st]> (ticketsState s);
     pendingComments := pendingComments s |}.

Definition set_pending (key : jsstring) (w : Pending) (s : Store) : Store :=
  {| ticketsState := ticketsState s;
     pendingComments := <[key := w]> (pendingComments s) |}.

Definition delete_pending (key : jsstring) (s : Store) : Store :=
  {| ticketsState := ticketsState s;
     pendingComments := delete key (pendingComments s) |}.

(** Updates of the fields of [st]: [voters.add], [approvals.set],
    [resolved = true], [rejected = true], [rejectComment = c]. *)
Definition add_vote (userId : Z) (st : TicketState) : TicketState :=
  {| chatId := chatId st; payload := payload st; approvals := approvals st;
     voters := {[userId]} ∪ voters st;
     resolved := resolved st; rejected := rejected st;
     rejectComment := rejectComment st |}.

Definition set_approval (userId : Z) (prof : Profile) (st : TicketState)
  : TicketState :=
  {| chatId := chatId st; payload := payload st;
     approvals := map_set userId prof (approvals st);
     voters := voters st;
     resolved := resolved st; rejected := rejected st;
     rejectComment := rejectComment st |}.

Definition set_resolved (st : TicketState) : TicketState :=
  {| chatId := chatId st; payload := payload st; approvals := approvals st;
     voters := voters st;
     resolved := true; rejected := rejected st;
     rejectComment := rejectComment st |}.

Definition set_rejected (st : TicketState) : TicketState :=
  {| chatId := chatId st; payload := payload st; approvals := approvals st;
     voters := voters st;
     resolved := resolved st; rejected := true;
     rejectComment := rejectComment st |}.

Definition set_rejectComment (c : jsstring) (st : TicketState) : TicketState :=
  {| chatId := chatId st; payload := payload st; approvals := approvals st;
     voters := voters st;
     resolved := resolved st; rejected := rejected st;
     rejectComment := Some c |}.

(** The object [st] a handler holds, as it is when the handler reads it
    again after an [await]: the request stored under [msgId], which other
    handlers may have changed meanwhile.  No handler removes a request;
    [st0] is the request as the handler last saw it. *)
Definition current (msgId : Z) (st0 : TicketState) : Prog TicketState :=
  Get (λ s, Ret (default st0 (ticketsState s !! msgId))).

(** [`${chatId}:${userId}`] *)
Definition pending_key (chat user : Z) : jsstring :=
  of_Z chat ++ lit ":" ++ of_Z user.

(** [`${e.message || e}`] *)
Definition error_text (e : exn) : jsstring :=
  or_else (message e) (as_string e).

(** [APPROVER_LIST.filter(u => !values.some(p => p.username === u))] *)
Definition not_approved_by (cfg : Config) (st : TicketState) : list jsstring :=
  List.filter
    (λ u, negb (existsb (λ p, bool_decide (p_username p = u))
                        (values (approvals st))))
    (APPROVER_LIST cfg).

(** [{ id: userId, username, name: fullName(user) }] with
    [username = user.username || ''] *)
Definition voter_profile (u : User) : Profile :=
  {| p_id := uid u; p_username := default [] (username u);
     p_name := fullName u |}.

Section Handlers.

Variable canonicalize : N → N.
Variable cfg : Config.

Definition format_help : jsstring :=
  lit "⚠️ Не удалось распознать формат. Используй:" ++ [10%N]
  ++ lit "#аннулировать" ++ [10%N] ++ lit "Тикет:" ++ [10%N]
  ++ lit "Нарушение:" ++ [10%N] ++ lit "Причина:" ++ [10%N]
  ++ lit "Сумма:" ++ [10%N] ++ lit "Оператор:".

Definition vote_buttons : SendOptions :=
  {| parse_mode := Some (lit "HTML");
     reply_markup := Some (inline_keyboard
       [[(lit "✅ Одобрить", lit "approve");
         (lit "❌ Отклонить", lit "reject")]]) |}.

Definition new_ticket (chat : Z) (data : Payload) : TicketState :=
  {| chatId := chat; payload := data; approvals := []; voters := ∅;
     resolved := false; rejected := false; rejectComment := None |}.

Definition reminder_text (st : TicketState) (pending : list jsstring)
  : jsstring :=
  makeCardText (payload st) None
    (lit "⏰ <i>Напоминание:</i> не хватает одобрения. Прошу "
     ++ or_else (at_names pending) (lit "утверждающих")
     ++ lit " подтвердить.").

(** The callback of [setTimeout] in the [#аннулировать] handler. *)
Definition reminder (sent_message_id chat : Z) : Prog unit :=
  Get (λ s,
    match ticketsState s !! sent_message_id with
    | None => mret tt
    | Some st =>
      if resolved st then mret tt
      else
        let pending := not_approved_by cfg st in
        match pending with
        | [] => mret tt
        | _ =>
          bot_sendMessage chat (reminder_text st pending) html;;
          mret tt
        end
    end).

(** The handler of [bot.onText] for the pattern that starts with
    [#аннулировать] and captures the rest of the text, given that capture
    ([match[1]]). *)
Definition on_annul (msg : Message) (match1 : option jsstring) : Prog unit :=
  let chat := chat_id msg in
  match parsePayload canonicalize (trim (default [] match1)) with
  | None =>
    bot_sendMessage chat format_help no_options;;
    mret tt
  | Some data =>
    let summary :=
      makeCardText data None
        (mentionApproversLine cfg ++ [10%N] ++ needFooterLine cfg) in
    sent ← bot_sendMessage chat summary vote_buttons;
    modify (set_ticket sent (new_ticket chat data));;
    call (setTimeout (Reminder sent chat) PING_TIMEOUT_MS) (λ _, tt)
  end.

(** The row [sheet.addRow] is given, apart from the date. *)
Definition approved_row (st : TicketState) (date : jsstring)
  : list (jsstring * jsstring) :=
  [(lit "Тикет", ticket (payload st));
   (lit "Тип нарушения", violation (payload st));
   (lit "Основание для аннулирования", reason (payload st));
   (lit "Сумма", or_else (amount (payload st)) []);
   (lit "Оператор", or_else (operator (payload st)) []);
   (lit "Статус согласования", lit "Одобрено");
   (lit "Кто подтвердил",
    join (lit ", ")
      ((λ a, or_else (p_username a) (p_name a)) <$> values (approvals st)));
   (lit "Дата внесения", date)].

Definition approved_text (st : TicketState) (title : jsstring) : jsstring :=
  let approverNames :=
    join (lit ", ")
      ((λ a, if truthy (p_username a) then lit "@" ++ p_username a
             else p_name a) <$> values (approvals st)) in
  let others := at_names (not_approved_by cfg st) in
  lit "✅ Тикет " ++ ticket (payload st) ++ lit " согласован ("
  ++ approverNames ++ lit "). Записано в лист «" ++ title ++ lit "»."
  ++ (if truthy others then [10%N] ++ lit "ℹ️ Для информации: " ++ others
      else []).

(** The [try { ... } catch (e) { ... }] of the quorum block.  The row
    and the text of the card are built from [st] as it is when [addRow]
    and [editMessageText] are called. *)
Definition finalize (st : TicketState) (chat msgId : Z) : Prog unit :=
  try_catch
    (sheet ← getOrCreateMonthlySheet;
     ensureHeaders sheet;;
     st ← current msgId st;
     date ← nowHelsinkiString;
     await (addRow sheet (approved_row st date)) id;;
     st ← current msgId st;
     title ← monthSheetName;
     bot_editMessageText (approved_text st title) chat msgId)
    (λ e,
     console_log (lit "❌ addRow error: " ++ as_string e);;
     bot_sendMessage chat (lit "⚠️ Ошибка записи в таблицу: " ++ error_text e)
       no_options;;
     mret tt).

Definition progress_text (st : TicketState) : jsstring :=
  of_Z (Z.of_nat (length (approvals st))) ++ lit "/" ++ of_Z (REQUIRED cfg).

Definition approved_card (st : TicketState) : jsstring :=
  let approvedList :=
    or_else
      (join (lit ", ")
         ((λ p, mentionByProfile (profile_user p)) <$> values (approvals st)))
      (lit "—") in
  makeCardText (payload st) (Some (progress_text st))
    (mentionApproversLine cfg ++ [10%N] ++ lit "<b>Одобрили:</b> "
     ++ approvedList).

(** [if (query.data === 'approve') { ... }]; the result is [st] as the
    block leaves it.  The card is built from [st] as it is after the
    first [await], and the quorum is tested on [st] as it is after the
    second. *)
Definition approve_branch (query : CallbackQuery) (chat msgId : Z)
    (prof : Profile) (st : TicketState) : Prog TicketState :=
  let userId := p_id prof in
  let st := set_approval userId prof (add_vote userId st) in
  modify (set_ticket msgId st);;
  bot_answerCallbackQuery (query_id query) (lit "Одобрение учтено") false;;
  st ← current msgId st;
  bot_editMessageText (approved_card st) chat msgId;;
  st ← current msgId st;
  if REQUIRED cfg <=? Z.of_nat (length (approvals st)) then
    let st := set_resolved st in
    modify (set_ticket msgId st);;
    finalize st chat msgId;;
    mret st
  else mret st.

(** [if (query.data === 'reject') { ... }] *)
Definition reject_branch (query : CallbackQuery) (chat msgId : Z)
    (st : TicketState) : Prog unit :=
  let user := query_from query in
  let userId := uid user in
  let st := set_resolved (set_rejected (add_vote userId st)) in
  modify (set_ticket msgId st);;
  bot_answerCallbackQuery (query_id query) (lit "Укажите причину отказа")
    false;;
  prompt ← bot_sendMessage chat
    (lit "❌ " ++ mentionByProfile user
     ++ lit ", ответьте на это сообщение комментарием (почему отклонено тикет "
     ++ ticket (payload st) ++ lit ").")
    {| parse_mode := Some (lit "HTML"); reply_markup := Some force_reply |};
  modify (set_pending (pending_key chat userId)
            {| promptMsgId := prompt; ticketMsgId := msgId |});;
  bot_editMessageText
    (lit "❌ Тикет " ++ ticket (payload st)
     ++ lit " отклонён. Ожидаю комментарий от " ++ mentionByProfile user
     ++ lit ".")
    chat msgId.

(** [bot.on('callback_query', async (query) => ...)] *)
Definition on_callback_query (query : CallbackQuery) : Prog unit :=
  match query_message query with
  | None => mret tt
  | Some m =>
    let msgId := message_id m in
    let chat := chat_id m in
    if (msgId =? 0) || (chat =? 0) then mret tt
    else
      Get (λ s,
        match ticketsState s !! msgId with
        | None => mret tt
        | Some st =>
          if resolved st then mret tt
          else
            let user := query_from query in
            let userId := uid user in
            let username := default [] (username user) in
            let prof := voter_profile user in
            if negb (bool_decide (size (APPROVER_SET cfg) = 0%nat))
               && negb (bool_decide (username ∈ APPROVER_SET cfg))
            then
              bot_answerCallbackQuery (query_id query)
                (lit "Нет прав на согласование") true
            else if bool_decide (userId ∈ voters st) then
              bot_answerCallbackQuery (query_id query)
                (lit "Вы уже голосовали") true
            else
              st ← (if bool_decide (data query = Some (lit "approve"))
                    then approve_branch query chat msgId prof st
                    else mret st);
              if bool_decide (data query = Some (lit "reject"))
              then reject_branch query chat msgId st
              else mret tt
        end)
  end.

(** [bot.on('message', async (msg) => ...)] *)
Definition on_message (msg : Message) : Prog unit :=
  let chat := chat_id msg in
  match from msg with
  | None =>
    Throw {| message := lit "Cannot read properties of undefined (reading 'id')";
             as_string :=
               lit "TypeError: Cannot read properties of undefined (reading 'id')" |}
  | Some sender =>
    let key := pending_key chat (uid sender) in
    Get (λ s,
      match pendingComments s !! key with
      | None => mret tt
      | Some wait =>
        if negb (bool_decide (reply_to_message msg = Some (promptMsgId wait)))
        then mret tt
        else
          match ticketsState s !! ticketMsgId wait with
          | None => modify (delete_pending key)
          | Some st =>
            let st := set_rejectComment (trim (default [] (text msg))) st in
            modify (set_ticket (ticketMsgId wait) st);;
            modify (delete_pending key);;
            bot_editMessageText
              (lit "❌ Тикет " ++ ticket (payload st) ++ lit " отклонён."
               ++ [10%N] ++ lit "<b>Комментарий:</b> "
               ++ or_else (default [] (rejectComment st)) (lit "—")
               ++ [10%N] ++ lit "<b>От:</b> " ++ mentionByProfile sender)
              chat (ticketMsgId wait);;
            try_catch (bot_deleteMessage chat (promptMsgId wait))
                      (λ _, mret tt);;
            try_catch (bot_deleteMessage chat (message_id msg))
                      (λ _, mret tt)
          end
      end)
  end.

(** ** Events *)

Inductive Event :=
| Annul (msg : Message) (match1 : option jsstring)
| Vote (query : CallbackQuery)
| Inbound (msg : Message)
| Fire (t : Timer).

Definition handler (ev : Event) : Prog unit :=
  match ev with
  | Annul msg match1 => on_annul msg match1
  | Vote query => on_callback_query query
  | Inbound msg => on_message msg
  | Fire (Reminder sent chat) => reminder sent chat
  end.

(** Events handled one after the other: each handler ends before the
    next event is delivered.  An error that escapes a handler is an
    unhandled rejection: the maps stay as the handler left them. *)
Fixpoint run_events (evs : list Event) (o : Oracle) (s : Store) (log : Log)
  : Store * Log :=
  match evs with
  | [] => (s, log)
  | ev :: evs' =>
    let '(_, s', log') := run (handler ev) o s log in
    run_events evs' o s' log'
  end.

(** ** Handlers that overlap

    An event is delivered: its handler runs until its first [await] and
    joins the suspended handlers.  A call is settled: the handler that
    waits at position [i] takes the answer and runs until its next
    [await], where it stays at its position, or until it ends, which
    removes it.  The log holds the calls in the order they were
    settled. *)
Inductive Action :=
| Deliver (ev : Event)
| Settle (i : nat).

Fixpoint overlap (acts : list Action) (o : Oracle) (pool : list Task)
    (s : Store) (log : Log) : list Task * Store * Log :=
  match acts with
  | [] => (pool, s, log)
  | Deliver ev :: acts' =>
    let '(t, s', log') := advance (handler ev) o s log in
    overlap acts' o (pool ++ option_list t) s' log'
  | Settle i :: acts' =>
    match pool !! i with
    | None => overlap acts' o pool s log
    | Some t =>
      let r := o log (waits_for t) in
      let '(t', s', log') :=
        advance (resume t r) o s
          ((waits_for t, error_of (waits_for t) r) :: log) in
      overlap acts' o
        (match t' with
         | Some t'' => <[i := t'']> pool
         | None => delete i pool
         end) s' log'
    end
  end.

End Handlers.

(** ** Observations on runs *)

(** The vote refers to the message [msgId]. *)
Definition refers_to (msgId : Z) (q : CallbackQuery) : bool :=
  bool_decide (message_id <$> query_message q = Some msgId).

(** No request is registered under [msgId], or it is resolved. *)
Definition closed (s : Store) (msgId : Z) : bool :=
  match ticketsState s !! msgId with
  | Some st => resolved st
  | None => true
  end.

(** The allow-list lets the user vote: the negation of the guard
    [APPROVER_SET.size && !APPROVER_SET.has(username)]. *)
Definition authorized (cfg : Config) (u : User) : bool :=
  bool_decide (size (APPROVER_SET cfg) = 0%nat)
  || bool_decide (default [] (username u) ∈ APPROVER_SET cfg).

(** A vote that passes every guard of the handler: it carries a message
    with non-zero ids, the request is registered and unresolved, the voter
    passes the allow-list and has not voted. *)
Record accepted (cfg : Config) (s : Store) (query : CallbackQuery)
    (m : Message) (st : TicketState) : Prop := {
  acc_message : query_message query = Some m;
  acc_msgId : (message_id m =? 0) = false;
  acc_chat : (chat_id m =? 0) = false;
  acc_ticket : ticketsState s !! message_id m = Some st;
  acc_open : resolved st = false;
  acc_auth : authorized cfg (query_from query) = true;
  acc_fresh : bool_decide (uid (query_from query) ∈ voters st) = false
}.

(** [st] after [voters.add(userId); approvals.set(userId, prof)]. *)
Definition approved_state (prof : Profile) (st : TicketState) : TicketState :=
  set_approval (p_id prof) prof (add_vote (p_id prof) st).

(** [st] after [voters.add(userId); rejected = true; resolved = true]. *)
Definition rejected_state (u : User) (st : TicketState) : TicketState :=
  set_resolved (set_rejected (add_vote (uid u) st)).

(** [st.approvals.size >= REQUIRED] *)
Definition quorum (cfg : Config) (st : TicketState) : bool :=
  REQUIRED cfg <=? Z.of_nat (length (approvals st)).

(** The call appends a row to a sheet. *)
Definition is_append (c : Call) : bool :=
  match c with addRow _ _ => true | _ => false end.


(** No call of the log appends a row. *)
Definition no_append (l : Log) : Prop := Forall (λ e, is_append e.1 = false) l.

(** The number of ledger appends in a log. *)
Definition appends (l : Log) : nat :=
  length (List.filter (λ e, is_append e.1) l).

(** The environment never raises. *)
Definition never_raises (o : Oracle) : Prop :=
  ∀ l c, error_of c (o l c) = None.

(** The two transport calls of the approve block when neither raises, the
    latest first. *)
Definition acknowledged (cfg : Config) (query : CallbackQuery) (chat msgId : Z)
    (st : TicketState) : Log :=
  [(editMessageText (approved_card cfg st) chat msgId, None);
   (answerCallbackQuery (query_id query) (lit "Одобрение учтено") false, None)].

(** The two calls of the [catch] block, the latest first, and the result
    of the handler after it. *)
Definition reported (chat : Z) (e : exn) (sent : option exn) : Log :=
  [(sendMessage chat (lit "⚠️ Ошибка записи в таблицу: " ++ error_text e)
      no_options, sent);
   (console (lit "❌ addRow error: " ++ as_string e), None)].

Definition result_of (sent : option exn) : unit + exn :=
  match sent with None => inl tt | Some e => inr e end.

(** What the quorum block adds to the log, the latest call first: an
    earlier call raised and no append was made, the append raised, or the
    append was made. *)
Inductive finalize_log (st : TicketState) (chat : Z) (title : jsstring)
  : unit + exn → Log → Prop :=
| not_appended e sent pre :
    no_append pre →
    finalize_log st chat title (result_of sent) (reported chat e sent ++ pre)
| append_failed e sent d pre :
    no_append pre →
    finalize_log st chat title (result_of sent)
      (reported chat e sent
       ++ (addRow title (approved_row st (ru_RU d)), Some e) :: pre)
| appended r d post pre :
    no_append pre → no_append post →
    finalize_log st chat title r
      (post ++ (addRow title (approved_row st (ru_RU d)), None) :: pre).

(** The ways the approve block ends: a transport call raised, the approval
    was recorded below quorum, or the quorum block ran. *)
Inductive approve_outcome (cfg : Config) (query : CallbackQuery)
    (chat msgId : Z) (st1 : TicketState) (o : Oracle) (s : Store) (log : Log)
  : (TicketState + exn) * Store * Log → Prop :=
| answer_raised e :
    approve_outcome cfg query chat msgId st1 o s log
      (inr e, set_ticket msgId st1 s,
       (answerCallbackQuery (query_id query) (lit "Одобрение учтено") false,
        Some e) :: log)
| edit_raised e :
    approve_outcome cfg query chat msgId st1 o s log
      (inr e, set_ticket msgId st1 s,
       (editMessageText (approved_card cfg st1) chat msgId, Some e)
       :: (answerCallbackQuery (query_id query) (lit "Одобрение учтено") false,
           None) :: log)
| approval_recorded :
    quorum cfg st1 = false →
    approve_outcome cfg query chat msgId st1 o s log
      (inl st1, set_ticket msgId st1 s,
       acknowledged cfg query chat msgId st1 ++ log)
| quorum_reached r new :
    quorum cfg st1 = true →
    finalize_log (set_resolved st1) chat
      (month_title (o (acknowledged cfg query chat msgId st1 ++ log) newDate))
      r new →
    approve_outcome cfg query chat msgId st1 o s log
      (match r with inl _ => inl (set_resolved st1) | inr e => inr e end,
       set_ticket msgId (set_resolved st1) (set_ticket msgId st1 s),
       new ++ acknowledged cfg query chat msgId st1 ++ log).

(** The events that could repeat an append for the request under
    [msgId]: votes on it, timers, inbound messages. *)
Definition may_retry (msgId : Z) (ev : Event) : bool :=
  match ev with
  | Vote q => refers_to msgId q
  | Fire _ => true
  | Inbound _ => true
  | Annul _ _ => false
  end.

(** The reply [msg] comes from the voter [v] in the chat [c] and responds
    to the prompt of the correlation [w]. *)
Definition correlated (c v : Z) (w : Pending) (msg : Message) : bool :=
  bool_decide (chat_id msg = c)
  && bool_decide (uid <$> from msg = Some v)
  && bool_decide (reply_to_message msg = Some (promptMsgId w)).

(** The maps after the rejection of the correlation [w] under [key] is
    finalized with the reply [msg]. *)
Definition finalized (key : jsstring) (w : Pending) (st : TicketState)
    (msg : Message) (s : Store) : Store :=
  delete_pending key
    (set_ticket (ticketMsgId w)
       (set_rejectComment (trim (default [] (text msg))) st) s).

(** No correlation refers to the request under [t]. *)
Definition unreferenced (s : Store) (t : Z) : Prop :=
  ∀ k w, pendingComments s !! k = Some w → ticketMsgId w ≠ t.

(** The transport never gives the message id [t] to a message it sends. *)
Definition never_reuses (o : Oracle) (t : Z) : Prop :=
  ∀ l c txt options, o l (sendMessage c txt options) ≠ inl t.

(** Wherever [label] followed by a colon occurs in [t], whatever the case
    of its letters, only white space follows up to the end of [t]: the
    field is absent or has no value. *)
Fixpoint lacks_field (canonicalize : N → N) (label t : jsstring) : bool :=
  match match_chars canonicalize (label ++ lit ":") t with
  | Some after => forallb is_space after
  | None => true
  end
  && match t with
     | [] => true
     | _ :: t' => lacks_field canonicalize label t'
     end.

(** ** Sample data

    Concrete configurations, users, events and environments at which the
    properties below are instantiated. *)

Module Sample.

(** Upper case on ASCII and on the basic Cyrillic letters: the case
    folding restricted to the letters the samples use. *)
Definition upper (c : N) : N :=
  if ((97 <=? c) && (c <=? 122))%N then (c - 32)%N
  else if ((1072 <=? c) && (c <=? 1103))%N then (c - 32)%N
  else if ((1104 <=? c) && (c <=? 1119))%N then (c - 80)%N
  else c.

(** The defaults of [process.env]: no allow-list, one approval. *)
Definition cfg_default : Config := {| APPROVERS := []; REQUIRED := 1 |}.

Definition cfg_two : Config :=
  {| APPROVERS := lit "ann, bob"; REQUIRED := 2 |}.

Definition ann : User :=
  {| uid := 1; username := Some (lit "ann");
     first_name := Some (lit "Ann"); last_name := None |}.

Definition bob : User :=
  {| uid := 2; username := Some (lit "bob");
     first_name := Some (lit "Bob"); last_name := Some (lit "Stone") |}.

(** A user without a username. *)
Definition carl : User :=
  {| uid := 3; username := None;
     first_name := Some (lit "Carl"); last_name := None |}.

Definition chat : Z := -5.

(** The card of the request, message 100 of the chat. *)
Definition card : Message :=
  {| message_id := 100; chat_id := chat; from := None; text := None;
     reply_to_message := None |}.

Definition vote (u : User) (d : string) : CallbackQuery :=
  {| query_id := lit "q"; query_from := u; query_message := Some card;
     data := Some (lit d) |}.

Definition request : Payload :=
  {| ticket := lit "12"; violation := lit "late"; reason := lit "agreed";
     amount := lit "50"; operator := [] |}.

(** The registry with the fresh request of the card. *)
Definition registered : Store :=
  set_ticket 100 (new_ticket chat request) empty_store.

Definition clock : DateReading :=
  {| getFullYear := 2026; getMonth := 10;
     ru_RU := lit "02.11.2026, 21:31:00" |}.

Definition timeout_error : exn :=
  {| message := lit "ETELEGRAM: 400 Bad Request: query is too old";
     as_string := lit "Error: ETELEGRAM: 400 Bad Request: query is too old" |}.

Definition quota_error : exn :=
  {| message := lit "Quota exceeded";
     as_string := lit "Error: Quota exceeded" |}.

(** An environment that never raises; a sent message gets a fresh id. *)
Definition calm : Oracle := λ log c,
  match c as c' return reply_ty c' with
  | sendMessage _ _ _ => inl (200 + Z.of_nat (length log))
  | answerCallbackQuery _ _ _ => inl tt
  | editMessageText _ _ _ => inl tt
  | deleteMessage _ _ => inl tt
  | loadInfo => inl [lit "2026-10"]
  | addSheet _ _ => inl tt
  | loadHeaderRow _ => inl []
  | setHeaderRow _ _ => inl tt
  | addRow _ _ => inl tt
  | newDate => clock
  | setTimeout _ _ => tt
  | console _ => tt
  end.

(** The first call of the run is an [answerCallbackQuery] that raises;
    every other call is answered as by [calm]. *)
Definition answer_fails_once : Oracle := λ log c,
  match c as c' return reply_ty c' with
  | answerCallbackQuery qid txt alert =>
    match log with
    | [] => inr timeout_error
    | _ => calm log (answerCallbackQuery qid txt alert)
    end
  | c' => calm log c'
  end.

(** The append raises; every other call is answered as by [calm]. *)
Definition append_fails : Oracle := λ log c,
  match c as c' return reply_ty c' with
  | addRow _ _ => inr quota_error
  | c' => calm log c'
  end.

(** The registry after a run from the fresh request. *)
Definition store_after (cfg : Config) (o : Oracle) (evs : list Event)
  : Store :=
  (run_events upper cfg evs o registered []).1.

(** The registry after Ann rejected the request and was sent the prompt,
    message 201. *)
Definition rejected_store : Store :=
  store_after cfg_two calm [Vote (vote ann "reject")].

Definition rejected_ticket : TicketState :=
  rejected_state ann (new_ticket chat request).

Definition prompt_entry : Pending :=
  {| promptMsgId := 201; ticketMsgId := 100 |}.

(** Ann's reply to the prompt. *)
Definition reply : Message :=
  {| message_id := 300; chat_id := chat; from := Some ann;
     text := Some (lit " too late "); reply_to_message := Some 201 |}.

(** A second request of the same chat, message 101. *)
Definition card2 : Message :=
  {| message_id := 101; chat_id := chat; from := None; text := None;
     reply_to_message := None |}.

Definition request2 : Payload :=
  {| ticket := lit "13"; violation := lit "absent"; reason := lit "sick";
     amount := []; operator := lit "op7" |}.

Definition two_requests : Store :=
  set_ticket 101 (new_ticket chat request2) rejected_store.

Definition reject2 : CallbackQuery :=
  {| query_id := lit "q2"; query_from := ann; query_message := Some card2;
     data := Some (lit "reject") |}.

(** A submission without the reason. *)
Definition no_reason : jsstring :=
  lit "Тикет: 12" ++ [10%N] ++ lit "нарушение: late" ++ [10%N]
  ++ lit "Причина:  ".

Definition submission : Message :=
  {| message_id := 90; chat_id := chat; from := Some bob;
     text := Some (lit "#аннулировать" ++ [10%N] ++ no_reason);
     reply_to_message := None |}.

End Sample.

(** ** Observations on the registry *)

(** What the handlers keep true of a request: no voter id is the key of
    two approvals, every approval is stored under the id of its voter, who
    is among [voters], a rejected request is resolved, and a resolved
    request was rejected or has reached [REQUIRED] approvals. *)
Record consistent (cfg : Config) (st : TicketState) : Prop := {
  votes_distinct : NoDup (approvals st).*1;
  votes_recorded :
    ∀ k p, (k, p) ∈ approvals st → k ∈ voters st ∧ p_id p = k;
  rejected_resolved : rejected st = true → resolved st = true;
  resolved_decided :
    resolved st = true → rejected st = true ∨ quorum cfg st = true
}.

Definition consistent_store (cfg : Config) (s : Store) : Prop :=
  ∀ t st, ticketsState s !! t = Some st → consistent cfg st.

(** Every correlation refers to a registered request. *)
Definition anchored (s : Store) : Prop :=
  ∀ k w, pendingComments s !! k = Some w →
         is_Some (ticketsState s !! ticketMsgId w).

(** [st'] is [st] after more votes and replies: the same submission, the
    approvals of [st] followed by later ones, no voter forgotten, and the
    flags still set where they were. *)
Record extends (st st' : TicketState) : Prop := {
  ext_chatId : chatId st' = chatId st;
  ext_payload : payload st' = payload st;
  ext_approvals : approvals st `prefix_of` approvals st';
  ext_voters : voters st ⊆ voters st';
  ext_resolved : resolved st = true → resolved st' = true;
  ext_rejected : rejected st = true → rejected st' = true
}.

(** The maps after one vote, whatever the environment answers: the vote
    changes nothing in any environment, or it passed the guards and the
    maps are as the approve block or the reject block leaves them at the
    point where the handler ended. *)
Inductive vote_effect (cfg : Config) (query : CallbackQuery) (s : Store)
  : Store → Prop :=
| vote_inert :
    (∀ o log, (run (on_callback_query cfg query) o s log).1.2 = s) →
    vote_effect cfg query s s
| vote_approved m st :
    accepted cfg s query m st →
    vote_effect cfg query s
      (set_ticket (message_id m)
         (approved_state (voter_profile (query_from query)) st) s)
| vote_resolved m st :
    accepted cfg s query m st →
    quorum cfg (approved_state (voter_profile (query_from query)) st) = true →
    vote_effect cfg query s
      (set_ticket (message_id m)
         (set_resolved (approved_state (voter_profile (query_from query)) st))
         (set_ticket (message_id m)
            (approved_state (voter_profile (query_from query)) st) s))
| vote_rejected m st :
    accepted cfg s query m st →
    vote_effect cfg query s
      (set_ticket (message_id m) (rejected_state (query_from query) st) s)
| vote_prompted m st prompt :
    accepted cfg s query m st →
    vote_effect cfg query s
      (set_pending (pending_key (chat_id m) (uid (query_from query)))
         {| promptMsgId := prompt; ticketMsgId := message_id m |}
         (set_ticket (message_id m) (rejected_state (query_from query) st) s)).

(** The header rows given to [setHeaderRow] in a log, the latest first. *)
Definition header_writes (l : Log) : list (jsstring * list jsstring) :=
  omap (λ e, match e.1 with
             | setHeaderRow sheet headers => Some (sheet, headers)
             | _ => None
             end) l.

(** Neither end of the string is white space. *)
Definition trimmed (s : jsstring) : bool :=
  match head s, last s with
  | Some a, Some b => negb (is_space a) && negb (is_space b)
  | _, _ => true
  end.

(** A name that [APPROVERS] can carry as it is: not empty, without a
    comma, neither end white space. *)
Definition plain_name (u : jsstring) : bool :=
  truthy u && trimmed u && negb (bool_decide (44%N ∈ u)).

(** A value a field of a submission can carry on the line of its label:
    not empty, without a line feed, neither end white space. *)
Definition plain_value (v : jsstring) : bool :=
  truthy v && trimmed v && negb (bool_decide (10%N ∈ v)).

(** The labels [parsePayload] asks [grab] for. *)
Definition labels : list jsstring :=
  [lit "Тикет"; lit "Нарушение"; lit "Причина"; lit "Сумма"; lit "Оператор"].

(** No call of the log raised. *)
Definition quiet (l : Log) : Prop := Forall (λ x, x.2 = None) l.

(** What a run of the sheet preparation adds to the log: no append; no
    error when it returns, and the error as its latest entry when it
    raises. *)
Definition prepared {A} (r : A + exn) (new : Log) : Prop :=
  no_append new
  ∧ match r with
    | inl _ => quiet new
    | inr e => ∃ c pre, new = (c, Some e) :: pre
    end.

(** ** The monthly summary

    The loop of the [/stats] handler over the rows of a sheet.  A row is
    its [_rawData], the cells in the order of the columns. *)

Section Stats.

(** [String.prototype.toLowerCase], a table of the language; the numbers
    of the language with [0] and [+]; [parseFloat] where its result is
    finite. *)
Variable toLowerCase : jsstring → jsstring.
Variable number : Type.
Variable zero : number.
Variable plus : number → number → number.
Variable parseFloat : jsstring → option number.

(** [{ count, sum }] *)
Record Tally := { t_count : nat; t_sum : number }.

Record Summary := {
  agg : list (jsstring * Tally);
  totalApproved : nat;
  totalAmount : number
}.

(** [raw.replace(/\s/g, '')] and [raw.replace(',', '.')] *)
Definition strip_spaces (s : jsstring) : jsstring :=
  List.filter (λ c, negb (is_space c)) s.

Fixpoint replace_comma (s : jsstring) : jsstring :=
  match s with
  | [] => []
  | c :: s' => if (c =? 44)%N then 46%N :: s' else c :: replace_comma s'
  end.

(** [amountVal]: [0] without the column, for a cell that is not a number,
    and for one that is not finite. *)
Definition amount_of (r : list jsstring) (iAmount : option nat) : number :=
  match iAmount with
  | Some i =>
    default zero (parseFloat (replace_comma (strip_spaces (default [] (r !! i)))))
  | None => zero
  end.

(** [status === 'одобрено'] *)
Definition approved_status (iStatus : nat) (r : list jsstring) : bool :=
  bool_decide
    (toLowerCase (trim (or_else (default [] (r !! iStatus)) []))
     = lit "одобрено").

(** [cur = agg.get(type) || { count: 0, sum: 0 }; cur.count++;
    cur.sum += amountVal; agg.set(type, cur)] on a [Map] in insertion
    order. *)
Fixpoint tally_add (type : jsstring) (v : number)
    (m : list (jsstring * Tally)) : list (jsstring * Tally) :=
  match m with
  | [] => [(type, {| t_count := 1; t_sum := plus zero v |})]
  | (k, cur) :: m' =>
    if bool_decide (k = type)
    then (k, {| t_count := S (t_count cur); t_sum := plus (t_sum cur) v |})
           :: m'
    else (k, cur) :: tally_add type v m'
  end.

(** The body of [for (const r of rows)]. *)
Definition summary_step (iType iStatus : nat) (iAmount : option nat)
    (acc : Summary) (r : list jsstring) : Summary :=
  if approved_status iStatus r then
    let type := trim (or_else (default [] (r !! iType)) (lit "—")) in
    let amountVal := amount_of r iAmount in
    {| agg := tally_add type amountVal (agg acc);
       totalApproved := S (totalApproved acc);
       totalAmount := plus (totalAmount acc) amountVal |}
  else acc.

Definition summarize (iType iStatus : nat) (iAmount : option nat)
    (rows : list (list jsstring)) : Summary :=
  fold_left (summary_step iType iStatus iAmount) rows
    {| agg := []; totalApproved := 0; totalAmount := zero |}.

(** The records counted under all types together. *)
Definition counted (m : list (jsstring * Tally)) : nat :=
  sum_list ((λ kv, t_count kv.2) <$> m).

End Stats.

Arguments t_count {number} _.
Arguments t_sum {number} _.
Arguments agg {number} _.
Arguments totalApproved {number} _.
Arguments totalAmount {number} _.
Arguments counted {number} _.

(** The rows appended in a log, each with the title of its sheet, and the
    texts the cards were given, the latest first. *)
Definition appended_rows (l : Log)
  : list (jsstring * list (jsstring * jsstring)) :=
  omap (λ e, match e with
             | (addRow sheet row, None) => Some (sheet, row)
             | _ => None
             end) l.

Definition card_texts (l : Log) : list jsstring :=
  omap (λ e, match e with
             | (editMessageText txt _ _, None) => Some txt
             | _ => None
             end) l.

(** The schedule in which every event is handled to its end before the
    next is delivered needs, for each event, as many settled calls as its
    handler awaits; [n] of them are given to each. *)
Definition one_by_one (n : nat) (evs : list Event) : list Action :=
  evs ≫= λ ev, Deliver ev :: replicate n (Settle 0).

(** The schedule in which the events are delivered together and the
    suspended handlers then take turns, [n] times each of the first two
    positions. *)
Definition together (n : nat) (evs : list Event) : list Action :=
  (Deliver <$> evs) ++ concat (replicate n [Settle 0; Settle 1]).

(** ** Environments that fail *)

Module Faults.

(** The spreadsheet document cannot be loaded. *)
Definition sheets_down : Oracle := λ log c,
  match c as c' return reply_ty c' with
  | loadInfo => inr Sample.quota_error
  | c' => Sample.calm log c'
  end.

(** No card can be edited. *)
Definition edit_fails : Oracle := λ log c,
  match c as c' return reply_ty c' with
  | editMessageText _ _ _ => inr Sample.timeout_error
  | c' => Sample.calm log c'
  end.

(** The prompt of a rejection cannot be sent: a message with a
    [force_reply] markup raises; every other call is answered as by
    [Sample.calm]. *)
Definition prompt_fails : Oracle := λ log c,
  match c as c' return reply_ty c' with
  | sendMessage chat txt options =>
    match reply_markup options with
    | Some force_reply => inr Sample.timeout_error
    | _ => Sample.calm log (sendMessage chat txt options)
    end
  | c' => Sample.calm log c'
  end.

(** The sheet of the month exists and has the required headers; nothing
    raises. *)
Definition steady : Oracle := λ log c,
  match c as c' return reply_ty c' with
  | loadInfo => inl [lit "2026-10"; lit "2026-11"]
  | loadHeaderRow _ => inl REQUIRED_HEADERS
  | c' => Sample.calm log c'
  end.

(** A submission whose reason is left empty and is followed by the line
    of the amount. *)
Definition blank_reason : jsstring :=
  [10%N] ++ lit "Тикет: 12" ++ [10%N] ++ lit "Нарушение: late" ++ [10%N]
  ++ lit "Причина:" ++ [10%N] ++ lit "Сумма: 50".

Definition blank_reason_message : Message :=
  {| message_id := 91; chat_id := Sample.chat; from := Some Sample.bob;
     text := Some (lit "#аннулировать" ++ blank_reason);
     reply_to_message := None |}.

(** The approve votes of Ann and Bob on the card. *)
Definition two_votes : list Event :=
  [Vote (Sample.vote Sample.ann "approve");
   Vote (Sample.vote Sample.bob "approve")].

(** A user who is not on the allow-list of [Sample.cfg_two]. *)
Definition dan : User :=
  {| uid := 4; username := Some (lit "dan");
     first_name := Some (lit "Dan"); last_name := None |}.

(** The registry after Ann approved the request of the card. *)
Definition voted : Store :=
  set_ticket 100
    (approved_state (voter_profile Sample.ann)
       (new_ticket Sample.chat Sample.request))
    empty_store.

(** The request of the card after Ann approved it with [REQUIRED = 1]. *)
Definition approved_ticket : TicketState :=
  set_resolved
    (approved_state (voter_profile Sample.ann)
       (new_ticket Sample.chat Sample.request)).

(** The registry that holds it. *)
Definition approved : Store := set_ticket 100 approved_ticket empty_store.

End Faults.

(** * Properties *)

(** ** Strings *)

Example lit_ascii : lit "1/2" = [49; 47; 50]%N.
Proof. reflexivity. Qed.

Example lit_cyrillic : lit "Тикет" = [1058; 1080; 1082; 1077; 1090]%N.
Proof. reflexivity. Qed.

Example lit_astral : lit "🧾" = [55358; 56830]%N.
Proof. reflexivity. Qed.

Example of_Z_negative : of_Z (-1001234) = lit "-1001234".
Proof. vm_compute. reflexivity. Qed.

Example trim_example : trim (lit "  a b " ++ [10; 160]%N) = lit "a b".
Proof. vm_compute. reflexivity. Qed.

Example split_example :
  split_on 44 (lit "ann, bob,,") = [lit "ann"; lit " bob"; []; []].
Proof. vm_compute. reflexivity. Qed.

Example approvers_example :
  APPROVER_LIST Sample.cfg_two = [lit "ann"; lit "bob"]
  ∧ APPROVER_LIST Sample.cfg_default = [].
Proof. split; vm_compute; reflexivity. Qed.

Example month_title_example : month_title Sample.clock = lit "2026-11".
Proof. vm_compute. reflexivity. Qed.

Example pending_key_example : pending_key (-5) 1 = lit "-5:1".
Proof. vm_compute. reflexivity. Qed.

(** A label is matched whatever the case of its letters, and the value
    ends with its line. *)
Example parse_example :
  parsePayload Sample.upper
    (lit "тикет: 12 " ++ [10%N] ++ lit "НАРУШЕНИЕ: late" ++ [10%N]
     ++ lit "Причина: agreed")
  = Some {| ticket := lit "12"; violation := lit "late";
            reason := lit "agreed"; amount := []; operator := [] |}.
Proof. vm_compute. reflexivity. Qed.

(** The white space after the colon may run over the end of the line:
    a label with an empty line takes the next line as its value. *)
Example parse_next_line :
  grab Sample.upper (lit "Причина:" ++ [10%N] ++ lit "Сумма: 50")
    (lit "Причина")
  = lit "Сумма: 50".
Proof. vm_compute. reflexivity. Qed.

(** ** Sample runs *)

(** A second vote of the same user is answered with an alert and changes
    nothing. *)
Example second_vote_refused :
  let s1 := Sample.store_after Sample.cfg_two Sample.calm
              [Vote (Sample.vote Sample.ann "approve")] in
  run (on_callback_query Sample.cfg_two (Sample.vote Sample.ann "reject"))
    Sample.calm s1 []
  = (inl tt, s1,
     [(answerCallbackQuery (lit "q") (lit "Вы уже голосовали") true, None)]).
Proof. vm_compute. reflexivity. Qed.

(** A reject vote followed by the reply to its prompt. *)
Example reject_then_reply :
  let s2 := (run_events Sample.upper Sample.cfg_two
               [Vote (Sample.vote Sample.ann "reject");
                Inbound Sample.reply] Sample.calm Sample.registered []).1 in
  pendingComments s2 = ∅
  ∧ (rejectComment <$> ticketsState s2 !! 100) = Some (Some (lit "too late"))
  ∧ (resolved <$> ticketsState s2 !! 100) = Some true
  ∧ (rejected <$> ticketsState s2 !! 100) = Some true.
Proof. vm_compute. repeat split; reflexivity. Qed.

(** A submission registers the request under the id of the card and sets
    the timer of its reminder. *)
Example submission_registers :
  run (on_annul Sample.upper Sample.cfg_two Sample.submission
         (Some ([10%N] ++ lit "Тикет: 12" ++ [10%N] ++ lit "Нарушение: late"
                ++ [10%N] ++ lit "Причина: agreed" ++ [10%N]
                ++ lit "Сумма: 50")))
    Sample.calm empty_store []
  = (inl tt, set_ticket 200 (new_ticket Sample.chat Sample.request) empty_store,
     [(setTimeout (Reminder 200 Sample.chat) 7200000, None);
      (sendMessage Sample.chat
         (makeCardText Sample.request None
            (lit "Утверждающие: @ann, @bob" ++ [10%N]
             ++ lit "Нужно одобрений: 2"))
         vote_buttons, None)]).
Proof. vm_compute. reflexivity. Qed.

(** ** The correlation key *)

Lemma pretty_N_go_no_colon x s :
  ":"%char ∉ list_ascii_of_string s →
  ":"%char ∉ list_ascii_of_string (pretty_N_go x s).
Proof.
  revert s. induction (N.lt_wf_0 x) as [x _ IH]; intros s Hs.
  destruct (decide (x = 0)%N) as [->|Hx]; [by rewrite pretty_N_go_0|].
  rewrite pretty_N_go_step by lia. apply IH.
  { apply N.div_lt; lia. }
  cbn [list_ascii_of_string]. rewrite not_elem_of_cons. split; [|done].
  unfold pretty_N_char. by repeat case_match.
Qed.

Lemma pretty_Z_no_colon (n : Z) : ":"%char ∉ list_ascii_of_string (pretty n).
Proof.
  assert (HN : ∀ x : N, ":"%char ∉ list_ascii_of_string (pretty x)).
  { intros x. unfold pretty, pretty_N. case_decide.
    - cbn. rewrite not_elem_of_cons. split; [done|]. apply not_elem_of_nil.
    - apply pretty_N_go_no_colon. apply not_elem_of_nil. }
  destruct n as [|p|p]; unfold pretty, pretty_Z.
  - cbn. rewrite not_elem_of_cons. split; [done|]. apply not_elem_of_nil.
  - apply (HN (N.pos p)).
  - change ("-" +:+ pretty p)%string with (String "-" (pretty (N.pos p))).
    cbn [list_ascii_of_string]. rewrite not_elem_of_cons. split; [done|].
    apply HN.
Qed.

Lemma of_Z_no_colon n : 58%N ∉ of_Z n.
Proof.
  unfold of_Z, of_ascii. rewrite list_elem_of_fmap. intros (a & Ha & Hin).
  assert (a = ":"%char) as ->.
  { rewrite <-(ascii_N_embedding a), <-Ha. reflexivity. }
  by apply pretty_Z_no_colon in Hin.
Qed.

Lemma of_Z_inj n1 n2 : of_Z n1 = of_Z n2 → n1 = n2.
Proof.
  unfold of_Z, of_ascii. intros H.
  assert (Hinj : Inj (=) (=) (λ a, N_of_ascii a)).
  { intros a1 a2 Ha.
    by rewrite <-(ascii_N_embedding a1), <-(ascii_N_embedding a2), Ha. }
  apply (list_fmap_eq_inj _ Hinj) in H.
  apply (f_equal string_of_list_ascii) in H.
  rewrite !string_of_list_ascii_of_string in H. by apply (inj pretty) in H.
Qed.

Lemma split_at_first (c : N) l1 l2 r1 r2 :
  c ∉ l1 → c ∉ l2 → l1 ++ c :: r1 = l2 ++ c :: r2 → l1 = l2 ∧ r1 = r2.
Proof.
  revert l2. induction l1 as [|a l1 IH]; intros [|b l2] H1 H2 H.
  - by injection H as ->.
  - injection H as -> _. exfalso. apply H2, list_elem_of_here.
  - injection H as -> _. exfalso. apply H1, list_elem_of_here.
  - injection H as -> H. apply not_elem_of_cons in H1 as [_ H1].
    apply not_elem_of_cons in H2 as [_ H2].
    by destruct (IH l2 H1 H2 H) as [-> ->].
Qed.

(** Distinct (chat, user) pairs have distinct keys. *)
Lemma pending_key_inj c1 v1 c2 v2 :
  pending_key c1 v1 = pending_key c2 v2 → c1 = c2 ∧ v1 = v2.
Proof.
  unfold pending_key. change (lit ":") with [58%N]. cbn [app]. intros H.
  apply split_at_first in H as [H1 H2]; auto using of_Z_no_colon.
  by apply of_Z_inj in H1, H2.
Qed.

(** ** Digits *)

Lemma pretty_N_go_no_minus x s :
  "-"%char ∉ list_ascii_of_string s →
  "-"%char ∉ list_ascii_of_string (pretty_N_go x s).
Proof.
  revert s. induction (N.lt_wf_0 x) as [x _ IH]; intros s Hs.
  destruct (decide (x = 0)%N) as [->|Hx]; [by rewrite pretty_N_go_0|].
  rewrite pretty_N_go_step by lia. apply IH.
  { apply N.div_lt; lia. }
  cbn [list_ascii_of_string]. rewrite not_elem_of_cons. split; [|done].
  unfold pretty_N_char. by repeat case_match.
Qed.

(** The decimal form of a number that is not negative has no minus sign. *)
Lemma of_Z_no_minus n : 0 ≤ n → 45%N ∉ of_Z n.
Proof.
  intros Hn. unfold of_Z, of_ascii. rewrite list_elem_of_fmap.
  intros (a & Ha & Hin).
  assert (a = "-"%char) as ->.
  { rewrite <-(ascii_N_embedding a), <-Ha. reflexivity. }
  assert (HN : ∀ x : N, "-"%char ∉ list_ascii_of_string (pretty x)).
  { intros x. unfold pretty, pretty_N. case_decide.
    - cbn. rewrite not_elem_of_cons. split; [done|]. apply not_elem_of_nil.
    - apply pretty_N_go_no_minus. apply not_elem_of_nil. }
  assert (H : "-"%char ∉ list_ascii_of_string (pretty n)); [|done].
  destruct n as [|p|p]; unfold pretty, pretty_Z.
  - cbn. rewrite not_elem_of_cons. split; [done|]. apply not_elem_of_nil.
  - apply (HN (N.pos p)).
  - lia.
Qed.

#[local] Opaque lit of_Z.

(** ** Running programs *)

Lemma run_bind {A B} (p : Prog A) (f : A → Prog B) o s log :
  run (p ≫= f) o s log =
  match run p o s log with
  | (inl a, s', log') => run (f a) o s' log'
  | (inr e, s', log') => (inr e, s', log')
  end.
Proof.
  unfold mbind, Prog_bind. revert s log.
  induction p as [a|e|c k IH|k IH|g k IH]; intros s log; simpl; auto.
Qed.

Lemma run_try_catch {A} (p : Prog A) (h : exn → Prog A) o s log :
  run (try_catch p h) o s log =
  match run p o s log with
  | (inl a, s', log') => (inl a, s', log')
  | (inr e, s', log') => run (h e) o s' log'
  end.
Proof.
  revert s log.
  induction p as [a|e|c k IH|k IH|g k IH]; intros s log; simpl; auto.
Qed.

Ltac exec :=
  cbn [run bind try_catch mbind mret Prog_bind Prog_ret await call modify
       bot_sendMessage bot_answerCallbackQuery bot_editMessageText
       bot_deleteMessage console_log id error_of first_segment current].

Ltac exec_in H :=
  cbn [run bind try_catch mbind mret Prog_bind Prog_ret await call modify
       bot_sendMessage bot_answerCallbackQuery bot_editMessageText
       bot_deleteMessage console_log id error_of first_segment current] in H.

(** A raising answer contradicts an environment that never raises. *)
Ltac ask o Hok :=
  match goal with
  | |- context [o ?l ?c] =>
    let Ho := fresh "Ho" in
    let e := fresh "e" in
    let v := fresh "v" in
    pose proof (Hok l c) as Ho; cbn [error_of] in Ho;
    destruct (o l c) as [v|e]; [clear Ho|discriminate Ho];
    lazymatch type of v with
    | unit => destruct v
    | _ => idtac
    end
  end.

Lemma lookup_set_ticket msgId st s :
  ticketsState (set_ticket msgId st s) !! msgId = Some st.
Proof. apply lookup_insert_eq. Qed.

Lemma lookup_set_ticket_ne msgId msgId' st s :
  msgId ≠ msgId' →
  ticketsState (set_ticket msgId st s) !! msgId' = ticketsState s !! msgId'.
Proof. intros. by apply lookup_insert_ne. Qed.

(** ** Logs *)

Lemma no_append_nil : no_append [].
Proof. constructor. Qed.

Lemma no_append_cons c e l :
  is_append c = false → no_append l → no_append ((c, e) :: l).
Proof. by constructor. Qed.

Lemma no_append_app l1 l2 : no_append l1 → no_append l2 → no_append (l1 ++ l2).
Proof. apply Forall_app_2. Qed.

Lemma no_append_reported chat e sent : no_append (reported chat e sent).
Proof. repeat constructor. Qed.

Lemma no_append_acknowledged cfg query chat msgId st :
  no_append (acknowledged cfg query chat msgId st).
Proof. repeat constructor. Qed.

Create HintDb trace.
#[local] Hint Resolve no_append_nil no_append_cons no_append_app
  no_append_reported no_append_acknowledged : trace.

Lemma no_append_not_in l sheet row x :
  no_append l → (addRow sheet row, x) ∉ l.
Proof.
  intros Hl Hin. unfold no_append in Hl. rewrite Forall_forall in Hl.
  by specialize (Hl _ Hin).
Qed.

Lemma appends_app l1 l2 : appends (l1 ++ l2) = (appends l1 + appends l2)%nat.
Proof. unfold appends. by rewrite List.filter_app, length_app. Qed.

Lemma no_append_appends l : no_append l → appends l = 0%nat.
Proof.
  unfold appends. induction 1 as [|[c e] l Hc _ IH]; [done|].
  cbn [List.filter fst]. simpl in Hc. by rewrite Hc.
Qed.

Lemma appends_cons_append sheet row x l :
  appends ((addRow sheet row, x) :: l) = S (appends l).
Proof. reflexivity. Qed.

Lemma finalize_log_appends st chat title r new :
  finalize_log st chat title r new → (appends new <= 1)%nat.
Proof.
  destruct 1 as [e sent pre Hpre|e sent d pre Hpre|r d post pre Hpre Hpost].
  - rewrite no_append_appends; [lia|]. auto with trace.
  - rewrite appends_app, (no_append_appends (reported _ _ _)) by auto with trace.
    rewrite appends_cons_append, (no_append_appends pre) by done. lia.
  - rewrite appends_app, (no_append_appends post) by done.
    rewrite appends_cons_append, (no_append_appends pre) by done. lia.
Qed.

(** ** Stale votes *)

Lemma stale_vote cfg query msgId o s log :
  closed s msgId = true → refers_to msgId query = true →
  run (on_callback_query cfg query) o s log = (inl tt, s, log).
Proof.
  intros Hs Hq. apply bool_decide_eq_true_1 in Hq.
  unfold on_callback_query, closed in *.
  destruct (query_message query) as [m|]; [|done].
  injection Hq as ->.
  destruct (_ || _); [done|]. cbn [run].
  destruct (ticketsState s !! msgId) as [st|]; [|done].
  by rewrite Hs.
Qed.

Lemma stale_votes canon cfg msgId queries o s log :
  closed s msgId = true → forallb (refers_to msgId) queries = true →
  run_events canon cfg (Vote <$> queries) o s log = (s, log).
Proof.
  intros Hs. induction queries as [|q queries IH]; [done|].
  cbn [forallb]. intros [Hq Hqs]%andb_prop.
  cbn [fmap list_fmap run_events handler].
  rewrite (stale_vote cfg q msgId) by done. by apply IH.
Qed.

(** ** Accepted votes *)

Lemma accepted_vote cfg s query m st o log :
  accepted cfg s query m st →
  run (on_callback_query cfg query) o s log =
  run (st' ← (if bool_decide (data query = Some (lit "approve"))
              then approve_branch cfg query (chat_id m) (message_id m)
                     (voter_profile (query_from query)) st
              else mret st);
       if bool_decide (data query = Some (lit "reject"))
       then reject_branch query (chat_id m) (message_id m) st'
       else mret tt) o s log.
Proof.
  intros [Hm Hid Hchat Hst Hopen Hauth Hfresh]. unfold on_callback_query.
  rewrite Hm, Hid, Hchat. cbn [orb run]. rewrite Hst, Hopen.
  unfold authorized in Hauth. rewrite <-negb_orb, Hauth. cbn [negb].
  by rewrite Hfresh.
Qed.

Lemma accepted_first_segment cfg s query m st :
  accepted cfg s query m st →
  first_segment (on_callback_query cfg query) s =
  first_segment
      (st' ← (if bool_decide (data query = Some (lit "approve"))
              then approve_branch cfg query (chat_id m) (message_id m)
                     (voter_profile (query_from query)) st
              else mret st);
       if bool_decide (data query = Some (lit "reject"))
       then reject_branch query (chat_id m) (message_id m) st'
       else mret tt) s.
Proof.
  intros [Hm Hid Hchat Hst Hopen Hauth Hfresh]. unfold on_callback_query.
  rewrite Hm, Hid, Hchat. cbn [orb first_segment]. rewrite Hst, Hopen.
  unfold authorized in Hauth. rewrite <-negb_orb, Hauth. cbn [negb].
  by rewrite Hfresh.
Qed.

Lemma not_approve_when_reject query :
  data query = Some (lit "reject") →
  bool_decide (data query = Some (lit "approve")) = false.
Proof.
  intros ->. apply bool_decide_eq_false_2. intros H.
  vm_compute in H. discriminate.
Qed.

Lemma not_reject_when_approve query :
  data query = Some (lit "approve") →
  bool_decide (data query = Some (lit "reject")) = false.
Proof.
  intros ->. apply bool_decide_eq_false_2. intros H.
  vm_compute in H. discriminate.
Qed.

Lemma closed_lookup s msgId st :
  ticketsState s !! msgId = Some st → resolved st = true →
  closed s msgId = true.
Proof. unfold closed. by intros ->. Qed.

(** ** The quorum block *)

Lemma ensureHeaders_run sheet o s log :
  ∃ r new, run (ensureHeaders sheet) o s log = (r, s, new ++ log)
           ∧ no_append new.
Proof.
  unfold ensureHeaders. exec.
  destruct (o log (loadHeaderRow sheet)) as [current|e]; exec.
  2: { eexists _, [_]. split; [reflexivity|]. auto with trace. }
  destruct (forallb blank_header current); exec.
  - destruct (o _ _) as [[]|e]; exec.
    + eexists _, [_; _; _]. split; [reflexivity|]. auto 10 with trace.
    + eexists _, [_; _]. split; [reflexivity|]. auto 10 with trace.
  - destruct (List.filter _ _); exec.
    + eexists _, [_]. split; [reflexivity|]. auto with trace.
    + destruct (o _ _) as [[]|e]; exec.
      * eexists _, [_; _; _]. split; [reflexivity|]. auto 10 with trace.
      * eexists _, [_; _]. split; [reflexivity|]. auto 10 with trace.
Qed.

Lemma getOrCreateMonthlySheet_run o s log :
  ∃ r new, run getOrCreateMonthlySheet o s log
           = (r, s, new ++ (newDate, None) :: log)
           ∧ no_append new
           ∧ ∀ sheet, r = inl sheet → sheet = month_title (o log newDate).
Proof.
  unfold getOrCreateMonthlySheet, monthSheetName. exec.
  destruct (o _ loadInfo) as [titles|e]; exec.
  2: { eexists _, [_]. split; [reflexivity|]. split; [auto with trace|]. done. }
  destruct (bool_decide _); exec.
  - rewrite run_bind.
    destruct (ensureHeaders_run (month_title (o log newDate)) o s
                ((loadInfo, None) :: (newDate, None) :: log))
      as (r & new & -> & Hnew).
    destruct r as [[]|e]; exec.
    + exists (inl (month_title (o log newDate))), (new ++ [(loadInfo, None)]).
      rewrite <-app_assoc. split; [done|]. split; [auto with trace|].
      by intros ? [= <-].
    + exists (inr e), (new ++ [(loadInfo, None)]).
      rewrite <-app_assoc. split; [done|]. split; [auto with trace|]. done.
  - destruct (o _ (addSheet _ _)) as [[]|e]; exec.
    + eexists _, [_; _; _]. split; [reflexivity|].
      split; [auto 10 with trace|]. by intros ? [= <-].
    + eexists _, [_; _; _]. split; [reflexivity|].
      split; [auto 10 with trace|]. done.
Qed.

Lemma reported_run chat e o s log :
  run (console_log (lit "❌ addRow error: " ++ as_string e);;
       bot_sendMessage chat
         (lit "⚠️ Ошибка записи в таблицу: " ++ error_text e) no_options;;
       mret tt) o s log
  = let sent := error_of _ (o ((console (lit "❌ addRow error: "
                                         ++ as_string e), None) :: log)
                 (sendMessage chat
                    (lit "⚠️ Ошибка записи в таблицу: " ++ error_text e)
                    no_options)) in
    (result_of sent, s, reported chat e sent ++ log).
Proof.
  exec. destruct (o _ _) as [?|?]; reflexivity.
Qed.

Lemma finalize_run cfg st chat msgId o s log :
  ticketsState s !! msgId = Some st →
  ∃ r new, run (finalize cfg st chat msgId) o s log = (r, s, new ++ log)
           ∧ finalize_log st chat (month_title (o log newDate)) r new.
Proof.
  intros Hst. unfold finalize. rewrite run_try_catch, run_bind.
  destruct (getOrCreateMonthlySheet_run o s log) as (r1 & new1 & -> & H1 & Ht).
  destruct r1 as [sheet|e].
  2: { rewrite reported_run. cbv zeta.
       eexists _, (reported chat e _ ++ new1 ++ [(newDate, None)]).
       split; [rewrite <-!app_assoc; reflexivity|].
       constructor. auto with trace. }
  rewrite (Ht sheet eq_refl). clear Ht sheet.
  set (title := month_title (o log newDate)).
  rewrite run_bind.
  destruct (ensureHeaders_run title o s (new1 ++ (newDate, None) :: log))
    as (r2 & new2 & -> & H2).
  destruct r2 as [[]|e].
  2: { rewrite reported_run. cbv zeta.
       eexists _, (reported chat e _ ++ new2 ++ new1 ++ [(newDate, None)]).
       split; [rewrite <-!app_assoc; reflexivity|].
       constructor. auto with trace. }
  unfold nowHelsinkiString, monthSheetName. exec.
  rewrite !Hst. cbn [from_option id].
  set (log2 := new2 ++ new1 ++ (newDate, None) :: log).
  set (d := o log2 newDate).
  assert (Hpre : no_append ((newDate, None) :: new2 ++ new1 ++ [(newDate, None)]))
    by auto 10 with trace.
  assert (Hlog : ∀ x, x ++ (newDate, None) :: log2
     = (x ++ (newDate, None) :: new2 ++ new1 ++ [(newDate, None)]) ++ log).
  { intros x. unfold log2. rewrite <-!app_assoc. cbn [app].
    rewrite <-!app_assoc. reflexivity. }
  destruct (o _ (addRow _ _)) as [[]|e]; exec.
  - destruct (o _ (editMessageText _ _ _)) as [[]|e]; exec.
    + eexists _, _. split; [apply (f_equal (pair _)), (Hlog [_; _; _])|].
      cbn [app]. apply (appended st chat title _ d [_; _]); auto with trace.
    + destruct (o _ (sendMessage _ _ _)) as [?|e']; exec.
      * eexists _, _. split.
        { apply (f_equal (pair _)).
          apply (Hlog (reported chat e None ++ [_; _; _])). }
        rewrite <-app_assoc. cbn [app].
        apply (appended st chat title _ d (reported chat e _ ++ [_; _]));
          auto 10 with trace.
      * eexists _, _. split.
        { apply (f_equal (pair _)).
          apply (Hlog (reported chat e (Some e') ++ [_; _; _])). }
        rewrite <-app_assoc. cbn [app].
        apply (appended st chat title _ d (reported chat e _ ++ [_; _]));
          auto 10 with trace.
  - destruct (o _ (sendMessage _ _ _)) as [?|e']; exec.
    + eexists _, _. split.
      { apply (f_equal (pair _)). apply (Hlog (reported chat e None ++ [_])). }
      rewrite <-app_assoc. cbn [app].
      apply (append_failed st chat title e None); auto with trace.
    + eexists _, _. split.
      { apply (f_equal (pair _)).
        apply (Hlog (reported chat e (Some e') ++ [_])). }
      rewrite <-app_assoc. cbn [app].
      apply (append_failed st chat title e (Some e')); auto with trace.
Qed.

Lemma approve_branch_run cfg query chat msgId prof st o s log :
  approve_outcome cfg query chat msgId (approved_state prof st) o s log
    (run (approve_branch cfg query chat msgId prof st) o s log).
Proof.
  unfold approve_branch. fold (approved_state prof st).
  set (st1 := approved_state prof st). exec.
  destruct (o _ (answerCallbackQuery _ _ _)) as [[]|e]; exec;
    [|apply answer_raised].
  rewrite lookup_set_ticket. cbn [from_option id].
  destruct (o _ (editMessageText _ _ _)) as [[]|e]; exec;
    [|apply edit_raised].
  rewrite lookup_set_ticket. cbn [from_option id].
  fold (quorum cfg st1). destruct (quorum cfg st1) eqn:Hq; exec.
  2: { by apply approval_recorded. }
  rewrite run_bind.
  destruct (finalize_run cfg (set_resolved st1) chat msgId o
              (set_ticket msgId (set_resolved st1) (set_ticket msgId st1 s))
              (acknowledged cfg query chat msgId st1 ++ log)
              (lookup_set_ticket _ _ _))
    as (r & new & Hrun & Hlog).
  unfold acknowledged in Hrun at 1. cbn [app] in Hrun. rewrite Hrun.
  destruct r as [[]|e]; exec.
  - by apply (quorum_reached cfg query chat msgId st1 o s log (inl tt) new).
  - by apply (quorum_reached cfg query chat msgId st1 o s log (inr e) new).
Qed.

(** What one vote on the message [msgId] does to the log and to the
    request: at most one append, and an append only together with the
    request being resolved at quorum. *)
Lemma vote_step cfg query msgId o s log :
  refers_to msgId query = true →
  ∃ r s' new,
    run (on_callback_query cfg query) o s log = (r, s', new ++ log)
    ∧ (appends new <= 1)%nat
    ∧ (appends new = 1%nat →
       ∃ st', ticketsState s' !! msgId = Some st'
              ∧ resolved st' = true ∧ quorum cfg st' = true)
    ∧ (closed s msgId = true → s' = s ∧ new = []).
Proof.
  intros Href. apply bool_decide_eq_true_1 in Href.
  assert (Hnil : ∃ r s' new, (@inl unit exn (), s, log) = (r, s', new ++ log)
    ∧ (appends new <= 1)%nat
    ∧ (appends new = 1%nat →
       ∃ st', ticketsState s' !! msgId = Some st'
              ∧ resolved st' = true ∧ quorum cfg st' = true)
    ∧ (closed s msgId = true → s' = s ∧ new = [])).
  { exists (inl tt), s, []. split; [done|]. split; [cbn; lia|].
    split; [by cbn|]. done. }
  unfold on_callback_query.
  destruct (query_message query) as [m|]; [|done].
  injection Href as Href. rewrite Href.
  destruct (_ || _); [exact Hnil|]. cbn [run].
  destruct (ticketsState s !! msgId) as [st|] eqn:Hst; [|exact Hnil].
  destruct (resolved st) eqn:Hopen; [exact Hnil|].
  assert (Hclosed : closed s msgId ≠ true).
  { unfold closed. rewrite Hst, Hopen. discriminate. }
  destruct (_ && _).
  { exec. destruct (o _ _) as [[]|e]; exec.
    all: eexists _, _, [_]; split; [reflexivity|].
    all: split; [cbn; lia|]. all: split; [by cbn|done]. }
  destruct (bool_decide (_ ∈ _)).
  { exec. destruct (o _ _) as [[]|e]; exec.
    all: eexists _, _, [_]; split; [reflexivity|].
    all: split; [cbn; lia|]. all: split; [by cbn|done]. }
  rewrite run_bind. set (prof := voter_profile _).
  destruct (bool_decide (data query = Some (lit "approve"))) eqn:Hda.
  - apply bool_decide_eq_true_1 in Hda.
    rewrite (bool_decide_false (data query = Some (lit "reject"))).
    2: { rewrite Hda. intros H. vm_compute in H. discriminate. }
    match goal with
    | |- context [run (approve_branch _ _ _ _ ?p _) _ _ _] =>
        pose proof (approve_branch_run cfg query (chat_id m) msgId p st o s log)
          as Hout
    end.
    destruct Hout as [e|e|Hq|r new Hq Hfin]; exec.
    + eexists _, _, [_]. split; [reflexivity|].
      split; [cbn; lia|]. split; [by cbn|done].
    + eexists _, _, [_; _]. split; [reflexivity|].
      split; [cbn; lia|]. split; [by cbn|done].
    + eexists _, _, _. split; [reflexivity|].
      rewrite no_append_appends by auto with trace.
      split; [lia|]. split; [done|done].
    + exists (match r with inl _ => inl tt | inr e => inr e end), 
        (set_ticket msgId (set_resolved (approved_state prof st))
           (set_ticket msgId (approved_state prof st) s)),
        (new ++ acknowledged cfg query (chat_id m) msgId
                  (approved_state prof st)).
      split; [destruct r as [[]|?]; exec; by rewrite <-app_assoc|].
      rewrite appends_app, (no_append_appends (acknowledged _ _ _ _ _))
        by auto with trace.
      pose proof (finalize_log_appends _ _ _ _ _ Hfin).
      split; [lia|]. split; [|done].
      intros _. eexists. split; [apply lookup_set_ticket|]. done.
  - exec. destruct (bool_decide (data query = Some (lit "reject"))).
    2: { exec. exact Hnil. }
    unfold reject_branch. exec.
    destruct (o _ (answerCallbackQuery _ _ _)) as [[]|e]; exec.
    2: { eexists _, _, [_]. split; [reflexivity|].
         split; [cbn; lia|]. split; [by cbn|done]. }
    destruct (o _ (sendMessage _ _ _)) as [prompt|e]; exec.
    2: { eexists _, _, [_; _]. split; [reflexivity|].
         split; [cbn; lia|]. split; [by cbn|done]. }
    destruct (o _ (editMessageText _ _ _)) as [[]|e]; exec.
    all: eexists _, _, [_; _; _]; split; [reflexivity|].
    all: split; [cbn; lia|]. all: split; [by cbn|done].
Qed.

(** A run of votes on one message: at most one append, and an append only
    together with the request being resolved at quorum. *)
Lemma votes_run canon cfg msgId queries o s log :
  forallb (refers_to msgId) queries = true →
  ∃ s' new,
    run_events canon cfg (Vote <$> queries) o s log = (s', new ++ log)
    ∧ (appends new <= 1)%nat
    ∧ (appends new = 1%nat →
       ∃ st', ticketsState s' !! msgId = Some st'
              ∧ resolved st' = true ∧ quorum cfg st' = true).
Proof.
  revert s log. induction queries as [|q queries IH]; intros s log.
  { intros _. exists s, []. split; [done|]. split; [cbn; lia|]. by cbn. }
  cbn [forallb]. intros [Hq Hqs]%andb_prop.
  cbn [fmap list_fmap run_events handler].
  destruct (vote_step cfg q msgId o s log Hq)
    as (r & s1 & new1 & -> & Hle & Hone & _).
  destruct (decide (appends new1 = 1%nat)) as [H1|H1].
  - destruct (Hone H1) as (st' & Hst' & Hres & Hquo).
    rewrite (stale_votes canon cfg msgId) by eauto using closed_lookup.
    exists s1, new1. eauto.
  - destruct (IH s1 (new1 ++ log) Hqs) as (s2 & new2 & -> & Hle2 & Hone2).
    exists s2, (new2 ++ new1). rewrite <-app_assoc. split; [done|].
    rewrite appends_app. assert (appends new1 = 0%nat) as -> by lia.
    rewrite Nat.add_0_r. done.
Qed.

(** ** The quorum block when nothing raises *)

Lemma ensureHeaders_ok sheet o s log :
  never_raises o →
  ∃ new, run (ensureHeaders sheet) o s log = (inl tt, s, new ++ log)
         ∧ no_append new.
Proof.
  intros Hok. unfold ensureHeaders. exec. ask o Hok. exec.
  destruct (forallb blank_header _); exec.
  - ask o Hok. exec. eexists [_; _; _]. split; [reflexivity|].
    auto 10 with trace.
  - destruct (List.filter _ _); exec.
    + eexists [_]. split; [reflexivity|]. auto with trace.
    + ask o Hok. exec. eexists [_; _; _]. split; [reflexivity|].
      auto 10 with trace.
Qed.

Lemma getOrCreateMonthlySheet_ok o s log :
  never_raises o →
  ∃ new, run getOrCreateMonthlySheet o s log
         = (inl (month_title (o log newDate)), s,
            new ++ (newDate, None) :: log)
         ∧ no_append new.
Proof.
  intros Hok. unfold getOrCreateMonthlySheet, monthSheetName. exec.
  ask o Hok. exec. destruct (bool_decide _); exec.
  - rewrite run_bind.
    destruct (ensureHeaders_ok (month_title (o log newDate)) o s
                ((loadInfo, None) :: (newDate, None) :: log) Hok)
      as (new & -> & Hnew).
    exec. exists (new ++ [(loadInfo, None)]). rewrite <-app_assoc.
    split; [done|]. auto with trace.
  - ask o Hok. exec. eexists [_; _; _]. split; [reflexivity|].
    auto 10 with trace.
Qed.

Lemma finalize_ok cfg st chat msgId o s log :
  never_raises o → ticketsState s !! msgId = Some st →
  ∃ d d' pre,
    run (finalize cfg st chat msgId) o s log
    = (inl tt, s,
       (editMessageText (approved_text cfg st (month_title d')) chat msgId,
        None)
       :: (newDate, None)
       :: (addRow (month_title (o log newDate)) (approved_row st (ru_RU d)),
           None)
       :: pre ++ log)
    ∧ no_append pre.
Proof.
  intros Hok Hst. unfold finalize. rewrite run_try_catch, run_bind.
  destruct (getOrCreateMonthlySheet_ok o s log Hok) as (new1 & -> & H1).
  rewrite run_bind.
  destruct (ensureHeaders_ok (month_title (o log newDate)) o s
              (new1 ++ (newDate, None) :: log) Hok) as (new2 & -> & H2).
  unfold nowHelsinkiString, monthSheetName. exec.
  rewrite !Hst. cbn [from_option id].
  ask o Hok. exec. rewrite ?Hst. cbn [from_option id]. ask o Hok. exec.
  eexists _, _, ((newDate, None) :: new2 ++ new1 ++ [(newDate, None)]).
  split; [|auto 10 with trace].
  cbn [app]. by rewrite <-!app_assoc.
Qed.

(** ** Replies and reminders *)

(** The message handler updates the maps before its first call, and
    appends nothing. *)
Lemma on_message_run msg o s log :
  ∃ r new,
    run (on_message msg) o s log
    = (r, first_segment (on_message msg) s, new ++ log)
    ∧ no_append new.
Proof.
  unfold on_message. destruct (from msg) as [sender|]; exec.
  2: { eexists _, []. split; [reflexivity|]. auto with trace. }
  destruct (pendingComments s !! _) as [wait|]; exec.
  2: { eexists _, []. split; [reflexivity|]. auto with trace. }
  destruct (negb _); exec.
  { eexists _, []. split; [reflexivity|]. auto with trace. }
  destruct (ticketsState s !! _) as [st|]; exec.
  2: { eexists _, []. split; [reflexivity|]. auto with trace. }
  destruct (o _ (editMessageText _ _ _)) as [[]|e]; exec.
  2: { eexists _, [_]. split; [reflexivity|]. auto with trace. }
  destruct (o _ (deleteMessage _ _)) as [[]|e]; exec.
  all: destruct (o _ (deleteMessage _ _)) as [[]|e']; exec.
  all: eexists _, [_; _; _]; split; [reflexivity|]; auto 10 with trace.
Qed.

(** The reminder leaves the maps alone, sets no timer and appends
    nothing; it sends one message when the request is registered,
    unresolved, and some configured approver has not approved, and makes no
    call otherwise. *)
Lemma reminder_run cfg sent chat o s log :
  ∃ r new,
    run (reminder cfg sent chat) o s log = (r, s, new ++ log)
    ∧ new =
      match ticketsState s !! sent with
      | Some st =>
        if resolved st then []
        else
          match not_approved_by cfg st with
          | [] => []
          | pending =>
            [(sendMessage chat (reminder_text st pending) html,
              error_of (sendMessage chat (reminder_text st pending) html)
                (o log (sendMessage chat (reminder_text st pending) html)))]
          end
      | None => []
      end.
Proof.
  unfold reminder. exec.
  destruct (ticketsState s !! sent) as [st|]; exec.
  2: { by eexists _, []. }
  destruct (resolved st); exec.
  { by eexists _, []. }
  destruct (not_approved_by cfg st) as [|u us]; exec.
  { by eexists _, []. }
  destruct (o _ _) as [?|e]; exec; by eexists _, [_].
Qed.

Lemma reminder_no_append cfg sent chat o s log :
  ∃ r new,
    run (reminder cfg sent chat) o s log = (r, s, new ++ log)
    ∧ no_append new.
Proof.
  destruct (reminder_run cfg sent chat o s log) as (r & new & Hrun & ->).
  eexists _, _. split; [exact Hrun|].
  destruct (ticketsState s !! sent) as [st|]; [|auto with trace].
  destruct (resolved st); [auto with trace|].
  destruct (not_approved_by cfg st); auto with trace.
Qed.

Lemma closed_after_message msg s msgId :
  closed s msgId = true →
  closed (first_segment (on_message msg) s) msgId = true.
Proof.
  intros Hs. unfold on_message. destruct (from msg) as [sender|]; [|done].
  cbn [first_segment].
  destruct (pendingComments s !! _) as [wait|]; [|done].
  destruct (negb _); [done|].
  destruct (ticketsState s !! ticketMsgId wait) as [st|] eqn:Hst; exec.
  2: { done. }
  unfold closed in *. cbn.
  destruct (decide (ticketMsgId wait = msgId)) as [<-|Hne].
  - rewrite lookup_insert_eq. rewrite Hst in Hs. done.
  - by rewrite lookup_insert_ne.
Qed.

(** Once the request under [msgId] is closed, no vote on it, timer or
    inbound message appends a row. *)
Lemma no_retry canon cfg msgId evs o s log :
  closed s msgId = true →
  forallb (may_retry msgId) evs = true →
  ∃ s' new,
    run_events canon cfg evs o s log = (s', new ++ log)
    ∧ no_append new ∧ closed s' msgId = true.
Proof.
  revert s log. induction evs as [|ev evs IH]; intros s log Hs.
  { intros _. exists s, []. split; [done|]. auto with trace. }
  cbn [forallb]. intros [Hev Hevs]%andb_prop. cbn [run_events].
  destruct ev as [msg match1|q|msg|[sent chat]]; [done|..]; cbn [handler].
  - rewrite (stale_vote cfg q msgId) by done. by apply IH.
  - destruct (on_message_run msg o s log) as (r & new & -> & Hnew).
    destruct (IH _ (new ++ log) (closed_after_message msg s msgId Hs) Hevs)
      as (s' & new' & -> & Hnew' & Hs').
    exists s', (new' ++ new). rewrite <-app_assoc. auto with trace.
  - destruct (reminder_no_append cfg sent chat o s log)
      as (r & new & -> & Hnew).
    destruct (IH _ (new ++ log) Hs Hevs) as (s' & new' & -> & Hnew' & Hs').
    exists s', (new' ++ new). rewrite <-app_assoc. auto with trace.
Qed.

(** ** What a handler leaves alone *)

(** A vote on another message changes neither the request under [t] nor
    the fact that no correlation refers to it. *)
Lemma vote_frame cfg query o s log t :
  refers_to t query = false →
  ticketsState (run (on_callback_query cfg query) o s log).1.2 !! t
  = ticketsState s !! t
  ∧ (unreferenced s t →
     unreferenced (run (on_callback_query cfg query) o s log).1.2 t).
Proof.
  intros Href. apply bool_decide_eq_false_1 in Href.
  unfold on_callback_query.
  destruct (query_message query) as [m|]; [|done].
  assert (Hne : message_id m ≠ t) by (intros <-; by apply Href).
  destruct (_ || _); [done|]. cbn [run].
  destruct (ticketsState s !! message_id m) as [st|]; [|done].
  destruct (resolved st); [done|].
  destruct (_ && _).
  { exec. by destruct (o _ _) as [[]|e]. }
  destruct (bool_decide (_ ∈ _)).
  { exec. by destruct (o _ _) as [[]|e]. }
  rewrite run_bind.
  destruct (bool_decide (data query = Some (lit "approve"))) eqn:Hda.
  - apply bool_decide_eq_true_1 in Hda.
    rewrite (not_reject_when_approve _ Hda).
    pose proof (approve_branch_run cfg query (chat_id m) (message_id m)
                  (voter_profile (query_from query)) st o s log) as Hout.
    destruct Hout as [e|e|Hq|r new Hq Hfin]; exec; cbn [fst snd].
    + by rewrite lookup_set_ticket_ne.
    + by rewrite lookup_set_ticket_ne.
    + by rewrite lookup_set_ticket_ne.
    + destruct r as [[]|e]; exec; cbn [fst snd];
        by rewrite !lookup_set_ticket_ne.
  - exec. destruct (bool_decide (data query = Some (lit "reject"))); [|done].
    unfold reject_branch. exec.
    destruct (o _ (answerCallbackQuery _ _ _)) as [[]|e]; exec.
    2: { cbn [fst snd]. by rewrite lookup_set_ticket_ne. }
    destruct (o _ (sendMessage _ _ _)) as [prompt|e]; exec.
    2: { cbn [fst snd]. by rewrite lookup_set_ticket_ne. }
    assert (Hset : ∀ key,
      ticketsState (set_pending key
         {| promptMsgId := prompt; ticketMsgId := message_id m |}
         (set_ticket (message_id m)
            (set_resolved (set_rejected (add_vote (uid (query_from query)) st)))
            s)) !! t = ticketsState s !! t
      ∧ (unreferenced s t →
         unreferenced (set_pending key
           {| promptMsgId := prompt; ticketMsgId := message_id m |}
           (set_ticket (message_id m)
              (set_resolved
                 (set_rejected (add_vote (uid (query_from query)) st)))
              s)) t)).
    { intros key. split.
      - cbn. by rewrite lookup_insert_ne.
      - intros Hun k w. unfold set_pending. cbn [pendingComments].
        rewrite lookup_insert_Some.
        intros [[_ <-]|[_ Hk]]; [done|by eapply Hun]. }
    destruct (o _ (editMessageText _ _ _)) as [[]|e]; exec; apply Hset.
Qed.

(** An inbound message changes neither a request no correlation refers to
    nor that fact. *)
Lemma message_frame msg s t :
  unreferenced s t →
  ticketsState (first_segment (on_message msg) s) !! t = ticketsState s !! t
  ∧ unreferenced (first_segment (on_message msg) s) t.
Proof.
  intros Hun. unfold on_message. destruct (from msg) as [sender|]; [|done].
  cbn [first_segment].
  destruct (pendingComments s !! _) as [wait|] eqn:Hwait; [|done].
  destruct (negb _); [done|].
  assert (Hdel : ∀ key s0,
    pendingComments s0 = pendingComments s →
    unreferenced (delete_pending key s0) t).
  { intros key s0 Hs0 k w. unfold delete_pending. cbn [pendingComments].
    rewrite Hs0, lookup_delete_Some. intros [_ Hk]. by eapply Hun. }
  destruct (ticketsState s !! ticketMsgId wait) as [st|]; cbn [first_segment].
  - split; [|by apply Hdel]. cbn. apply lookup_insert_ne. by eapply Hun.
  - split; [done|by apply Hdel].
Qed.

(** A submission changes no correlation, and no request but the one it
    registers. *)
Lemma annul_frame canon cfg msg match1 o s log t :
  never_reuses o t →
  ticketsState (run (on_annul canon cfg msg match1) o s log).1.2 !! t
  = ticketsState s !! t
  ∧ pendingComments (run (on_annul canon cfg msg match1) o s log).1.2
    = pendingComments s.
Proof.
  intros Ho. unfold on_annul.
  destruct (parsePayload _ _) as [ticket_data|]; exec.
  2: { by destruct (o _ _) as [?|e]. }
  destruct (o log (sendMessage _ _ _)) as [sent|e] eqn:Hsent; exec; [|done].
  cbn [fst snd]. split; [|done]. apply lookup_set_ticket_ne.
  intros ->. by apply Ho in Hsent.
Qed.

(** A resolved request to which no correlation refers stays as it is,
    whatever is received, as long as its message id is not given to a
    new message. *)
Lemma lost_request canon cfg t st evs o s log :
  ticketsState s !! t = Some st → resolved st = true → unreferenced s t →
  never_reuses o t →
  ticketsState (run_events canon cfg evs o s log).1 !! t = Some st
  ∧ unreferenced (run_events canon cfg evs o s log).1 t.
Proof.
  intros Hst Hres Hun Ho. revert s log Hst Hun.
  induction evs as [|ev evs IH]; intros s log Hst Hun; [done|].
  cbn [run_events].
  destruct (run (handler canon cfg ev) o s log) as [[r s1] log1] eqn:Hrun.
  assert (ticketsState s1 !! t = Some st ∧ unreferenced s1 t) as [Hst1 Hun1];
    [|by apply IH].
  destruct ev as [msg match1|q|msg|[sent c]]; cbn [handler] in Hrun.
  - destruct (annul_frame canon cfg msg match1 o s log t Ho) as [H1 H2].
    rewrite Hrun in H1, H2. cbn [fst snd] in H1, H2.
    split; [by rewrite H1|]. intros k w. rewrite H2. apply Hun.
  - destruct (refers_to t q) eqn:Href.
    + rewrite (stale_vote cfg q t) in Hrun
        by eauto using closed_lookup.
      by injection Hrun as _ <- _.
    + destruct (vote_frame cfg q o s log t Href) as [H1 H2].
      rewrite Hrun in H1, H2. cbn [fst snd] in H1, H2.
      split; [by rewrite H1|by apply H2].
  - destruct (on_message_run msg o s log) as (r' & new & Hrun' & _).
    rewrite Hrun in Hrun'. injection Hrun' as _ -> _.
    destruct (message_frame msg s t Hun) as [H1 H2].
    split; [by rewrite H1|done].
  - destruct (reminder_no_append cfg sent c o s log) as (r' & new & Hrun' & _).
    rewrite Hrun in Hrun'. by injection Hrun' as _ -> _.
Qed.

(** ** Parsing *)

Lemma trim_blank s : forallb is_space s = true → trim s = [].
Proof.
  intros Hs. unfold trim.
  assert (trimStart s = []) as ->; [|done].
  induction s as [|c s IH]; [done|].
  cbn [forallb] in Hs. apply andb_prop in Hs as [Hc Hs].
  cbn [trimStart]. rewrite Hc. by apply IH.
Qed.

Lemma line_head_blank t :
  forallb is_space t = true → forallb is_space (line_head t) = true.
Proof.
  induction t as [|c t IH]; [done|].
  cbn [forallb line_head]. intros [Hc Ht]%andb_prop.
  destruct (c =? 10)%N; [done|]. cbn [forallb]. by rewrite Hc, IH.
Qed.

Lemma capture_blank t r :
  forallb is_space t = true → capture t = Some r →
  forallb is_space r = true.
Proof.
  intros Ht. unfold capture. pose proof (line_head_blank t Ht) as Hl.
  destruct (line_head t); [done|]. by intros [= <-].
Qed.

Lemma spaces_capture_blank t r :
  forallb is_space t = true → spaces_capture t = Some r →
  forallb is_space r = true.
Proof.
  induction t as [|c t IH]; [done|].
  intros Ht. pose proof Ht as [Hc Ht']%andb_prop.
  cbn [spaces_capture]. rewrite Hc.
  destruct (spaces_capture t) as [r'|].
  - intros [= <-]. by apply IH.
  - by apply capture_blank.
Qed.

Lemma regexp_match_lacking canon label t :
  lacks_field canon label t = true →
  forallb is_space (default [] (regexp_match canon label t)) = true.
Proof.
  induction t as [|c t IH]; cbn [lacks_field regexp_match];
    intros [Hhere Hrest]%andb_prop.
  - unfold match_here.
    destruct (match_chars canon (label ++ lit ":") []) as [after|];
      cbn [mbind option_bind]; [|done].
    destruct (spaces_capture after) as [r|] eqn:Hr; [|done].
    cbn [default]. by apply (spaces_capture_blank after).
  - unfold match_here.
    destruct (match_chars canon (label ++ lit ":") (c :: t)) as [after|];
      cbn [mbind option_bind]; [|by apply IH].
    destruct (spaces_capture after) as [r|] eqn:Hr; [|by apply IH].
    cbn [default]. by apply (spaces_capture_blank after).
Qed.

Lemma grab_lacking canon label t :
  lacks_field canon label t = true → grab canon t label = [].
Proof. intros H. unfold grab. by apply trim_blank, regexp_match_lacking. Qed.

Lemma parsePayload_lacking canon t :
  lacks_field canon (lit "Тикет") t
  || lacks_field canon (lit "Нарушение") t
  || lacks_field canon (lit "Причина") t = true →
  parsePayload canon t = None.
Proof.
  intros H. unfold parsePayload. destruct (negb (truthy t)); [done|].
  cbv zeta.
  apply orb_prop in H as [H|H]; [apply orb_prop in H as [H|H]|].
  - by rewrite (grab_lacking _ _ _ H).
  - rewrite (grab_lacking _ _ _ H). cbn [truthy negb]. by rewrite orb_true_r.
  - rewrite (grab_lacking _ _ _ H). cbn [truthy negb]. by rewrite orb_true_r.
Qed.

(** ** Handlers one after the other, as a schedule *)

(** Settling the calls of one suspended handler until it ends gives the
    maps and the log of [run]. *)
Lemma advance_settles canon cfg (p : Prog unit) o s log :
  ∃ n,
    let '(t, s', log') := advance p o s log in
    overlap canon cfg (replicate n (Settle 0)) o (option_list t) s' log'
    = ([], (run p o s log).1.2, (run p o s log).2).
Proof.
  revert s log. induction p as [a|e|c k IH|k IH|f k IH]; intros s log.
  - by exists 0%nat.
  - by exists 0%nat.
  - destruct (IH (o log c) s ((c, error_of c (o log c)) :: log)) as [n Hn].
    cbn [advance run]. destruct (awaited c).
    + exists (S n). cbn [replicate overlap].
      change (option_list (Some ?t)) with [t].
      cbn [lookup list_lookup waits_for resume].
      destruct (advance (k (o log c)) o s _) as [[t' s'] log'].
      by destruct t'.
    + by exists n.
  - destruct (IH s s log) as [n Hn]. by exists n.
  - destruct (IH (f s) log) as [n Hn]. by exists n.
Qed.

Lemma overlap_app canon cfg acts1 acts2 o pool s log :
  overlap canon cfg (acts1 ++ acts2) o pool s log
  = let '(pool', s', log') := overlap canon cfg acts1 o pool s log in
    overlap canon cfg acts2 o pool' s' log'.
Proof.
  revert pool s log. induction acts1 as [|a acts1 IH]; intros pool s log.
  - done.
  - cbn [app overlap]. destruct a as [ev|i].
    + destruct (advance _ o s log) as [[t s'] log']. apply IH.
    + destruct (pool !! i) as [t|]; [|apply IH].
      destruct (advance _ o s _) as [[t' s'] log']. apply IH.
Qed.

(** The events handled one after the other are one of the schedules. *)
Lemma run_events_is_overlap canon cfg evs o s log :
  ∃ acts,
    overlap canon cfg acts o [] s log
    = ([], (run_events canon cfg evs o s log).1,
       (run_events canon cfg evs o s log).2).
Proof.
  revert s log. induction evs as [|ev evs IH]; intros s log.
  - by exists [].
  - cbn [run_events].
    destruct (advance_settles canon cfg (handler canon cfg ev) o s log)
      as [n Hn].
    destruct (run (handler canon cfg ev) o s log) as [[r s1] log1].
    destruct (IH s1 log1) as [acts Hacts].
    exists ((Deliver ev :: replicate n (Settle 0)) ++ acts).
    rewrite overlap_app. cbn [overlap app].
    destruct (advance (handler canon cfg ev) o s log) as [[t s'] log'].
    cbn [fst snd] in Hn. rewrite Hn. exact Hacts.
Qed.

(** ** Votes *)

(** When nothing raises, an accepted approve vote leaves the request
    resolved exactly when the approvals have reached [REQUIRED]. *)
Lemma approve_when_nothing_raises cfg s query m st o log :
  accepted cfg s query m st →
  data query = Some (lit "approve") →
  never_raises o →
  ∃ st' s' log',
    run (on_callback_query cfg query) o s log = (inl tt, s', log')
    ∧ ticketsState s' !! message_id m = Some st'
    ∧ approvals st'
      = map_set (uid (query_from query)) (voter_profile (query_from query))
          (approvals st)
    ∧ resolved st' = quorum cfg st'.
Proof.
  intros Hacc Hdata Hok.
  rewrite (accepted_vote _ _ _ _ _ _ _ Hacc), run_bind.
  rewrite (bool_decide_true _ Hdata), (not_reject_when_approve _ Hdata).
  unfold approve_branch.
  fold (approved_state (voter_profile (query_from query)) st).
  set (st1 := approved_state _ st). exec. ask o Hok. exec.
  rewrite lookup_set_ticket. cbn [from_option id]. ask o Hok. exec.
  rewrite lookup_set_ticket. cbn [from_option id].
  fold (quorum cfg st1). destruct (quorum cfg st1) eqn:Hq; exec.
  - rewrite run_bind.
    match goal with
    | |- context [run (finalize _ _ _ _) _ ?s' ?l'] =>
      destruct (finalize_ok cfg (set_resolved st1) (chat_id m) (message_id m)
                  o s' l' Hok (lookup_set_ticket _ _ _))
        as (d & d' & pre & -> & _)
    end.
    exec. eexists (set_resolved st1), _, _. split; [reflexivity|].
    split; [apply lookup_set_ticket|]. split; [done|].
    change (quorum cfg (set_resolved st1)) with (quorum cfg st1).
    by rewrite Hq.
  - eexists st1, _, _. split; [reflexivity|].
    split; [apply lookup_set_ticket|]. split; [done|].
    rewrite Hq. by destruct Hacc.
Qed.

(** C2. Once a request is resolved, and likewise when no request is
    registered under the handle, every vote on it is dropped: the handler
    returns without a call and leaves both maps as they are, so
    [approvals], [voters] and [rejected] do not change and [resolved]
    stays true, whoever votes and whatever the vote. *)
Theorem resolved_request_ignores_votes canon cfg msgId queries o s log :
  closed s msgId = true →
  forallb (refers_to msgId) queries = true →
  run_events canon cfg (Vote <$> queries) o s log = (s, log)
  ∧ Forall (λ q, run (on_callback_query cfg q) o s log = (inl tt, s, log))
      queries.
Proof.
  intros Hs Hq. split; [by eapply stale_votes|].
  apply Forall_forall. intros q Hin. apply (stale_vote cfg q msgId); [done|].
  rewrite forallb_forall in Hq. apply Hq. by apply list_elem_of_In.
Qed.

(** C3. A reject vote that passes the guards sets [resolved] and
    [rejected] before the handler first gives control back, whatever the
    bot then answers, and every later vote on the request, approvals
    included, returns without a call and changes nothing. *)
Theorem reject_closes_request canon cfg s query m st :
  accepted cfg s query m st →
  data query = Some (lit "reject") →
  let st' := rejected_state (query_from query) st in
  resolved st' = true ∧ rejected st' = true
  ∧ ticketsState (first_segment (on_callback_query cfg query) s)
      !! message_id m = Some st'
  ∧ ∀ o log,
      let '(_, s', log') := run (on_callback_query cfg query) o s log in
      ticketsState s' !! message_id m = Some st'
      ∧ ∀ queries o',
          forallb (refers_to (message_id m)) queries = true →
          run_events canon cfg (Vote <$> queries) o' s' log' = (s', log').
Proof.
  intros Hacc Hdata st'. split; [done|]. split; [done|].
  pose proof (not_approve_when_reject _ Hdata) as Hna.
  split.
  { rewrite (accepted_first_segment _ _ _ _ _ Hacc), Hna.
    rewrite bool_decide_true by done. unfold reject_branch. exec.
    apply lookup_set_ticket. }
  intros o log. rewrite (accepted_vote _ _ _ _ _ _ _ Hacc), Hna.
  rewrite bool_decide_true by done. unfold reject_branch. exec.
  assert (Hlater : ∀ s' log', ticketsState s' !! message_id m = Some st' →
    ticketsState s' !! message_id m = Some st'
    ∧ ∀ queries o',
        forallb (refers_to (message_id m)) queries = true →
        run_events canon cfg (Vote <$> queries) o' s' log' = (s', log')).
  { intros s' log' Hs'. split; [done|]. intros queries o' Hq.
    apply stale_votes with (msgId := message_id m); [|done].
    by apply (closed_lookup _ _ st'). }
  destruct (o _ _) as [[]|e1]; exec; [|by apply Hlater, lookup_set_ticket].
  destruct (o _ _) as [prompt|e2]; exec; [|by apply Hlater, lookup_set_ticket].
  destruct (o _ _) as [[]|e3]; exec; by apply Hlater, lookup_set_ticket.
Qed.

(** Two approvals handled one after the other.  With [REQUIRED = 2], a
    fresh request and approve votes of two distinct authorized voters A
    then B, B's vote delivered after the handler of A's has ended, in an
    environment that does not
    raise: A's vote records the approval, shows the progress 1/2 and
    leaves the request unresolved; B's vote resolves it and appends one
    row, to the sheet named after the year and month the clock shows when
    the quorum block starts, with the status label and with both approvers
    in vote order.  And for any votes on one request handled one
    after the other, in any environment, at most one row is appended, and
    one is appended only with the request resolved at quorum. *)
Theorem two_approvals_finalize_once canon cfg s qa qb m ticket_data c0 o log :
  REQUIRED cfg = 2 →
  ticketsState s !! message_id m = Some (new_ticket c0 ticket_data) →
  query_message qa = Some m → query_message qb = Some m →
  (message_id m =? 0) = false → (chat_id m =? 0) = false →
  authorized cfg (query_from qa) = true →
  authorized cfg (query_from qb) = true →
  uid (query_from qa) ≠ uid (query_from qb) →
  data qa = Some (lit "approve") → data qb = Some (lit "approve") →
  never_raises o →
  let a := voter_profile (query_from qa) in
  let b := voter_profile (query_from qb) in
  let st1 := approved_state a (new_ticket c0 ticket_data) in
  let st2 := set_resolved (approved_state b st1) in
  let s1 := set_ticket (message_id m) st1 s in
  let log1 := acknowledged cfg qa (chat_id m) (message_id m) st1 ++ log in
  let log2 :=
    acknowledged cfg qb (chat_id m) (message_id m) (approved_state b st1)
    ++ log1 in
  (run (on_callback_query cfg qa) o s log = (inl tt, s1, log1)
   ∧ ticketsState s1 !! message_id m = Some st1
   ∧ resolved st1 = false
   ∧ progress_text cfg st1 = lit "1/2"
   ∧ ∃ s2 d post pre,
       run (on_callback_query cfg qb) o s1 log1
       = (inl tt, s2,
          post
          ++ (addRow (month_title (o log2 newDate))
                (approved_row st2 (ru_RU d)), None) :: pre ++ log2)
       ∧ no_append post ∧ no_append pre
       ∧ ticketsState s2 !! message_id m = Some st2
       ∧ resolved st2 = true
       ∧ values (approvals st2) = [a; b]
       ∧ (lit "Кто подтвердил",
          join (lit ", ") [or_else (p_username a) (p_name a);
                           or_else (p_username b) (p_name b)])
         ∈ approved_row st2 (ru_RU d)
       ∧ (lit "Статус согласования", lit "Одобрено")
         ∈ approved_row st2 (ru_RU d))
  ∧ ∀ msgId queries o' s' log',
      forallb (refers_to msgId) queries = true →
      ∃ s'' new,
        run_events canon cfg (Vote <$> queries) o' s' log' = (s'', new ++ log')
        ∧ (appends new <= 1)%nat
        ∧ (appends new = 1%nat →
           ∃ st', ticketsState s'' !! msgId = Some st'
                  ∧ resolved st' = true ∧ quorum cfg st' = true).
Proof.
  intros Hreq Hst Hma Hmb Hid Hchat Haa Hab Hne Hda Hdb Hok.
  intros a b st1 st2 s1 log1 log2.
  split; [|intros; by apply votes_run].
  assert (Hacc1 : accepted cfg s qa m (new_ticket c0 ticket_data)).
  { constructor; try done. }
  assert (Hrun1 : run (on_callback_query cfg qa) o s log = (inl tt, s1, log1)).
  { rewrite (accepted_vote _ _ _ _ _ _ _ Hacc1), run_bind.
    rewrite (bool_decide_true _ Hda), (not_reject_when_approve _ Hda).
    unfold approve_branch. fold a. fold (approved_state a (new_ticket c0 ticket_data)).
    fold st1. exec. ask o Hok. exec.
    rewrite lookup_set_ticket. cbn [from_option id]. ask o Hok. exec.
    rewrite lookup_set_ticket. cbn [from_option id].
    rewrite Hreq. reflexivity. }
  split; [exact Hrun1|]. split; [apply lookup_set_ticket|]. split; [done|].
  split. { unfold progress_text. rewrite Hreq. reflexivity. }
  assert (Hacc2 : accepted cfg s1 qb m st1).
  { constructor; try done; [apply lookup_set_ticket|].
    apply bool_decide_eq_false_2.
    cbn [st1 approved_state voters set_approval add_vote new_ticket].
    rewrite elem_of_union, elem_of_singleton, elem_of_empty.
    intros [H|[]]. by apply Hne. }
  rewrite (accepted_vote _ _ _ _ _ _ _ Hacc2), run_bind.
  rewrite (bool_decide_true _ Hdb), (not_reject_when_approve _ Hdb).
  unfold approve_branch. fold b. fold (approved_state b st1).
  exec. ask o Hok. exec.
  rewrite lookup_set_ticket. cbn [from_option id]. ask o Hok. exec.
  rewrite lookup_set_ticket. cbn [from_option id].
  assert (Happ : approvals (approved_state b st1) = [(p_id a, a); (p_id b, b)]).
  { unfold approved_state, st1, approved_state.
    cbn [approvals set_approval add_vote new_ticket map_set].
    replace (p_id a =? p_id b) with false; [done|].
    symmetry. by apply Z.eqb_neq. }
  rewrite Happ, Hreq. cbn [length].
  replace (2 <=? Z.of_nat 2) with true by reflexivity.
  exec. rewrite run_bind. fold st2.
  match goal with
  | |- context [run (finalize _ _ _ _) _ ?s' ?l'] =>
    destruct (finalize_ok cfg st2 (chat_id m) (message_id m) o s' l' Hok
                (lookup_set_ticket _ _ _))
      as (d & d' & pre & -> & Hpre)
  end.
  exec. eexists _, d, [_; _], pre. split; [reflexivity|].
  split; [auto with trace|]. split; [done|].
  split; [apply lookup_set_ticket|]. split; [done|].
  assert (Hvals : values (approvals st2) = [a; b]).
  { change (approvals st2) with (approvals (approved_state b st1)).
    by rewrite Happ. }
  split; [done|]. unfold approved_row. rewrite Hvals. cbn [fmap list_fmap].
  split.
  - do 6 apply list_elem_of_further. apply list_elem_of_here.
  - do 5 apply list_elem_of_further. apply list_elem_of_here.
Qed.

(** C5. When the append of an accepted approve vote raises, the two maps
    are as the handler left them on reaching quorum, with the request
    resolved; the append is the only one of the run and is followed by the
    console line and by the error message sent to the chat, after which
    the handler returns normally if that message was sent; and no later
    vote on the request, timer or inbound message appends a row. *)
Theorem append_failure_is_reported canon cfg s query m st o log r s' new
    sheet row e :
  accepted cfg s query m st →
  data query = Some (lit "approve") →
  run (on_callback_query cfg query) o s log = (r, s', new ++ log) →
  (addRow sheet row, Some e) ∈ new →
  let st1 := approved_state (voter_profile (query_from query)) st in
  let st' := set_resolved st1 in
  s' = set_ticket (message_id m) st' (set_ticket (message_id m) st1 s)
  ∧ ticketsState s' !! message_id m = Some st'
  ∧ resolved st' = true
  ∧ (∃ sent pre,
       new = reported (chat_id m) e sent ++ (addRow sheet row, Some e) :: pre
       ∧ no_append pre
       ∧ r = result_of sent)
  ∧ appends new = 1%nat
  ∧ ∀ evs o',
      forallb (may_retry (message_id m)) evs = true →
      ∃ s'' new',
        run_events canon cfg evs o' s' (new ++ log) = (s'', new' ++ new ++ log)
        ∧ no_append new'.
Proof.
  intros Hacc Hdata Hrun Hin st1 st'.
  rewrite (accepted_vote _ _ _ _ _ _ _ Hacc), run_bind in Hrun.
  rewrite (bool_decide_true _ Hdata), (not_reject_when_approve _ Hdata) in Hrun.
  pose proof (approve_branch_run cfg query (chat_id m) (message_id m)
                (voter_profile (query_from query)) st o s log) as Hout.
  fold st1 in Hout.
  destruct Hout as [e0|e0|Hq|r0 new0 Hq Hfin].
  - injection Hrun as _ _ Hnew.
    apply (app_inv_tail log [_] new) in Hnew. subst new.
    apply list_elem_of_singleton in Hin. discriminate Hin.
  - injection Hrun as _ _ Hnew.
    apply (app_inv_tail log [_; _] new) in Hnew. subst new.
    apply elem_of_cons in Hin as [Hin|Hin]; [discriminate Hin|].
    apply list_elem_of_singleton in Hin. discriminate Hin.
  - exec_in Hrun. apply (f_equal snd) in Hrun. cbn [snd] in Hrun.
    apply app_inv_tail in Hrun. subst new.
    by apply no_append_not_in in Hin; auto with trace.
  - assert (Hnew : new = new0 ++ acknowledged cfg query (chat_id m)
                                  (message_id m) st1).
    { destruct r0; exec_in Hrun; apply (f_equal snd) in Hrun;
        cbn [snd] in Hrun; rewrite app_assoc in Hrun;
        by apply app_inv_tail in Hrun. }
    assert (Hrs : r = r0 ∧ s' = set_ticket (message_id m) st'
                                   (set_ticket (message_id m) st1 s)).
    { destruct r0 as [[]|?]; exec_in Hrun; by injection Hrun as <- <- _. }
    destruct Hrs as [-> ->]. subst new.
    apply elem_of_app in Hin as [Hin|Hin].
    2: { by apply no_append_not_in in Hin; auto with trace. }
    destruct Hfin as [e0 sent pre Hpre|e0 sent d pre Hpre|r0 d post pre Hpre Hpost].
    + by apply no_append_not_in in Hin; auto with trace.
    + apply elem_of_app in Hin as [Hin|Hin].
      { by apply no_append_not_in in Hin; auto with trace. }
      apply elem_of_cons in Hin as [Hin|Hin].
      2: { by apply no_append_not_in in Hin. }
      injection Hin as -> -> ->.
      split; [done|]. split; [apply lookup_set_ticket|]. split; [done|].
      split.
      { eexists sent, (pre ++ acknowledged _ _ _ _ _).
        rewrite <-app_assoc. split; [done|]. split; [auto with trace|done]. }
      split.
      { rewrite !appends_app, appends_cons_append.
        rewrite !no_append_appends by auto with trace. done. }
      intros evs o' Hevs.
      match goal with
      | |- context [run_events _ _ _ _ ?s0 ?l0] =>
        destruct (no_retry canon cfg (message_id m) evs o' s0 l0
                    (closed_lookup _ _ st' (lookup_set_ticket _ _ _) eq_refl)
                    Hevs)
          as (s'' & new' & Hrun' & Hnew' & _)
      end.
      exists s'', new'. split; [exact Hrun'|done].
    + apply elem_of_app in Hin as [Hin|Hin].
      { by apply no_append_not_in in Hin. }
      apply elem_of_cons in Hin as [Hin|Hin]; [discriminate Hin|].
      by apply no_append_not_in in Hin.
Qed.

(** ** The allow-list *)

Lemma empty_not_approver cfg : [] ∉ APPROVER_SET cfg.
Proof.
  unfold APPROVER_SET, APPROVER_LIST. rewrite elem_of_list_to_set.
  rewrite list_elem_of_In, filter_In. by intros [_ ?].
Qed.

Lemma allow_list_size cfg :
  APPROVER_LIST cfg ≠ [] → size (APPROVER_SET cfg) ≠ 0%nat.
Proof.
  unfold APPROVER_SET. destruct (APPROVER_LIST cfg) as [|u us]; [done|].
  intros _ Hsize. apply size_empty_iff in Hsize.
  assert (u ∈ (list_to_set (u :: us) : gset jsstring)) as Hu.
  { apply elem_of_list_to_set, list_elem_of_here. }
  rewrite Hsize in Hu. by apply elem_of_empty in Hu.
Qed.

(** C9. With a non-empty allow-list, a vote on a registered unresolved
    request by a user without a username is answered with the alert that
    the voter has no rights and changes nothing: the username is taken as
    the empty string, which the allow-list never contains.  This holds
    whether or not the voter's id is among [voters]. *)
Theorem voter_without_username_cannot_vote cfg query m st o s log :
  APPROVER_LIST cfg ≠ [] →
  query_message query = Some m →
  (message_id m =? 0) = false → (chat_id m =? 0) = false →
  ticketsState s !! message_id m = Some st → resolved st = false →
  username (query_from query) = None →
  default [] (username (query_from query)) = []
  ∧ ([] ∉ APPROVER_SET cfg)
  ∧ authorized cfg (query_from query) = false
  ∧ ∃ sent,
      run (on_callback_query cfg query) o s log
      = (result_of sent, s,
         (answerCallbackQuery (query_id query)
            (lit "Нет прав на согласование") true, sent) :: log).
Proof.
  intros Hlist Hm Hid Hchat Hst Hopen Hname.
  pose proof (empty_not_approver cfg) as Hempty.
  pose proof (allow_list_size cfg Hlist) as Hsize.
  assert (Hauth : authorized cfg (query_from query) = false).
  { unfold authorized. rewrite Hname. cbn [default].
    by rewrite !bool_decide_false. }
  split; [by rewrite Hname|]. split; [done|]. split; [done|].
  unfold on_callback_query. rewrite Hm, Hid, Hchat. cbn [orb run].
  rewrite Hst, Hopen. unfold authorized in Hauth.
  rewrite <-negb_orb, Hauth. cbn [negb]. exec.
  destruct (o _ _) as [[]|e]; exec; [by exists None|by exists (Some e)].
Qed.

(** ** A quorum vote whose acknowledgement raises *)

(** An accepted approve vote whose acknowledgement raises: the approval
    is recorded, and [resolved] is left as it was, whether or not the
    approvals have reached [REQUIRED]. *)
Lemma raised_acknowledgement_leaves_request_open cfg s query m st
    (o : Oracle) log (e : exn) :
  accepted cfg s query m st →
  data query = Some (lit "approve") →
  o log (answerCallbackQuery (query_id query) (lit "Одобрение учтено") false)
  = inr e :> unit + exn →
  let st1 := approved_state (voter_profile (query_from query)) st in
  run (on_callback_query cfg query) o s log
  = (inr e, set_ticket (message_id m) st1 s,
     (answerCallbackQuery (query_id query) (lit "Одобрение учтено") false,
      Some e) :: log)
  ∧ resolved st1 = false.
Proof.
  intros Hacc Hdata Ho st1. split; [|by destruct Hacc].
  rewrite (accepted_vote _ _ _ _ _ _ _ Hacc), run_bind.
  rewrite (bool_decide_true _ Hdata), (not_reject_when_approve _ Hdata).
  unfold approve_branch. exec. by rewrite Ho.
Qed.

(** C1. With [REQUIRED = 1], the approve vote of Ann on the fresh request
    makes the approvals reach [REQUIRED]; when the acknowledgement
    [answerCallbackQuery] raises, the handler stops there and the request
    stays unresolved with the quorum met and nothing appended.  The
    approve vote of Bob that follows is then accepted, and it is that vote,
    with two approvals, that resolves the request and appends the row. *)
Theorem quorum_vote_can_leave_request_open :
  let cfg := Sample.cfg_default in
  let o := Sample.answer_fails_once in
  let '(r1, s1, log1) :=
    run (on_callback_query cfg (Sample.vote Sample.ann "approve")) o
      Sample.registered [] in
  let '(r2, s2, log2) :=
    run (on_callback_query cfg (Sample.vote Sample.bob "approve")) o s1 log1
  in
  r1 = inr Sample.timeout_error
  ∧ (∃ st1, ticketsState s1 !! 100 = Some st1
            ∧ length (approvals st1) = 1%nat
            ∧ quorum cfg st1 = true
            ∧ resolved st1 = false)
  ∧ appends log1 = 0%nat
  ∧ r2 = inl tt
  ∧ (∃ st2, ticketsState s2 !! 100 = Some st2
            ∧ length (approvals st2) = 2%nat
            ∧ resolved st2 = true)
  ∧ appends log2 = 1%nat.
Proof.
  vm_compute. split; [done|]. split; [eexists; done|]. split; [done|].
  split; [done|]. split; [eexists; done|]. done.
Qed.

(** ** The rejection handshake *)

Lemma pending_key_eq c v msg sender :
  from msg = Some sender →
  pending_key (chat_id msg) (uid sender) = pending_key c v
  ↔ chat_id msg = c ∧ uid <$> from msg = Some v.
Proof.
  intros ->. cbn. split.
  - by intros [-> ->]%pending_key_inj.
  - by intros [-> [= ->]].
Qed.

(** The card of a rejection with its comment. *)
Lemma finalizing_reply_edits_card msg sender wait st o s log :
  from msg = Some sender →
  pendingComments s !! pending_key (chat_id msg) (uid sender) = Some wait →
  reply_to_message msg = Some (promptMsgId wait) →
  ticketsState s !! ticketMsgId wait = Some st →
  ∃ x rest,
    (run (on_message msg) o s log).2
    = rest
      ++ (editMessageText
            (lit "❌ Тикет " ++ ticket (payload st) ++ lit " отклонён."
             ++ [10%N] ++ lit "<b>Комментарий:</b> "
             ++ or_else (trim (default [] (text msg))) (lit "—")
             ++ [10%N] ++ lit "<b>От:</b> " ++ mentionByProfile sender)
            (chat_id msg) (ticketMsgId wait), x) :: log.
Proof.
  intros Hfrom Hwait Hreply Hst. unfold on_message. rewrite Hfrom. exec.
  rewrite Hwait. rewrite (bool_decide_true _ Hreply). cbn [negb]. exec.
  rewrite Hst. exec.
  destruct (o _ (editMessageText _ _ _)) as [[]|e]; exec.
  2: { by eexists _, []. }
  destruct (o _ (deleteMessage _ _)) as [[]|e]; exec.
  all: destruct (o _ (deleteMessage _ _)) as [[]|e']; exec.
  all: by eexists _, [_; _].
Qed.

(** C6. With a correlation [w] stored under the key of the chat [c] and
    the voter [v], for a registered request, an inbound message removes
    that entry exactly when it comes from [v] in [c] and responds to the
    stored prompt.  It then records the text of the reply, trimmed, as
    the rejection comment of the request and changes nothing else: the
    other fields of the request, the other requests and the other
    correlations are as before; and the first call it makes edits the
    card of the request to show that comment, or a dash when it is empty,
    and the sender.  Any other message leaves the entry in place, and is
    dropped without a call or a change when it is from the same voter in
    the same chat or from a sender without a correlation in the chat. *)
Theorem reply_finalizes_iff_correlated c v w st msg o s log :
  pendingComments s !! pending_key c v = Some w →
  ticketsState s !! ticketMsgId w = Some st →
  let '(r, s', log') := run (on_message msg) o s log in
  (pendingComments s' !! pending_key c v = None ↔ correlated c v w msg = true)
  ∧ (correlated c v w msg = true →
     s' = finalized (pending_key c v) w st msg s
     ∧ ticketsState s' !! ticketMsgId w
       = Some (set_rejectComment (trim (default [] (text msg))) st)
     ∧ (∃ st',
          ticketsState s' !! ticketMsgId w = Some st'
          ∧ rejectComment st' = Some (trim (default [] (text msg)))
          ∧ chatId st' = chatId st ∧ payload st' = payload st
          ∧ approvals st' = approvals st ∧ voters st' = voters st
          ∧ resolved st' = resolved st ∧ rejected st' = rejected st)
     ∧ (∀ t, t ≠ ticketMsgId w → ticketsState s' !! t = ticketsState s !! t)
     ∧ (∀ k, k ≠ pending_key c v →
             pendingComments s' !! k = pendingComments s !! k)
     ∧ ∃ sender x rest,
         from msg = Some sender
         ∧ log'
           = rest
             ++ (editMessageText
                   (lit "❌ Тикет " ++ ticket (payload st) ++ lit " отклонён."
                    ++ [10%N] ++ lit "<b>Комментарий:</b> "
                    ++ or_else (trim (default [] (text msg))) (lit "—")
                    ++ [10%N] ++ lit "<b>От:</b> " ++ mentionByProfile sender)
                   c (ticketMsgId w), x) :: log)
  ∧ (correlated c v w msg = false →
     pendingComments s' !! pending_key c v = Some w
     ∧ (chat_id msg = c → uid <$> from msg = Some v →
        (r, s', log') = (inl tt, s, log))
     ∧ (∀ sender, from msg = Some sender →
        pendingComments s !! pending_key (chat_id msg) (uid sender) = None →
        (r, s', log') = (inl tt, s, log))).
Proof.
  intros Hw Hst.
  destruct (on_message_run msg o s log) as (r & new & Hrun & _).
  rewrite Hrun. pose proof (f_equal snd Hrun) as Hsnd. cbn [snd] in Hsnd.
  unfold correlated.
  destruct (from msg) as [sender|] eqn:Hfrom.
  2: { unfold on_message. rewrite Hfrom. cbn [first_segment fmap option_fmap option_map].
       rewrite (bool_decide_false (None = Some v)) by done.
       rewrite andb_false_r. cbn [andb]. rewrite Hw.
       split; [done|]. split; [done|]. intros _. split; [done|].
       split; [done|]. done. }
  destruct (decide (pending_key (chat_id msg) (uid sender) = pending_key c v))
    as [Hkey|Hkey].
  - pose proof Hkey as [Hc Hv]%(pending_key_eq c v msg sender Hfrom).
    rewrite (bool_decide_true _ Hc). rewrite Hfrom in Hv.
    rewrite (bool_decide_true _ Hv). cbn [andb].
    revert Hrun. unfold on_message. rewrite Hfrom, Hkey. exec. rewrite Hw.
    destruct (bool_decide (reply_to_message msg = _)) eqn:Hreply;
      cbn [negb]; exec.
    + rewrite Hst. exec. intros Hrun.
      split. { cbn. by rewrite lookup_delete_eq. }
      split; [|done]. intros _. split; [done|].
      assert (Hnew : ticketsState
                (delete_pending (pending_key c v)
                   (set_ticket (ticketMsgId w)
                      (set_rejectComment (trim (default [] (text msg))) st) s))
                !! ticketMsgId w
              = Some (set_rejectComment (trim (default [] (text msg))) st)).
      { cbn. by rewrite lookup_insert_eq. }
      split; [exact Hnew|].
      split. { eexists. split; [exact Hnew|]. done. }
      split. { intros t Ht. cbn. by rewrite lookup_insert_ne. }
      split. { intros k Hk. cbn. by rewrite lookup_delete_ne. }
      apply bool_decide_eq_true_1 in Hreply.
      rewrite <-Hkey in Hw.
      destruct (finalizing_reply_edits_card msg sender w st o s log
                  Hfrom Hw Hreply Hst) as (x & rest & Hlog).
      exists sender, x, rest. split; [done|]. by rewrite <-Hc, <-Hlog.
    + intros [= <- Hnew]. rewrite Hw. split; [done|]. split; [done|].
      intros _. split; [done|]. split; [|intros ? [= <-]; congruence].
      intros _ _. by rewrite <-Hnew.
  - assert (Hnot : bool_decide (chat_id msg = c)
                   && bool_decide (uid <$> Some sender = Some v) = false).
    { apply andb_false_iff.
      destruct (decide (chat_id msg = c)) as [Hc|Hc];
        [right|left; by apply bool_decide_eq_false_2].
      apply bool_decide_eq_false_2. intros Hv. apply Hkey.
      apply (pending_key_eq c v msg sender Hfrom). by rewrite Hfrom. }
    rewrite Hnot. cbn [andb].
    assert (Hkeep : pendingComments (first_segment (on_message msg) s)
                      !! pending_key c v = Some w).
    { unfold on_message. rewrite Hfrom. cbn [first_segment].
      destruct (pendingComments s !! pending_key (chat_id msg) (uid sender))
        as [wait|]; [|done].
      destruct (negb _); [done|].
      destruct (ticketsState s !! ticketMsgId wait); cbn [first_segment];
        cbn; by rewrite lookup_delete_ne. }
    rewrite Hkeep. split; [done|]. split; [done|]. intros _.
    split; [done|]. split.
    { intros Hc Hv. exfalso. apply Hkey.
      apply (pending_key_eq c v msg sender Hfrom). by rewrite Hfrom. }
    intros sender' [= <-] Hnone. revert Hrun. unfold on_message.
    rewrite Hfrom. exec. rewrite Hnone. exec. intros [= <- Hnew].
    by rewrite <-Hnew.
Qed.

(** C10. A voter with a correlation [w1] for a first, resolved request
    rejects a second request of the same chat.  When the prompt of the
    second rejection is sent, its correlation replaces [w1] under the
    voter's key, the map keeping its size.  From then on no correlation
    refers to the first request and, whatever is received, the first
    request stays as it was, its rejection comment included, as long as
    its message id is not given to a new message.  When nothing raises
    the prompt is sent. *)
Theorem second_reject_overwrites_correlation canon cfg s query m st w1 st1 :
  let key := pending_key (chat_id m) (uid (query_from query)) in
  accepted cfg s query m st →
  data query = Some (lit "reject") →
  pendingComments s !! key = Some w1 →
  ticketsState s !! ticketMsgId w1 = Some st1 →
  resolved st1 = true →
  map_Forall (λ k w, ticketMsgId w = ticketMsgId w1 → k = key)
    (pendingComments s) →
  ∀ o log,
    let '(_, s', log') := run (on_callback_query cfg query) o s log in
    (∀ prompt2,
       pendingComments s' !! key
       = Some {| promptMsgId := prompt2; ticketMsgId := message_id m |} →
       pendingComments s'
       = <[key := {| promptMsgId := prompt2; ticketMsgId := message_id m |}]>
           (pendingComments s)
       ∧ size (pendingComments s') = size (pendingComments s)
       ∧ unreferenced s' (ticketMsgId w1)
       ∧ ∀ evs o',
           never_reuses o' (ticketMsgId w1) →
           ticketsState (run_events canon cfg evs o' s' log').1
             !! ticketMsgId w1 = Some st1
           ∧ unreferenced (run_events canon cfg evs o' s' log').1
               (ticketMsgId w1))
    ∧ (never_raises o →
       ∃ prompt2,
         pendingComments s' !! key
         = Some {| promptMsgId := prompt2; ticketMsgId := message_id m |}).
Proof.
  intros key Hacc Hdata Hw1 Hst1 Hres Honly o log.
  assert (Hne : message_id m ≠ ticketMsgId w1).
  { intros Heq. destruct Hacc as [_ _ _ Hst Hopen _ _].
    rewrite Heq, Hst1 in Hst. injection Hst as ->. congruence. }
  assert (Hw1' : ∀ p, w1 ≠ {| promptMsgId := p; ticketMsgId := message_id m |}).
  { intros p ->. by apply Hne. }
  rewrite (accepted_vote _ _ _ _ _ _ _ Hacc), run_bind.
  rewrite (not_approve_when_reject _ Hdata), (bool_decide_true _ Hdata).
  exec. unfold reject_branch. exec. fold key.
  set (s1 := set_ticket (message_id m) _ s).
  assert (Hunsent : ∀ log',
    (∀ prompt2,
       pendingComments s1 !! key
       = Some {| promptMsgId := prompt2; ticketMsgId := message_id m |} →
       pendingComments s1
       = <[key := {| promptMsgId := prompt2; ticketMsgId := message_id m |}]>
           (pendingComments s)
       ∧ size (pendingComments s1) = size (pendingComments s)
       ∧ unreferenced s1 (ticketMsgId w1)
       ∧ ∀ evs o',
           never_reuses o' (ticketMsgId w1) →
           ticketsState (run_events canon cfg evs o' s1 log').1
             !! ticketMsgId w1 = Some st1
           ∧ unreferenced (run_events canon cfg evs o' s1 log').1
               (ticketMsgId w1))).
  { intros log' p. change (pendingComments s1) with (pendingComments s).
    rewrite Hw1. intros [= H]. by apply Hw1' in H. }
  assert (Hsent : ∀ prompt log',
    let s2 := set_pending key
                {| promptMsgId := prompt; ticketMsgId := message_id m |} s1 in
    (∀ prompt2,
       pendingComments s2 !! key
       = Some {| promptMsgId := prompt2; ticketMsgId := message_id m |} →
       pendingComments s2
       = <[key := {| promptMsgId := prompt2; ticketMsgId := message_id m |}]>
           (pendingComments s)
       ∧ size (pendingComments s2) = size (pendingComments s)
       ∧ unreferenced s2 (ticketMsgId w1)
       ∧ ∀ evs o',
           never_reuses o' (ticketMsgId w1) →
           ticketsState (run_events canon cfg evs o' s2 log').1
             !! ticketMsgId w1 = Some st1
           ∧ unreferenced (run_events canon cfg evs o' s2 log').1
               (ticketMsgId w1))
    ∧ ∃ prompt2,
        pendingComments s2 !! key
        = Some {| promptMsgId := prompt2; ticketMsgId := message_id m |}).
  { intros prompt log' s2.
    assert (Hlook : pendingComments s2 !! key
              = Some {| promptMsgId := prompt; ticketMsgId := message_id m |})
      by apply lookup_insert_eq.
    split; [|by exists prompt].
    intros p2. rewrite Hlook. intros [= <-].
    assert (Hun : unreferenced s2 (ticketMsgId w1)).
    { intros k w. unfold s2, set_pending. cbn [pendingComments].
      rewrite lookup_insert_Some.
      intros [[_ <-]|[Hk Hkw]]; [done|].
      intros Heq. by apply Hk, eq_sym, (Honly k w). }
    split; [done|]. split; [by apply map_size_insert_Some|].
    split; [done|]. intros evs o' Ho'.
    apply lost_request; try done.
    cbn. by rewrite lookup_insert_ne. }
  destruct (o _ (answerCallbackQuery _ _ _)) as [[]|e] eqn:Ho1; exec.
  2: { split; [apply Hunsent|]. intros Hok.
       specialize (Hok log (answerCallbackQuery (query_id query)
                              (lit "Укажите причину отказа") false)).
       rewrite Ho1 in Hok. discriminate Hok. }
  destruct (o _ (sendMessage _ _ _)) as [prompt|e] eqn:Ho2; exec.
  2: { split; [apply Hunsent|]. intros Hok.
       match type of Ho2 with
       | o ?l ?c = _ => specialize (Hok l c); rewrite Ho2 in Hok
       end.
       discriminate Hok. }
  fold key.
  destruct (o _ (editMessageText _ _ _)) as [[]|e]; exec.
  - destruct (Hsent prompt
      ((editMessageText
          (lit "❌ Тикет "
           ++ ticket (payload (rejected_state (query_from query) st))
           ++ lit " отклонён. Ожидаю комментарий от "
           ++ mentionByProfile (query_from query) ++ lit ".")
          (chat_id m) (message_id m), None)
       :: (sendMessage (chat_id m)
             (lit "❌ " ++ mentionByProfile (query_from query)
              ++ lit ", ответьте на это сообщение комментарием (почему отклонено тикет "
              ++ ticket (payload (rejected_state (query_from query) st))
              ++ lit ").")
             {| parse_mode := Some (lit "HTML");
                reply_markup := Some force_reply |}, None)
       :: (answerCallbackQuery (query_id query)
             (lit "Укажите причину отказа") false, None) :: log))
      as [H1 H2].
    split; [exact H1|by intros _].
  - match goal with
    | |- context [run_events _ _ _ _ _ ?l] =>
      destruct (Hsent prompt l) as [H1 H2]
    end.
    split; [exact H1|by intros _].
Qed.

(** ** Submissions and reminders *)

(** Submissions that are refused.  When the label of one of the three
    mandatory fields is absent from the text of
    a submission or is followed by white space only up to the end of the
    text, [parsePayload] returns nothing, the
    handler sends the expected format to the chat and does nothing else:
    the registry is unchanged and no timer is set. *)
Theorem malformed_submission_creates_nothing canon cfg msg match1 o s log :
  let text := trim (default [] match1) in
  lacks_field canon (lit "Тикет") text
  || lacks_field canon (lit "Нарушение") text
  || lacks_field canon (lit "Причина") text = true →
  parsePayload canon text = None
  ∧ ∃ sent,
      run (on_annul canon cfg msg match1) o s log
      = (result_of sent, s,
         (sendMessage (chat_id msg) format_help no_options, sent) :: log).
Proof.
  intros text H. pose proof (parsePayload_lacking canon text H) as Hnone.
  split; [done|]. unfold on_annul. fold text. rewrite Hnone. exec.
  destruct (o _ _) as [sent|e]; exec; [by exists None|by exists (Some e)].
Qed.




(** ** Approvals that overlap *)

(** C4. With [REQUIRED = 2], the fresh request of the card and the
    approve votes of Ann and Bob, in an environment in which the sheet of
    the month exists and nothing raises.  When Ann's vote is handled to
    its end before Bob's is delivered, the card shows 1/2 and then 2/2,
    and one row is appended, to the sheet 2026-11, with the status label
    and both approvers in vote order.  When the two votes are delivered
    together, each handler records its approval before its first [await],
    so each finds two approvals after it: the card never shows 1/2, both
    handlers pass the quorum test, and the same row is appended twice. *)
Theorem overlapping_approvals_append_twice :
  let cfg := Sample.cfg_two in
  let row :=
    [(lit "Тикет", lit "12"); (lit "Тип нарушения", lit "late");
     (lit "Основание для аннулирования", lit "agreed"); (lit "Сумма", lit "50");
     (lit "Оператор", []); (lit "Статус согласования", lit "Одобрено");
     (lit "Кто подтвердил", lit "ann, bob");
     (lit "Дата внесения", lit "02.11.2026, 21:31:00")] in
  let card progress approved :=
    lit "<b>🧾 Аннулирование штрафа</b>" ++ [10%N]
    ++ lit "<b>Тикет:</b> 12" ++ [10%N]
    ++ lit "<b>Тип нарушения:</b> late" ++ [10%N]
    ++ lit "<b>Основание:</b> agreed" ++ [10%N]
    ++ lit "<b>Сумма:</b> 50" ++ [10%N]
    ++ lit "<b>Статус:</b> " ++ lit progress ++ [10%N]
    ++ lit "Утверждающие: @ann, @bob" ++ [10%N]
    ++ lit "<b>Одобрили:</b> " ++ lit approved in
  let final :=
    lit "✅ Тикет 12 согласован (@ann, @bob). Записано в лист «2026-11»." in
  let '(pool1, s1, log1) :=
    overlap Sample.upper cfg (one_by_one 12 Faults.two_votes) Faults.steady []
      Sample.registered [] in
  let '(pool2, s2, log2) :=
    overlap Sample.upper cfg (together 12 Faults.two_votes) Faults.steady []
      Sample.registered [] in
  (pool1 = []
   ∧ (s1, log1)
     = run_events Sample.upper cfg Faults.two_votes Faults.steady
         Sample.registered []
   ∧ card_texts log1 = [final; card "2/2" "@ann, @bob"; card "1/2" "@ann"]
   ∧ appended_rows log1 = [(lit "2026-11", row)]
   ∧ appends log1 = 1%nat)
  ∧ (pool2 = []
     ∧ s2 = s1
     ∧ (resolved <$> ticketsState s2 !! 100) = Some true
     ∧ card_texts log2
       = [final; final; card "2/2" "@ann, @bob"; card "2/2" "@ann, @bob"]
     ∧ appended_rows log2 = [(lit "2026-11", row); (lit "2026-11", row)]
     ∧ appends log2 = 2%nat).
Proof. vm_compute. repeat split; reflexivity. Qed.

(** ** A field left empty *)

(** C7. A submission with the ticket and the violation, whose reason is
    left empty and is followed by the line of the amount: the parser
    gives the line of the amount as the reason, the card is sent, and the
    request is registered with that reason; the expected format is not
    shown. *)
Theorem empty_reason_takes_the_next_line :
  let card :=
    lit "<b>🧾 Аннулирование штрафа</b>" ++ [10%N]
    ++ lit "<b>Тикет:</b> 12" ++ [10%N]
    ++ lit "<b>Тип нарушения:</b> late" ++ [10%N]
    ++ lit "<b>Основание:</b> Сумма: 50" ++ [10%N]
    ++ lit "<b>Сумма:</b> 50" ++ [10%N] ++ [10%N]
    ++ lit "Нужно одобрение: 1" in
  let '(r, s', log') :=
    run (on_annul Sample.upper Sample.cfg_default Faults.blank_reason_message
           (Some Faults.blank_reason))
      Sample.calm empty_store [] in
  parsePayload Sample.upper (trim Faults.blank_reason)
  = Some {| ticket := lit "12"; violation := lit "late";
            reason := lit "Сумма: 50"; amount := lit "50"; operator := [] |}
  ∧ r = inl tt
  ∧ (reason ∘ payload <$> ticketsState s' !! 200) = Some (lit "Сумма: 50")
  ∧ (resolved <$> ticketsState s' !! 200) = Some false
  ∧ log' = [(setTimeout (Reminder 200 Sample.chat) 7200000, None);
            (sendMessage Sample.chat card vote_buttons, None)].
Proof. vm_compute. repeat split; reflexivity. Qed.

(** ** The properties at the sample data *)

Lemma resolved_request_ignores_votes_witness :
  run_events Sample.upper Sample.cfg_two
    (Vote <$> [Sample.vote Sample.bob "approve";
               Sample.vote Sample.ann "reject"])
    Sample.calm Sample.rejected_store []
  = (Sample.rejected_store, []).
Proof.
  assert (H1 : closed Sample.rejected_store 100 = true)
    by (vm_compute; reflexivity).
  assert (H2 : forallb (refers_to 100)
                 [Sample.vote Sample.bob "approve";
                  Sample.vote Sample.ann "reject"] = true)
    by (vm_compute; reflexivity).
  exact (proj1 (resolved_request_ignores_votes Sample.upper Sample.cfg_two 100
                  _ Sample.calm Sample.rejected_store [] H1 H2)).
Defined.

Lemma reject_closes_request_witness :
  ticketsState
    (first_segment
       (on_callback_query Sample.cfg_two (Sample.vote Sample.ann "reject"))
       Sample.registered) !! 100
  = Some (rejected_state Sample.ann (new_ticket Sample.chat Sample.request)).
Proof.
  assert (H1 : accepted Sample.cfg_two Sample.registered
                 (Sample.vote Sample.ann "reject") Sample.card
                 (new_ticket Sample.chat Sample.request))
    by (constructor; vm_compute; reflexivity).
  assert (H2 : data (Sample.vote Sample.ann "reject") = Some (lit "reject"))
    by (vm_compute; reflexivity).
  exact (proj1 (proj2 (proj2
    (reject_closes_request Sample.upper Sample.cfg_two Sample.registered
       (Sample.vote Sample.ann "reject") Sample.card
       (new_ticket Sample.chat Sample.request) H1 H2)))).
Defined.

Lemma two_approvals_finalize_once_witness :
  progress_text Sample.cfg_two
    (approved_state (voter_profile Sample.ann)
       (new_ticket Sample.chat Sample.request))
  = lit "1/2".
Proof.
  assert (H1 : REQUIRED Sample.cfg_two = 2) by reflexivity.
  assert (H2 : ticketsState Sample.registered !! message_id Sample.card
               = Some (new_ticket Sample.chat Sample.request))
    by (vm_compute; reflexivity).
  assert (H3 : query_message (Sample.vote Sample.ann "approve")
               = Some Sample.card) by reflexivity.
  assert (H4 : query_message (Sample.vote Sample.bob "approve")
               = Some Sample.card) by reflexivity.
  assert (H5 : (message_id Sample.card =? 0) = false) by reflexivity.
  assert (H6 : (chat_id Sample.card =? 0) = false) by reflexivity.
  assert (H7 : authorized Sample.cfg_two
                 (query_from (Sample.vote Sample.ann "approve")) = true)
    by (vm_compute; reflexivity).
  assert (H8 : authorized Sample.cfg_two
                 (query_from (Sample.vote Sample.bob "approve")) = true)
    by (vm_compute; reflexivity).
  assert (H9 : uid (query_from (Sample.vote Sample.ann "approve"))
               ≠ uid (query_from (Sample.vote Sample.bob "approve")))
    by (vm_compute; discriminate).
  assert (H10 : data (Sample.vote Sample.ann "approve")
                = Some (lit "approve")) by (vm_compute; reflexivity).
  assert (H11 : data (Sample.vote Sample.bob "approve")
                = Some (lit "approve")) by (vm_compute; reflexivity).
  assert (H12 : never_raises Sample.calm)
    by (intros l c; destruct c; reflexivity).
  exact (proj1 (proj2 (proj2 (proj2 (proj1
    (two_approvals_finalize_once Sample.upper Sample.cfg_two Sample.registered
       (Sample.vote Sample.ann "approve") (Sample.vote Sample.bob "approve")
       Sample.card Sample.request Sample.chat Sample.calm []
       H1 H2 H3 H4 H5 H6 H7 H8 H9 H10 H11 H12)))))).
Defined.

Lemma append_failure_is_reported_witness :
  appends
    (run (on_callback_query Sample.cfg_default
            (Sample.vote Sample.ann "approve"))
       Sample.append_fails Sample.registered []).2
  = 1%nat.
Proof.
  set (x := run (on_callback_query Sample.cfg_default
                   (Sample.vote Sample.ann "approve"))
              Sample.append_fails Sample.registered []).
  assert (H1 : accepted Sample.cfg_default Sample.registered
                 (Sample.vote Sample.ann "approve") Sample.card
                 (new_ticket Sample.chat Sample.request))
    by (constructor; vm_compute; reflexivity).
  assert (H2 : data (Sample.vote Sample.ann "approve") = Some (lit "approve"))
    by (vm_compute; reflexivity).
  assert (H3 : x = (x.1.1, x.1.2, x.2 ++ []))
    by (vm_compute; reflexivity).
  assert (H4 : (addRow (lit "2026-11")
                  (approved_row
                     (set_resolved
                        (approved_state (voter_profile Sample.ann)
                           (new_ticket Sample.chat Sample.request)))
                     (ru_RU Sample.clock)),
                Some Sample.quota_error) ∈ x.2).
  { vm_compute. do 2 apply list_elem_of_further. apply list_elem_of_here. }
  exact (proj1 (proj2 (proj2 (proj2 (proj2
    (append_failure_is_reported Sample.upper Sample.cfg_default
       Sample.registered (Sample.vote Sample.ann "approve") Sample.card
       (new_ticket Sample.chat Sample.request) Sample.append_fails []
       x.1.1 x.1.2 x.2 _ _ _ H1 H2 H3 H4)))))).
Defined.

Lemma voter_without_username_cannot_vote_witness :
  authorized Sample.cfg_two Sample.carl = false.
Proof.
  assert (H1 : APPROVER_LIST Sample.cfg_two ≠ [])
    by (vm_compute; discriminate).
  assert (H2 : ticketsState Sample.registered !! message_id Sample.card
               = Some (new_ticket Sample.chat Sample.request))
    by (vm_compute; reflexivity).
  exact (proj1 (proj2 (proj2
    (voter_without_username_cannot_vote Sample.cfg_two
       (Sample.vote Sample.carl "approve") Sample.card
       (new_ticket Sample.chat Sample.request) Sample.calm Sample.registered []
       H1 eq_refl eq_refl eq_refl H2 eq_refl eq_refl)))).
Defined.

Lemma reply_finalizes_iff_correlated_witness :
  (rejectComment
     <$> ticketsState
           (run (on_message Sample.reply) Sample.calm Sample.rejected_store
              []).1.2 !! 100)
  = Some (Some (lit "too late")).
Proof.
  assert (H1 : pendingComments Sample.rejected_store
                 !! pending_key Sample.chat 1 = Some Sample.prompt_entry)
    by (vm_compute; reflexivity).
  assert (H2 : ticketsState Sample.rejected_store
                 !! ticketMsgId Sample.prompt_entry
               = Some Sample.rejected_ticket)
    by (vm_compute; reflexivity).
  pose proof (reply_finalizes_iff_correlated Sample.chat 1 Sample.prompt_entry
                Sample.rejected_ticket Sample.reply Sample.calm
                Sample.rejected_store [] H1 H2) as H.
  destruct (run (on_message Sample.reply) Sample.calm Sample.rejected_store [])
    as [[r s'] log'].
  destruct H as (_ & H & _).
  assert (H3 : correlated Sample.chat 1 Sample.prompt_entry Sample.reply = true)
    by (vm_compute; reflexivity).
  destruct (H H3) as (_ & _ & (st' & H4 & H5 & _) & _).
  assert (H6 : trim (default [] (text Sample.reply)) = lit "too late")
    by (vm_compute; reflexivity).
  rewrite H6 in H5. cbn [fst snd].
  change (ticketMsgId Sample.prompt_entry) with 100 in H4.
  rewrite H4. cbn [fmap option_fmap option_map]. by rewrite H5.
Defined.

Lemma second_reject_overwrites_correlation_witness :
  ∃ prompt2,
    pendingComments
      (run (on_callback_query Sample.cfg_two Sample.reject2) Sample.calm
         Sample.two_requests []).1.2
    !! pending_key Sample.chat 1
    = Some {| promptMsgId := prompt2; ticketMsgId := 101 |}.
Proof.
  assert (H1 : accepted Sample.cfg_two Sample.two_requests Sample.reject2
                 Sample.card2 (new_ticket Sample.chat Sample.request2))
    by (constructor; vm_compute; reflexivity).
  assert (H2 : data Sample.reject2 = Some (lit "reject"))
    by (vm_compute; reflexivity).
  assert (H3 : pendingComments Sample.two_requests
                 !! pending_key (chat_id Sample.card2)
                      (uid (query_from Sample.reject2))
               = Some Sample.prompt_entry)
    by (vm_compute; reflexivity).
  assert (H4 : ticketsState Sample.two_requests
                 !! ticketMsgId Sample.prompt_entry
               = Some Sample.rejected_ticket)
    by (vm_compute; reflexivity).
  assert (H5 : resolved Sample.rejected_ticket = true) by reflexivity.
  assert (H6 : map_Forall
                 (λ k w, ticketMsgId w = ticketMsgId Sample.prompt_entry →
                         k = pending_key (chat_id Sample.card2)
                               (uid (query_from Sample.reject2)))
                 (pendingComments Sample.two_requests)).
  { assert (Hm : pendingComments Sample.two_requests
                 = {[ pending_key Sample.chat 1 := Sample.prompt_entry ]})
      by (vm_compute; reflexivity).
    rewrite Hm. apply map_Forall_singleton. intros _.
    vm_compute. reflexivity. }
  assert (H7 : never_raises Sample.calm)
    by (intros l c; destruct c; reflexivity).
  pose proof (second_reject_overwrites_correlation Sample.upper Sample.cfg_two
                Sample.two_requests Sample.reject2 Sample.card2
                (new_ticket Sample.chat Sample.request2) Sample.prompt_entry
                Sample.rejected_ticket H1 H2 H3 H4 H5 H6 Sample.calm []) as H.
  destruct (run (on_callback_query Sample.cfg_two Sample.reject2) Sample.calm
              Sample.two_requests []) as [[r s'] log'].
  exact (proj2 H H7).
Defined.

Lemma malformed_submission_creates_nothing_witness :
  parsePayload Sample.upper (trim (default [] (Some Sample.no_reason))) = None.
Proof.
  assert (H1 : lacks_field Sample.upper (lit "Тикет")
                 (trim (default [] (Some Sample.no_reason)))
               || lacks_field Sample.upper (lit "Нарушение")
                    (trim (default [] (Some Sample.no_reason)))
               || lacks_field Sample.upper (lit "Причина")
                    (trim (default [] (Some Sample.no_reason))) = true)
    by (vm_compute; reflexivity).
  exact (proj1 (malformed_submission_creates_nothing Sample.upper
                  Sample.cfg_two Sample.submission (Some Sample.no_reason)
                  Sample.calm empty_store [] H1)).
Defined.

(** * Further properties of the code *)

(** ** Trimming *)

Lemma last_rev {A} (l : list A) : last (rev l) = head l.
Proof. destruct l as [|a l]; [done|]. cbn [rev]. by rewrite last_snoc. Qed.

Lemma head_rev {A} (l : list A) : head (rev l) = last l.
Proof. by rewrite <-(rev_involutive l) at 2; rewrite last_rev. Qed.

Lemma trimStart_head s c : head (trimStart s) = Some c → is_space c = false.
Proof.
  induction s as [|a s IH]; [done|]. cbn [trimStart].
  destruct (is_space a) eqn:Ha; [done|]. cbn [head]. by intros [= <-].
Qed.

Lemma trimStart_fixed s :
  (∀ c, head s = Some c → is_space c = false) → trimStart s = s.
Proof.
  destruct s as [|a s]; [done|]. intros H. cbn [trimStart].
  by rewrite (H a eq_refl).
Qed.

Lemma trimStart_split s :
  ∃ sp, s = sp ++ trimStart s ∧ forallb is_space sp = true.
Proof.
  induction s as [|a s (sp & Hs & Hsp)]; [by exists []|]. cbn [trimStart].
  destruct (is_space a) eqn:Ha; [|by exists []].
  exists (a :: sp). cbn [app forallb]. rewrite Ha, Hsp.
  split; [by rewrite <-Hs|done].
Qed.

Lemma trimStart_spaces sp s :
  forallb is_space sp = true → trimStart (sp ++ s) = trimStart s.
Proof.
  induction sp as [|a sp IH]; [done|]. cbn [forallb app trimStart].
  intros [Ha Hsp]%andb_prop. rewrite Ha. by apply IH.
Qed.

Lemma trim_spaces sp s : forallb is_space sp = true → trim (sp ++ s) = trim s.
Proof. intros H. unfold trim. by rewrite trimStart_spaces. Qed.

Lemma trim_trimmed s : trimmed (trim s) = true.
Proof.
  unfold trim, trimmed. rewrite head_rev, last_rev.
  set (x := trimStart s). set (z := trimStart (rev x)).
  destruct (last z) as [a|] eqn:Hlast; [|done].
  destruct (head z) as [b|] eqn:Hhead; [|done].
  apply trimStart_head in Hhead. rewrite Hhead, andb_true_r.
  destruct (trimStart_split (rev x)) as (sp & Hx & _). fold z in Hx.
  apply (f_equal (@rev N)) in Hx. rewrite rev_involutive, rev_app_distr in Hx.
  assert (Ha : head x = Some a).
  { rewrite Hx. rewrite <-head_rev in Hlast.
    destruct (rev z) as [|a' z']; [done|]. exact Hlast. }
  apply trimStart_head in Ha. by rewrite Ha.
Qed.

Lemma trim_elem s c : c ∈ trim s → c ∈ s.
Proof.
  unfold trim. rewrite list_elem_of_In, <-in_rev, <-list_elem_of_In.
  intros Hc.
  destruct (trimStart_split (rev (trimStart s))) as (sp & Hx & _).
  assert (c ∈ trimStart s) as Hc'.
  { rewrite list_elem_of_In, in_rev, <-list_elem_of_In, Hx.
    apply elem_of_app. by right. }
  destruct (trimStart_split s) as (sp' & Hs & _). rewrite Hs.
  apply elem_of_app. by right.
Qed.

Lemma trim_fixed s : trimmed s = true → trim s = s.
Proof.
  unfold trimmed, trim. destruct s as [|a s]; [done|].
  destruct (last (a :: s)) as [b|] eqn:Hlast.
  2: { by apply last_None in Hlast. }
  cbn [head]. intros [Ha Hb]%andb_prop.
  apply negb_true_iff in Ha, Hb.
  rewrite (trimStart_fixed (a :: s)) by (by intros ? [= <-]).
  rewrite trimStart_fixed; [apply rev_involutive|].
  intros c. rewrite head_rev, Hlast. by intros [= <-].
Qed.

(** ** Splitting *)

Lemma split_on_elem sep s w : w ∈ split_on sep s → sep ∉ w.
Proof.
  revert w. induction s as [|c s IH]; intros w; cbn [split_on].
  - intros ->%list_elem_of_singleton. apply not_elem_of_nil.
  - destruct (c =? sep)%N eqn:Hc.
    + intros [->|Hw]%elem_of_cons; [apply not_elem_of_nil|by apply IH].
    + apply N.eqb_neq in Hc. destruct (split_on sep s) as [|w0 ws].
      * intros ->%list_elem_of_singleton. rewrite not_elem_of_cons.
        split; [done|apply not_elem_of_nil].
      * intros [->|Hw]%elem_of_cons.
        -- rewrite not_elem_of_cons. split; [done|].
           apply IH, list_elem_of_here.
        -- by apply IH, list_elem_of_further.
Qed.

Lemma split_on_plain sep w : sep ∉ w → split_on sep w = [w].
Proof.
  induction w as [|c w IH]; [done|]. rewrite not_elem_of_cons.
  intros [Hc Hw]. cbn [split_on]. apply N.eqb_neq in Hc.
  rewrite N.eqb_sym, Hc. by rewrite IH.
Qed.

Lemma split_on_app sep w s :
  sep ∉ w → split_on sep (w ++ sep :: s) = w :: split_on sep s.
Proof.
  induction w as [|c w IH].
  - intros _. cbn [app split_on]. by rewrite N.eqb_refl.
  - rewrite not_elem_of_cons. intros [Hc Hw]. cbn [app split_on].
    apply N.eqb_neq in Hc. rewrite N.eqb_sym, Hc. by rewrite IH.
Qed.

Lemma space_not_comma sp : forallb is_space sp = true → 44%N ∉ sp.
Proof.
  induction sp as [|c sp IH]; [intros _; apply not_elem_of_nil|].
  cbn [forallb]. intros [Hc Hsp]%andb_prop. rewrite not_elem_of_cons.
  split; [|by apply IH]. intros <-. vm_compute in Hc. discriminate.
Qed.

(** ** The allow-list *)

(** X1. Every entry of [APPROVER_LIST] is a non-empty string without a
    comma whose ends are not white space, whatever [APPROVERS] holds. *)
Theorem approver_names_are_plain cfg :
  forallb plain_name (APPROVER_LIST cfg) = true.
Proof.
  apply forallb_forall. intros u. unfold APPROVER_LIST.
  rewrite filter_In, <-list_elem_of_In, list_elem_of_fmap.
  intros [(w & -> & Hw) Hu]. unfold plain_name.
  rewrite Hu, trim_trimmed. cbn [andb]. apply negb_true_iff.
  apply bool_decide_eq_false_2. intros Hin%trim_elem.
  by apply split_on_elem in Hw.
Qed.

Lemma approvers_of_join sp names pre :
  forallb is_space sp = true → forallb is_space pre = true →
  forallb plain_name names = true → names ≠ [] →
  List.filter truthy (trim <$> split_on 44 (pre ++ join ([44%N] ++ sp) names))
  = names.
Proof.
  intros Hsp Hpre Hnames. revert pre Hpre.
  induction names as [|x names IH]; intros pre Hpre Hne; [done|].
  cbn [forallb] in Hnames. apply andb_prop in Hnames as [Hx Hnames].
  unfold plain_name in Hx. apply andb_prop in Hx as [Hx Hcomma].
  apply andb_prop in Hx as [Hx Htrim].
  apply negb_true_iff, bool_decide_eq_false_1 in Hcomma.
  assert (Hpx : 44%N ∉ pre ++ x).
  { rewrite not_elem_of_app. split; [by apply space_not_comma|done]. }
  assert (Hkeep : List.filter truthy [trim (pre ++ x)] = [x]).
  { rewrite trim_spaces, (trim_fixed x) by done. cbn [List.filter].
    by rewrite Hx. }
  destruct names as [|y names].
  - cbn [join]. rewrite split_on_plain by done. exact Hkeep.
  - change (join ([44%N] ++ sp) (x :: y :: names))
      with (x ++ 44%N :: sp ++ join ([44%N] ++ sp) (y :: names)).
    rewrite app_assoc, split_on_app by done.
    rewrite fmap_cons.
    match goal with
    | |- List.filter truthy (?a :: ?l) = _ =>
      change (a :: l) with ([a] ++ l)
    end.
    rewrite List.filter_app, Hkeep. cbn [app]. f_equal. by apply IH.
Qed.

(** X2. A list of plain names written into [APPROVERS] with a comma, or a
    comma and white space, between them is read back as that list. *)
Theorem approvers_round_trip sp names required :
  forallb is_space sp = true →
  forallb plain_name names = true →
  APPROVER_LIST {| APPROVERS := join ([44%N] ++ sp) names;
                   REQUIRED := required |} = names.
Proof.
  intros Hsp Hnames. unfold APPROVER_LIST. cbn [APPROVERS].
  destruct names as [|x names]; [done|].
  by apply (approvers_of_join sp (x :: names) []).
Qed.

(** ** Parsed fields *)

Lemma line_head_no_lf t : 10%N ∉ line_head t.
Proof.
  induction t as [|c t IH]; cbn [line_head]; [apply not_elem_of_nil|].
  destruct (c =? 10)%N eqn:Hc; [apply not_elem_of_nil|].
  apply N.eqb_neq in Hc. rewrite not_elem_of_cons. by split.
Qed.

Lemma capture_no_lf t r : capture t = Some r → 10%N ∉ r.
Proof.
  unfold capture. pose proof (line_head_no_lf t) as H.
  destruct (line_head t); [done|]. by intros [= <-].
Qed.

Lemma spaces_capture_no_lf t r : spaces_capture t = Some r → 10%N ∉ r.
Proof.
  revert r. induction t as [|c t IH]; intros r; cbn [spaces_capture].
  - apply capture_no_lf.
  - destruct (is_space c); [|apply capture_no_lf].
    destruct (spaces_capture t) as [r'|]; [|apply capture_no_lf].
    intros [= <-]. by apply IH.
Qed.

Lemma regexp_match_no_lf canon label t r :
  regexp_match canon label t = Some r → 10%N ∉ r.
Proof.
  induction t as [|c t IH]; cbn [regexp_match].
  - unfold match_here.
    destruct (match_chars canon _ _) as [after|]; cbn; [|done].
    destruct (spaces_capture after) eqn:Hafter; [|done].
    intros [= <-]. by eapply spaces_capture_no_lf.
  - unfold match_here at 1.
    destruct (match_chars canon _ _) as [after|]; cbn; [|exact IH].
    destruct (spaces_capture after) eqn:Hafter; [|exact IH].
    intros [= <-]. by eapply spaces_capture_no_lf.
Qed.

Lemma grab_plain canon text label :
  trimmed (grab canon text label) = true ∧ 10%N ∉ grab canon text label.
Proof.
  unfold grab. split; [apply trim_trimmed|]. intros Hin%trim_elem.
  destruct (regexp_match canon label text) as [r|] eqn:Hr; cbn in Hin.
  - by apply regexp_match_no_lf in Hr.
  - by apply not_elem_of_nil in Hin.
Qed.

(** X3. The fields of a parsed submission: the ticket, the violation and
    the reason are not empty, and no field holds a line feed or begins or
    ends with white space. *)
Theorem parsed_fields_are_plain canon text p :
  parsePayload canon text = Some p →
  plain_value (ticket p) = true ∧ plain_value (violation p) = true
  ∧ plain_value (reason p) = true
  ∧ (trimmed (amount p) = true ∧ 10%N ∉ amount p)
  ∧ (trimmed (operator p) = true ∧ 10%N ∉ operator p).
Proof.
  unfold parsePayload. destruct (negb (truthy text)); [done|].
  destruct (_ || _) eqn:Hmissing; [done|]. intros [= <-]. cbn.
  apply orb_false_elim in Hmissing as [Hmissing Hr].
  apply orb_false_elim in Hmissing as [Ht Hv].
  apply negb_false_iff in Ht, Hv, Hr.
  assert (Hplain : ∀ label, truthy (grab canon text label) = true →
                            plain_value (grab canon text label) = true).
  { intros label Htruthy. unfold plain_value.
    destruct (grab_plain canon text label) as [-> Hlf]. rewrite Htruthy.
    cbn [andb]. by apply negb_true_iff, bool_decide_eq_false_2. }
  repeat split; auto using grab_plain; apply grab_plain.
Qed.

Lemma match_chars_self canon p t : match_chars canon p (p ++ t) = Some t.
Proof.
  induction p as [|c p IH]; [done|]. cbn [app match_chars].
  by rewrite N.eqb_refl.
Qed.

Lemma line_head_value v rest :
  10%N ∉ v → (rest = [] ∨ head rest = Some 10%N) → line_head (v ++ rest) = v.
Proof.
  intros Hv Hrest. induction v as [|c v IH].
  - destruct Hrest as [->|Hrest]; [done|].
    destruct rest as [|c rest]; [done|]. injection Hrest as ->. done.
  - apply not_elem_of_cons in Hv as [Hc Hv]. cbn [app line_head].
    apply not_eq_sym, N.eqb_neq in Hc. rewrite Hc. by rewrite IH.
Qed.

Lemma spaces_capture_value ws a v rest :
  forallb is_space ws = true → is_space a = false → 10%N ∉ a :: v →
  (rest = [] ∨ head rest = Some 10%N) →
  spaces_capture (ws ++ a :: v ++ rest) = Some (a :: v).
Proof.
  intros Hws Ha Hv Hrest.
  assert (Hcap : capture ((a :: v) ++ rest) = Some (a :: v)).
  { unfold capture. by rewrite line_head_value. }
  induction ws as [|c ws IH].
  - cbn [app spaces_capture]. by rewrite Ha.
  - cbn [forallb] in Hws. apply andb_prop in Hws as [Hc Hws].
    cbn [app spaces_capture]. rewrite Hc. by rewrite IH.
Qed.

(** X4. A text that begins with one of the labels and a colon gives, as
    the value of that label, the first line that is not white space only,
    trimmed: the white space after the colon may run over line ends, so a
    label left empty takes the next line that is not blank. *)
Theorem label_takes_next_line canon label ws a v rest :
  label ∈ labels →
  forallb is_space ws = true → is_space a = false → 10%N ∉ a :: v →
  (rest = [] ∨ head rest = Some 10%N) →
  grab canon (label ++ lit ":" ++ ws ++ a :: v ++ rest) label = trim (a :: v).
Proof.
  intros _ Hws Ha Hv Hrest. unfold grab.
  assert (Hhere : match_here canon label
                    (label ++ lit ":" ++ ws ++ a :: v ++ rest)
                  = Some (a :: v)).
  { unfold match_here. rewrite app_assoc, match_chars_self. cbn.
    by apply spaces_capture_value. }
  destruct (label ++ lit ":" ++ ws ++ a :: v ++ rest) as [|c t] eqn:Ht;
    cbn [regexp_match]; by rewrite Hhere.
Qed.

(** ** What one vote does to the maps *)

(** A vote that does not pass the guards changes nothing, whatever the
    environment answers. *)
Lemma unaccepted_vote cfg query s :
  (∀ m st, ¬ accepted cfg s query m st) →
  ∀ o log, (run (on_callback_query cfg query) o s log).1.2 = s.
Proof.
  intros H o log. unfold on_callback_query.
  destruct (query_message query) as [m|] eqn:Hm; [|done].
  destruct (message_id m =? 0) eqn:Hid; [done|].
  destruct (chat_id m =? 0) eqn:Hchat; [done|]. cbn [orb run].
  destruct (ticketsState s !! message_id m) as [st|] eqn:Hst; [|done].
  destruct (resolved st) eqn:Hopen; [done|].
  destruct (authorized cfg (query_from query)) eqn:Hauth.
  2: { unfold authorized in Hauth. rewrite <-negb_orb, Hauth. cbn [negb].
       exec. by destruct (o _ _) as [[]|e]. }
  destruct (bool_decide (uid (query_from query) ∈ voters st)) eqn:Hfresh.
  2: { exfalso. apply (H m st). by constructor. }
  unfold authorized in Hauth. rewrite <-negb_orb, Hauth. cbn [negb].
  exec. by destruct (o _ _) as [[]|e].
Qed.

(** A vote on a request that is resolved, or on which the voter has
    voted, changes nothing. *)
Lemma spent_vote cfg query m s st o log :
  query_message query = Some m →
  ticketsState s !! message_id m = Some st →
  resolved st = true ∨ uid (query_from query) ∈ voters st →
  (run (on_callback_query cfg query) o s log).1.2 = s.
Proof.
  intros Hm Hst Hspent. apply unaccepted_vote.
  intros m' st' [Hm' _ _ Hst' Hopen _ Hfresh].
  rewrite Hm in Hm'. injection Hm' as <-.
  rewrite Hst in Hst'. injection Hst' as <-.
  destruct Hspent as [?|Hin]; [congruence|].
  by apply bool_decide_eq_false_1 in Hfresh.
Qed.

Lemma vote_effect_run cfg query o s log :
  vote_effect cfg query s (run (on_callback_query cfg query) o s log).1.2.
Proof.
  assert (Hinert : (∀ m st, ¬ accepted cfg s query m st) →
    vote_effect cfg query s (run (on_callback_query cfg query) o s log).1.2).
  { intros H. rewrite (unaccepted_vote cfg query s H).
    apply vote_inert. intros. by apply unaccepted_vote. }
  destruct (query_message query) as [m|] eqn:Hm.
  2: { apply Hinert. intros m st [? ? ? ? ? ? ?]. congruence. }
  assert (Hsame : ∀ m' st', accepted cfg s query m' st' → m' = m).
  { intros m' st' [Hm' ? ? ? ? ? ?]. congruence. }
  destruct (message_id m =? 0) eqn:Hid.
  { apply Hinert. intros m' st' Hacc. pose proof (Hsame _ _ Hacc) as ->.
    destruct Hacc. congruence. }
  destruct (chat_id m =? 0) eqn:Hchat.
  { apply Hinert. intros m' st' Hacc. pose proof (Hsame _ _ Hacc) as ->.
    destruct Hacc. congruence. }
  destruct (ticketsState s !! message_id m) as [st|] eqn:Hst.
  2: { apply Hinert. intros m' st' Hacc. pose proof (Hsame _ _ Hacc) as ->.
       destruct Hacc. congruence. }
  assert (Hsame' : ∀ st', accepted cfg s query m st' → st' = st).
  { intros st' [? ? ? ? ? ? ?]. congruence. }
  destruct (resolved st) eqn:Hopen.
  { apply Hinert. intros m' st' Hacc. pose proof (Hsame _ _ Hacc) as ->.
    pose proof (Hsame' _ Hacc) as ->. destruct Hacc. congruence. }
  destruct (authorized cfg (query_from query)) eqn:Hauth.
  2: { apply Hinert. intros m' st' Hacc. destruct Hacc. congruence. }
  destruct (bool_decide (uid (query_from query) ∈ voters st)) eqn:Hfresh.
  { apply Hinert. intros m' st' Hacc. pose proof (Hsame _ _ Hacc) as ->.
    pose proof (Hsame' _ Hacc) as ->. destruct Hacc. congruence. }
  assert (Hacc : accepted cfg s query m st) by (by constructor).
  rewrite (accepted_vote _ _ _ _ _ _ _ Hacc), run_bind.
  destruct (bool_decide (data query = Some (lit "approve"))) eqn:Hda.
  - apply bool_decide_eq_true_1 in Hda.
    rewrite (not_reject_when_approve _ Hda).
    pose proof (approve_branch_run cfg query (chat_id m) (message_id m)
                  (voter_profile (query_from query)) st o s log) as Hout.
    destruct Hout as [e|e|Hq|r new Hq Hfin]; exec; cbn [fst snd].
    + by apply vote_approved.
    + by apply vote_approved.
    + by apply vote_approved.
    + destruct r as [[]|e]; exec; cbn [fst snd]; by apply vote_resolved.
  - exec. destruct (bool_decide (data query = Some (lit "reject"))) eqn:Hdr.
    2: { exec. cbn [fst snd]. apply vote_inert. intros o' log'.
         rewrite (accepted_vote _ _ _ _ _ _ _ Hacc), run_bind, Hda. exec.
         by rewrite Hdr. }
    unfold reject_branch. exec.
    fold (rejected_state (query_from query) st).
    destruct (o _ (answerCallbackQuery _ _ _)) as [[]|e]; exec.
    2: { cbn [fst snd]. by apply vote_rejected. }
    destruct (o _ (sendMessage _ _ _)) as [prompt|e]; exec.
    2: { cbn [fst snd]. by apply vote_rejected. }
    destruct (o _ (editMessageText _ _ _)) as [[]|e]; exec; cbn [fst snd];
      by apply vote_prompted.
Qed.

(** X5. Handling the same vote a second time changes nothing: after one
    handling the request is resolved or holds the voter among [voters],
    unless the vote changed nothing the first time.  The environments of
    the two runs may answer differently. *)
Theorem vote_replay_changes_nothing cfg query o1 o2 s log1 log2 :
  (run (on_callback_query cfg query) o2
     (run (on_callback_query cfg query) o1 s log1).1.2 log2).1.2
  = (run (on_callback_query cfg query) o1 s log1).1.2.
Proof.
  assert (Hvoted : ∀ st, uid (query_from query)
            ∈ voters (approved_state (voter_profile (query_from query)) st)).
  { intros st. cbn. apply elem_of_union_l. by apply elem_of_singleton. }
  destruct (vote_effect_run cfg query o1 s log1)
    as [Hinert|m st Hacc|m st Hacc Hq|m st Hacc|m st prompt Hacc].
  - apply Hinert.
  - eapply spent_vote; [apply Hacc|apply lookup_set_ticket|]. by right.
  - eapply spent_vote; [apply Hacc|apply lookup_set_ticket|]. by left.
  - eapply spent_vote; [apply Hacc|apply lookup_set_ticket|]. by left.
  - eapply spent_vote; [apply Hacc| |].
    + unfold set_pending. cbn [ticketsState]. apply lookup_insert_eq.
    + by left.
Qed.

(** ** What every registry keeps *)

Lemma map_set_fresh k v m : k ∉ m.*1 → map_set k v m = m ++ [(k, v)].
Proof.
  induction m as [|[k' v'] m IH]; [done|]. rewrite fmap_cons.
  rewrite not_elem_of_cons. intros [Hk Hm]. cbn [map_set app fst].
  destruct (k' =? k) eqn:E; [apply Z.eqb_eq in E; by subst|].
  by rewrite IH.
Qed.

Lemma fresh_key cfg st k :
  consistent cfg st → k ∉ voters st → k ∉ (approvals st).*1.
Proof.
  intros Hc Hk Hin. apply list_elem_of_fmap in Hin as ([k' p] & -> & Hin).
  by apply (votes_recorded _ _ Hc) in Hin as [? _].
Qed.

Lemma consistent_new cfg chat ticket_data :
  consistent cfg (new_ticket chat ticket_data).
Proof.
  constructor; cbn; try done.
  - apply NoDup_nil_2.
  - intros k p Hin. by apply not_elem_of_nil in Hin.
Qed.

Lemma consistent_approved cfg u st :
  consistent cfg st → resolved st = false → uid u ∉ voters st →
  consistent cfg (approved_state (voter_profile u) st).
Proof.
  intros Hc Hopen Hfresh. pose proof (fresh_key _ _ _ Hc Hfresh) as Hkey.
  unfold approved_state. cbn [p_id voter_profile].
  constructor; cbn [approvals voters resolved rejected set_approval add_vote].
  - rewrite map_set_fresh, fmap_app by done. apply NoDup_app.
    split; [apply Hc|]. split; [|apply NoDup_singleton].
    by intros k Hk ->%list_elem_of_singleton.
  - intros k p. rewrite map_set_fresh by done.
    rewrite elem_of_app, list_elem_of_singleton. intros [Hin|Heq].
    + apply (votes_recorded _ _ Hc) in Hin as [Hk Hp]. split; [|done].
      by apply elem_of_union_r.
    + injection Heq as -> ->. split; [|done].
      apply elem_of_union_l. by apply elem_of_singleton.
  - intros Hrej. apply (rejected_resolved _ _ Hc) in Hrej. congruence.
  - by rewrite Hopen.
Qed.

Lemma consistent_resolved cfg st :
  consistent cfg st → quorum cfg st = true → consistent cfg (set_resolved st).
Proof.
  intros [H1 H2 H3 H4] Hq. constructor; cbn; try done. intros _. by right.
Qed.

Lemma consistent_rejected cfg u st :
  consistent cfg st → consistent cfg (rejected_state u st).
Proof.
  intros [H1 H2 H3 H4]. constructor; cbn; try done.
  - intros k p Hin. apply H2 in Hin as [Hk Hp]. split; [|done].
    by apply elem_of_union_r.
  - intros _. by left.
Qed.

Lemma consistent_comment cfg c st :
  consistent cfg st → consistent cfg (set_rejectComment c st).
Proof. intros [H1 H2 H3 H4]. by constructor. Qed.

Lemma consistent_set cfg t st s :
  consistent_store cfg s → consistent cfg st →
  consistent_store cfg (set_ticket t st s).
Proof.
  intros Hs Hst t' st'. unfold set_ticket. cbn [ticketsState].
  rewrite lookup_insert_Some. intros [[_ <-]|[_ H]]; [done|by eapply Hs].
Qed.

Lemma not_voted cfg s query m st :
  accepted cfg s query m st → uid (query_from query) ∉ voters st.
Proof. intros Hacc. eapply bool_decide_eq_false_1, Hacc. Qed.

(** The maps after an inbound message. *)
Lemma message_effect msg s :
  first_segment (on_message msg) s = s
  ∨ (∃ key, first_segment (on_message msg) s = delete_pending key s)
  ∨ (∃ key w st c,
       pendingComments s !! key = Some w
       ∧ ticketsState s !! ticketMsgId w = Some st
       ∧ first_segment (on_message msg) s
         = delete_pending key
             (set_ticket (ticketMsgId w) (set_rejectComment c st) s)).
Proof.
  unfold on_message. destruct (from msg) as [sender|]; [|by left].
  cbn [first_segment].
  destruct (pendingComments s !! _) as [wait|] eqn:Hwait; [|by left].
  destruct (negb _); [by left|].
  destruct (ticketsState s !! ticketMsgId wait) as [st|] eqn:Hst;
    cbn [first_segment].
  - right. right. by eexists _, _, _, _.
  - right. left. by eexists.
Qed.

Lemma message_store msg o s log :
  (run (on_message msg) o s log).1.2 = first_segment (on_message msg) s.
Proof. by destruct (on_message_run msg o s log) as (r & new & -> & _). Qed.

Lemma reminder_store cfg sent chat o s log :
  (run (reminder cfg sent chat) o s log).1.2 = s.
Proof.
  by destruct (reminder_no_append cfg sent chat o s log) as (r & new & -> & _).
Qed.

(** The maps after a submission. *)
Lemma annul_effect canon cfg msg match1 o s log :
  (run (on_annul canon cfg msg match1) o s log).1.2 = s
  ∨ ∃ sent ticket_data,
      (run (on_annul canon cfg msg match1) o s log).1.2
      = set_ticket sent (new_ticket (chat_id msg) ticket_data) s.
Proof.
  unfold on_annul. destruct (parsePayload _ _) as [ticket_data|]; exec.
  2: { left. by destruct (o _ _) as [?|e]. }
  destruct (o log (sendMessage _ _ _)) as [sent|e]; exec; [|by left].
  right. by eexists _, _.
Qed.

(** A property of the maps that every handler keeps holds after any
    events. *)
Lemma run_events_invariant canon cfg (P : Store → Prop) o :
  (∀ ev s log, P s → P (run (handler canon cfg ev) o s log).1.2) →
  ∀ evs s log, P s → P (run_events canon cfg evs o s log).1.
Proof.
  intros Hstep evs. induction evs as [|ev evs IH]; intros s log Hs; [done|].
  cbn [run_events]. specialize (Hstep ev s log Hs).
  destruct (run (handler canon cfg ev) o s log) as [[r s1] log1].
  by apply IH.
Qed.

Lemma vote_keeps_consistent cfg query o s log :
  consistent_store cfg s →
  consistent_store cfg (run (on_callback_query cfg query) o s log).1.2.
Proof.
  intros Hs.
  destruct (vote_effect_run cfg query o s log)
    as [Hinert|m st Hacc|m st Hacc Hq|m st Hacc|m st prompt Hacc]; [done|..].
  all: pose proof (Hs _ _ (acc_ticket _ _ _ _ _ Hacc)) as Hst.
  all: pose proof (consistent_approved cfg (query_from query) st Hst
                     (acc_open _ _ _ _ _ Hacc) (not_voted _ _ _ _ _ Hacc))
         as Happroved.
  - by apply consistent_set.
  - apply consistent_set; [by apply consistent_set|].
    by apply consistent_resolved.
  - apply consistent_set; [done|]. by apply consistent_rejected.
  - intros t st'. unfold set_pending. cbn [ticketsState].
    apply consistent_set; [done|]. by apply consistent_rejected.
Qed.

Lemma handler_keeps_consistent canon cfg ev o s log :
  consistent_store cfg s →
  consistent_store cfg (run (handler canon cfg ev) o s log).1.2.
Proof.
  intros Hs. destruct ev as [msg match1|q|msg|[sent c]]; cbn [handler].
  - destruct (annul_effect canon cfg msg match1 o s log)
      as [->|(sent & ticket_data & ->)]; [done|].
    apply consistent_set; [done|apply consistent_new].
  - by apply vote_keeps_consistent.
  - rewrite message_store.
    destruct (message_effect msg s)
      as [->|[(key & ->)|(key & w & st & c & Hw & Hst & ->)]]; [done|done|].
    intros t st'. unfold delete_pending. cbn [ticketsState].
    apply consistent_set; [done|]. apply consistent_comment. by eapply Hs.
  - by rewrite reminder_store.
Qed.

(** X6. The requests of the registry stay consistent under any events in
    any environment: no voter id is the key of two approvals, every
    approval is stored under the id of its voter, who is among [voters],
    a rejected request is resolved, and a resolved request was rejected
    or has reached [REQUIRED] approvals. *)
Theorem requests_stay_consistent canon cfg evs o s log :
  consistent_store cfg s →
  consistent_store cfg (run_events canon cfg evs o s log).1.
Proof.
  apply (run_events_invariant canon cfg (consistent_store cfg)).
  intros. by apply handler_keeps_consistent.
Qed.

(** ** Correlations *)

Lemma anchored_set_ticket t st s : anchored s → anchored (set_ticket t st s).
Proof.
  intros Hs k w Hw. unfold set_ticket. cbn [ticketsState].
  destruct (decide (t = ticketMsgId w)) as [->|Hne].
  - by rewrite lookup_insert_eq.
  - rewrite lookup_insert_ne by done. by eapply Hs.
Qed.

Lemma anchored_delete key s : anchored s → anchored (delete_pending key s).
Proof.
  intros Hs k w. unfold delete_pending. cbn [pendingComments ticketsState].
  rewrite lookup_delete_Some. intros [_ Hw]. by eapply Hs.
Qed.

Lemma anchored_set_pending key w s :
  anchored s → is_Some (ticketsState s !! ticketMsgId w) →
  anchored (set_pending key w s).
Proof.
  intros Hs Hw k w'. unfold set_pending. cbn [pendingComments ticketsState].
  rewrite lookup_insert_Some. intros [[_ <-]|[_ Hk]]; [done|by eapply Hs].
Qed.

Lemma handler_keeps_anchored canon cfg ev o s log :
  anchored s → anchored (run (handler canon cfg ev) o s log).1.2.
Proof.
  intros Hs. destruct ev as [msg match1|q|msg|[sent c]]; cbn [handler].
  - destruct (annul_effect canon cfg msg match1 o s log)
      as [->|(sent & ticket_data & ->)]; [done|].
    by apply anchored_set_ticket.
  - destruct (vote_effect_run cfg q o s log)
      as [Hinert|m st Hacc|m st Hacc Hq|m st Hacc|m st prompt Hacc]; [done|..].
    + by apply anchored_set_ticket.
    + by do 2 apply anchored_set_ticket.
    + by apply anchored_set_ticket.
    + apply anchored_set_pending; [by apply anchored_set_ticket|].
      cbn [ticketMsgId]. by rewrite lookup_set_ticket.
  - rewrite message_store.
    destruct (message_effect msg s)
      as [->|[(key & ->)|(key & w & st & c & Hw & Hst & ->)]]; [done|..].
    + by apply anchored_delete.
    + by apply anchored_delete, anchored_set_ticket.
  - by rewrite reminder_store.
Qed.

(** X7. No request is ever removed from the registry, and a correlation
    is stored only for a registered request: if every correlation refers
    to a registered request, that stays so under any events in any
    environment.  The branch of the message handler for a correlation
    whose request is missing is then never taken. *)
Theorem correlations_stay_anchored canon cfg evs o s log :
  anchored s → anchored (run_events canon cfg evs o s log).1.
Proof.
  apply (run_events_invariant canon cfg anchored).
  intros. by apply handler_keeps_anchored.
Qed.

(** ** Requests only advance *)

Lemma extends_refl st : extends st st.
Proof. by constructor. Qed.

Lemma extends_trans st1 st2 st3 :
  extends st1 st2 → extends st2 st3 → extends st1 st3.
Proof.
  intros [A1 A2 A3 A4 A5 A6] [B1 B2 B3 B4 B5 B6]. constructor.
  - congruence.
  - congruence.
  - by etrans.
  - by etrans.
  - auto.
  - auto.
Qed.

Lemma extends_approved cfg u st :
  consistent cfg st → uid u ∉ voters st →
  extends st (approved_state (voter_profile u) st).
Proof.
  intros Hc Hfresh. pose proof (fresh_key _ _ _ Hc Hfresh) as Hkey.
  unfold approved_state. cbn [p_id voter_profile].
  constructor; cbn [approvals voters resolved rejected set_approval add_vote
                    chatId payload]; try done.
  - rewrite map_set_fresh by done. by eexists.
  - apply union_subseteq_r.
Qed.

Lemma extends_resolved st : extends st (set_resolved st).
Proof. by constructor. Qed.

Lemma extends_rejected u st : extends st (rejected_state u st).
Proof. constructor; cbn; try done. apply union_subseteq_r. Qed.

Lemma extends_comment c st : extends st (set_rejectComment c st).
Proof. by constructor. Qed.

Lemma advance_set t t' st st' s :
  ticketsState s !! t = Some st →
  (t' = t → extends st st') →
  ∃ st'', ticketsState (set_ticket t' st' s) !! t = Some st''
          ∧ extends st st''.
Proof.
  intros Hst Hext. destruct (decide (t' = t)) as [->|Hne].
  - exists st'. split; [apply lookup_set_ticket|by apply Hext].
  - exists st. split; [by rewrite lookup_set_ticket_ne|apply extends_refl].
Qed.

Lemma vote_advances cfg query o s log t st :
  consistent_store cfg s → ticketsState s !! t = Some st →
  ∃ st', ticketsState (run (on_callback_query cfg query) o s log).1.2 !! t
         = Some st'
         ∧ extends st st'.
Proof.
  intros Hs Hst.
  destruct (vote_effect_run cfg query o s log)
    as [Hinert|m st0 Hacc|m st0 Hacc Hq|m st0 Hacc|m st0 prompt Hacc].
  { exists st. split; [done|apply extends_refl]. }
  all: pose proof (acc_ticket _ _ _ _ _ Hacc) as Hst0.
  all: pose proof (extends_approved cfg (query_from query) st0
                     (Hs _ _ Hst0) (not_voted _ _ _ _ _ Hacc)) as Happroved.
  - apply advance_set; [done|]. intros Heq. rewrite Heq, Hst in Hst0.
    by injection Hst0 as <-.
  - destruct (decide (message_id m = t)) as [Heq|Hne].
    + rewrite Heq, Hst in Hst0. injection Hst0 as <-.
      eexists. rewrite Heq. split; [apply lookup_set_ticket|].
      eapply extends_trans; [exact Happroved|apply extends_resolved].
    + exists st. rewrite !lookup_set_ticket_ne by done.
      split; [done|apply extends_refl].
  - apply advance_set; [done|]. intros Heq. rewrite Heq, Hst in Hst0.
    injection Hst0 as <-. apply extends_rejected.
  - unfold set_pending. cbn [ticketsState].
    apply (advance_set t (message_id m) st _ s); [done|].
    intros Heq. rewrite Heq, Hst in Hst0.
    injection Hst0 as <-. apply extends_rejected.
Qed.

Lemma message_advances msg s t st :
  ticketsState s !! t = Some st →
  ∃ st', ticketsState (first_segment (on_message msg) s) !! t = Some st'
         ∧ extends st st'.
Proof.
  intros Hst.
  destruct (message_effect msg s)
    as [->|[(key & ->)|(key & w & st0 & c & Hw & Hst0 & ->)]].
  - exists st. split; [done|apply extends_refl].
  - exists st. split; [done|apply extends_refl].
  - unfold delete_pending. cbn [ticketsState].
    apply (advance_set t (ticketMsgId w) st _ s); [done|].
    intros Heq. rewrite Heq, Hst in Hst0.
    injection Hst0 as <-. apply extends_comment.
Qed.

(** X8. A registered request only advances, under any events in any
    environment that gives its message id to no new card: it stays
    registered with the same submission, its approvals are kept in their
    order and later ones follow them, no voter is forgotten, and
    [resolved] and [rejected] stay true once they are. *)
Theorem request_only_advances canon cfg t st evs o s log :
  consistent_store cfg s → never_reuses o t →
  ticketsState s !! t = Some st →
  ∃ st', ticketsState (run_events canon cfg evs o s log).1 !! t = Some st'
         ∧ extends st st'.
Proof.
  intros Hs Ho Hst.
  apply (run_events_invariant canon cfg
           (λ s', consistent_store cfg s'
                  ∧ ∃ st', ticketsState s' !! t = Some st' ∧ extends st st') o).
  2: { split; [done|]. exists st. split; [done|apply extends_refl]. }
  clear s log Hs Hst. intros ev s log (Hs & st1 & Hst1 & Hext).
  split; [by apply handler_keeps_consistent|].
  assert (∃ st2, ticketsState (run (handler canon cfg ev) o s log).1.2 !! t
                 = Some st2 ∧ extends st1 st2) as (st2 & Hst2 & Hext2).
  2: { exists st2. split; [done|by eapply extends_trans]. }
  destruct ev as [msg match1|q|msg|[sent c]]; cbn [handler].
  - destruct (annul_frame canon cfg msg match1 o s log t Ho) as [-> _].
    exists st1. split; [done|apply extends_refl].
  - by apply vote_advances.
  - rewrite message_store. by apply message_advances.
  - rewrite reminder_store. exists st1. split; [done|apply extends_refl].
Qed.

(** ** The guards of the vote handler *)

Lemma authorized_spec cfg u :
  authorized cfg u = true
  ↔ APPROVER_LIST cfg = [] ∨ default [] (username u) ∈ APPROVER_LIST cfg.
Proof.
  unfold authorized, APPROVER_SET.
  rewrite orb_true_iff, !bool_decide_eq_true, elem_of_list_to_set.
  split; intros [H|H]; auto.
  - left. destruct (APPROVER_LIST cfg) as [|a l] eqn:Hl; [done|].
    exfalso. apply (allow_list_size cfg); [by rewrite Hl|].
    unfold APPROVER_SET. by rewrite Hl.
  - left. by rewrite H.
Qed.

(** X9. With a non-empty allow-list, a vote on a registered unresolved
    request by a user whose username is not an entry of the list is
    answered with the alert that the voter has no rights, and changes
    nothing, whether or not the user has voted and whatever the vote
    says. *)
Theorem unlisted_voter_is_refused cfg query m st o s log :
  query_message query = Some m →
  (message_id m =? 0) = false → (chat_id m =? 0) = false →
  ticketsState s !! message_id m = Some st → resolved st = false →
  APPROVER_LIST cfg ≠ [] →
  default [] (username (query_from query)) ∉ APPROVER_LIST cfg →
  ∃ sent,
    run (on_callback_query cfg query) o s log
    = (result_of sent, s,
       (answerCallbackQuery (query_id query)
          (lit "Нет прав на согласование") true, sent) :: log).
Proof.
  intros Hm Hid Hchat Hst Hopen Hlist Hname.
  assert (Hauth : authorized cfg (query_from query) = false).
  { apply not_true_is_false. rewrite authorized_spec. by intros [?|?]. }
  unfold on_callback_query. rewrite Hm, Hid, Hchat. cbn [orb run].
  rewrite Hst, Hopen. unfold authorized in Hauth.
  rewrite <-negb_orb, Hauth. cbn [negb]. exec.
  destruct (o _ _) as [[]|e]; exec; [by exists None|by exists (Some e)].
Qed.

(** X10. A vote on a registered unresolved request by a user the
    allow-list lets vote, whose id is among [voters], is answered with
    the alert that the user has voted, and changes nothing: a voter who
    approved cannot reject afterwards. *)
Theorem repeated_vote_is_refused cfg query m st o s log :
  query_message query = Some m →
  (message_id m =? 0) = false → (chat_id m =? 0) = false →
  ticketsState s !! message_id m = Some st → resolved st = false →
  APPROVER_LIST cfg = []
  ∨ default [] (username (query_from query)) ∈ APPROVER_LIST cfg →
  uid (query_from query) ∈ voters st →
  ∃ sent,
    run (on_callback_query cfg query) o s log
    = (result_of sent, s,
       (answerCallbackQuery (query_id query) (lit "Вы уже голосовали") true,
        sent) :: log).
Proof.
  intros Hm Hid Hchat Hst Hopen Hauth Hvoted.
  apply authorized_spec in Hauth.
  unfold on_callback_query. rewrite Hm, Hid, Hchat. cbn [orb run].
  rewrite Hst, Hopen. unfold authorized in Hauth.
  rewrite <-negb_orb, Hauth. cbn [negb].
  rewrite (bool_decide_true _ Hvoted). exec.
  destruct (o _ _) as [[]|e]; exec; [by exists None|by exists (Some e)].
Qed.

(** X11. A vote that passes the guards and whose data is neither
    [approve] nor [reject] is dropped: no call is made, not even the
    answer to the query, and nothing changes. *)
Theorem vote_without_decision_is_dropped cfg s query m st o log :
  accepted cfg s query m st →
  data query ≠ Some (lit "approve") → data query ≠ Some (lit "reject") →
  run (on_callback_query cfg query) o s log = (inl tt, s, log).
Proof.
  intros Hacc Ha Hr. rewrite (accepted_vote _ _ _ _ _ _ _ Hacc), run_bind.
  rewrite (bool_decide_false _ Ha). exec. by rewrite (bool_decide_false _ Hr).
Qed.

(** ** A reject whose prompt is not sent *)

(** X12. An accepted reject vote whose prompt cannot be sent leaves the
    request resolved and rejected with no correlation stored and the card
    not edited; when no correlation referred to the request before, no
    later event changes the request, in any environment that gives its
    message id to no new card, so the comment of the rejection can never
    be recorded. *)
Theorem reject_without_prompt canon cfg s query m st (o : Oracle) log
    (e : exn) :
  let answer :=
    answerCallbackQuery (query_id query) (lit "Укажите причину отказа") false in
  let prompt :=
    sendMessage (chat_id m)
      (lit "❌ " ++ mentionByProfile (query_from query)
       ++ lit ", ответьте на это сообщение комментарием (почему отклонено тикет "
       ++ ticket (payload st) ++ lit ").")
      {| parse_mode := Some (lit "HTML"); reply_markup := Some force_reply |} in
  let st' := rejected_state (query_from query) st in
  let s' := set_ticket (message_id m) st' s in
  let log' := (prompt, Some e) :: (answer, None) :: log in
  accepted cfg s query m st →
  data query = Some (lit "reject") →
  o log answer = inl tt :> unit + exn →
  o ((answer, None) :: log) prompt = inr e :> Z + exn →
  unreferenced s (message_id m) →
  run (on_callback_query cfg query) o s log = (inr e, s', log')
  ∧ pendingComments s' = pendingComments s
  ∧ resolved st' = true ∧ rejected st' = true
  ∧ rejectComment st' = rejectComment st
  ∧ ∀ o' evs log'',
      never_reuses o' (message_id m) →
      ticketsState (run_events canon cfg evs o' s' log'').1 !! message_id m
      = Some st'.
Proof.
  intros answer prompt st' s' log' Hacc Hdata Hanswer Hsend Hun.
  split.
  { rewrite (accepted_vote _ _ _ _ _ _ _ Hacc), run_bind.
    rewrite (not_approve_when_reject _ Hdata), (bool_decide_true _ Hdata).
    exec. unfold reject_branch. exec. fold answer. rewrite Hanswer. exec.
    cbn [payload set_resolved set_rejected add_vote]. fold prompt.
    rewrite Hsend. exec. reflexivity. }
  split; [done|]. split; [done|]. split; [done|]. split; [done|].
  intros o' evs log'' Ho'.
  apply lost_request; [apply lookup_set_ticket|done| |done].
  intros k w Hw. by eapply Hun.
Qed.

(** ** The header row *)

Lemma required_or_missing (current : list jsstring) h :
  h ∈ REQUIRED_HEADERS →
  h ∈ current
  ∨ h ∈ List.filter (λ h, negb (bool_decide (h ∈ current))) REQUIRED_HEADERS.
Proof.
  intros Hh. destruct (decide (h ∈ current)) as [Hin|Hout]; [by left|].
  right. rewrite list_elem_of_In, filter_In, <-list_elem_of_In.
  split; [done|]. by rewrite bool_decide_false.
Qed.

(** X13. What [ensureHeaders] writes, given the header row it loaded: it
    sets the header row at most once; a row it sets holds every required
    header; when the loaded row has a cell that is not blank, the row set
    is the loaded row followed by the required headers it lacks, so no
    column is dropped, moved or repeated; and it writes nothing exactly
    when the loaded row is not blank and lacks no required header. *)
Theorem headers_kept_and_completed sheet (current : list jsstring)
    (o : Oracle) s log :
  o log (loadHeaderRow sheet) = inl current :> list jsstring + exn →
  ∃ r new,
    run (ensureHeaders sheet) o s log = (r, s, new ++ log)
    ∧ (header_writes new = []
       ∧ forallb blank_header current = false
       ∧ (∀ h, h ∈ REQUIRED_HEADERS → h ∈ current)
       ∨ ∃ headers,
           header_writes new = [(sheet, headers)]
           ∧ (∀ h, h ∈ REQUIRED_HEADERS → h ∈ headers)
           ∧ if forallb blank_header current then headers = REQUIRED_HEADERS
             else ∃ missing,
                 headers = current ++ missing ∧ missing ≠ []
                 ∧ ∀ h, h ∈ missing → h ∈ REQUIRED_HEADERS ∧ h ∉ current).
Proof.
  intros Ho. unfold ensureHeaders. exec. rewrite Ho. exec.
  destruct (forallb blank_header current) eqn:Hblank; exec.
  - destruct (o _ (setHeaderRow _ _)) as [[]|e]; exec.
    + eexists _, [_; _; _]. split; [reflexivity|]. right.
      exists REQUIRED_HEADERS. by cbn.
    + eexists _, [_; _]. split; [reflexivity|]. right.
      exists REQUIRED_HEADERS. by cbn.
  - pose proof (required_or_missing current) as Hreq.
    assert (Hmissing : ∀ h,
      h ∈ List.filter (λ h, negb (bool_decide (h ∈ current))) REQUIRED_HEADERS
      → h ∈ REQUIRED_HEADERS ∧ h ∉ current).
    { intros h. rewrite list_elem_of_In, filter_In, <-list_elem_of_In.
      intros [Hh Hout]. split; [done|].
      by apply negb_true_iff, bool_decide_eq_false_1 in Hout. }
    destruct (List.filter _ REQUIRED_HEADERS) as [|h0 missing] eqn:Hfilter;
      exec.
    + eexists _, [_]. split; [reflexivity|]. left. split; [done|].
      split; [done|]. intros h Hh. destruct (Hreq h Hh) as [?|Hin]; [done|].
      by apply not_elem_of_nil in Hin.
    + assert (Hall : ∀ h, h ∈ REQUIRED_HEADERS → h ∈ current ++ h0 :: missing).
      { intros h Hh. apply elem_of_app. by apply Hreq. }
      destruct (o _ (setHeaderRow _ _)) as [[]|e]; exec.
      * eexists _, [_; _; _]. split; [reflexivity|]. right.
        exists (current ++ h0 :: missing). split; [done|]. split; [done|].
        by exists (h0 :: missing).
      * eexists _, [_; _]. split; [reflexivity|]. right.
        exists (current ++ h0 :: missing). split; [done|]. split; [done|].
        by exists (h0 :: missing).
Qed.

(** ** The sheet of the month *)

Lemma padded_month_inj a b :
  1 ≤ a ≤ 12 → 1 ≤ b ≤ 12 →
  padStart2 (of_Z a) = padStart2 (of_Z b) → a = b.
Proof.
  intros Ha Hb.
  assert (a = 1 ∨ a = 2 ∨ a = 3 ∨ a = 4 ∨ a = 5 ∨ a = 6 ∨ a = 7 ∨ a = 8
          ∨ a = 9 ∨ a = 10 ∨ a = 11 ∨ a = 12) as Ha' by lia.
  assert (b = 1 ∨ b = 2 ∨ b = 3 ∨ b = 4 ∨ b = 5 ∨ b = 6 ∨ b = 7 ∨ b = 8
          ∨ b = 9 ∨ b = 10 ∨ b = 11 ∨ b = 12) as Hb' by lia.
  clear Ha Hb.
  repeat (destruct Ha' as [->|Ha']); try subst a;
    repeat (destruct Hb' as [->|Hb']); try subst b;
    intros H; vm_compute in H; first [reflexivity|discriminate H].
Qed.

(** X14. Two readings of the clock with years that are not negative give
    the same sheet title only when they fall in the same month of the same
    year: the rows of different months never share a sheet. *)
Theorem month_title_inj d1 d2 :
  0 ≤ getFullYear d1 → 0 ≤ getFullYear d2 →
  0 ≤ getMonth d1 ≤ 11 → 0 ≤ getMonth d2 ≤ 11 →
  month_title d1 = month_title d2 →
  getFullYear d1 = getFullYear d2 ∧ getMonth d1 = getMonth d2.
Proof.
  intros Hy1 Hy2 Hm1 Hm2. unfold month_title.
  change (lit "-") with [45%N]. cbn [app]. intros H.
  apply split_at_first in H as [Hy Hm]; auto using of_Z_no_minus.
  apply of_Z_inj in Hy. apply padded_month_inj in Hm; lia.
Qed.

(** ** The rejection handshake, again *)

(** X15. Handling the same inbound message a second time changes
    nothing: a reply that finalized a rejection removed its correlation,
    and any other message changed nothing the first time.  The
    environments of the two runs may answer differently. *)
Theorem reply_replay_changes_nothing msg o1 o2 s log1 log2 :
  (run (on_message msg) o2 (run (on_message msg) o1 s log1).1.2 log2).1.2
  = (run (on_message msg) o1 s log1).1.2.
Proof.
  rewrite !message_store.
  destruct (from msg) as [sender|] eqn:Hfrom.
  2: { unfold on_message. by rewrite Hfrom. }
  set (key := pending_key (chat_id msg) (uid sender)).
  assert (Hseg : ∀ s0,
    first_segment (on_message msg) s0
    = match pendingComments s0 !! key with
      | None => s0
      | Some wait =>
        if negb (bool_decide (reply_to_message msg = Some (promptMsgId wait)))
        then s0
        else
          match ticketsState s0 !! ticketMsgId wait with
          | None => delete_pending key s0
          | Some st =>
            delete_pending key
              (set_ticket (ticketMsgId wait)
                 (set_rejectComment (trim (default [] (text msg))) st) s0)
          end
      end).
  { intros s0. unfold on_message. rewrite Hfrom. cbn [first_segment].
    fold key. destruct (pendingComments s0 !! key); [|done].
    destruct (negb _); [done|]. by destruct (ticketsState s0 !! _). }
  rewrite (Hseg s).
  destruct (pendingComments s !! key) as [wait|] eqn:Hwait.
  2: { by rewrite Hseg, Hwait. }
  destruct (negb _) eqn:Hreply.
  { by rewrite Hseg, Hwait, Hreply. }
  destruct (ticketsState s !! ticketMsgId wait) as [st|]; rewrite Hseg.
  all: unfold delete_pending at 1; cbn [pendingComments].
  all: by rewrite lookup_delete_eq.
Qed.

(** X16. The key of a correlation identifies the chat and the user: two
    keys are equal exactly when both the chat ids and the user ids are. *)
Theorem correlation_keys_are_distinct c1 v1 c2 v2 :
  pending_key c1 v1 = pending_key c2 v2 ↔ c1 = c2 ∧ v1 = v2.
Proof.
  split; [apply pending_key_inj|]. by intros [-> ->].
Qed.

(** ** Names *)

(** X17. An approver without a username is named in the ledger row by
    the full name, and in the card of the approvals by the word that
    stands for a user without a name: the profile kept of a voter has
    neither [first_name] nor [last_name]. *)
Theorem approver_without_username_is_shown_unnamed u :
  default [] (username u) = [] →
  let prof := voter_profile u in
  or_else (p_username prof) (p_name prof) = fullName u
  ∧ fullName u ≠ []
  ∧ mentionByProfile (profile_user prof)
    = lit "<a href=" ++ [34%N] ++ lit "tg://user?id=" ++ of_Z (uid u)
      ++ [34%N] ++ lit ">" ++ lit "сотрудник" ++ lit "</a>".
Proof.
  intros Hname prof. subst prof. unfold voter_profile.
  cbn [p_username p_name]. rewrite Hname.
  split; [done|]. split.
  - unfold fullName, or_else. destruct (truthy _) eqn:Hfull.
    + by destruct (join _ _).
    + intros H. vm_compute in H. discriminate.
  - reflexivity.
Qed.

(** ** The quorum block, call by call *)

Lemma quiet_nil : quiet [].
Proof. constructor. Qed.

Lemma quiet_cons c l : quiet l → quiet ((c, None) :: l).
Proof. by constructor. Qed.

Lemma quiet_app l1 l2 : quiet l1 → quiet l2 → quiet (l1 ++ l2).
Proof. apply Forall_app_2. Qed.

#[local] Hint Resolve quiet_nil quiet_cons quiet_app : trace.

Lemma quiet_not_in l c e : quiet l → (c, Some e) ∉ l.
Proof.
  intros Hl Hin. unfold quiet in Hl. rewrite Forall_forall in Hl.
  by specialize (Hl _ Hin).
Qed.

Lemma ensureHeaders_cases sheet o s log :
  ∃ r new, run (ensureHeaders sheet) o s log = (r, s, new ++ log)
           ∧ prepared r new.
Proof.
  unfold ensureHeaders, prepared. exec.
  destruct (o log (loadHeaderRow sheet)) as [current|e]; exec.
  2: { eexists _, [_]. split; [reflexivity|]. split; [auto with trace|].
       by eexists _, _. }
  destruct (forallb blank_header current); exec.
  - destruct (o _ _) as [[]|e]; exec.
    + eexists _, [_; _; _]. split; [reflexivity|]. split; auto 10 with trace.
    + eexists _, [_; _]. split; [reflexivity|]. split; [auto 10 with trace|].
      by eexists _, _.
  - destruct (List.filter _ _); exec.
    + eexists _, [_]. split; [reflexivity|]. split; auto with trace.
    + destruct (o _ _) as [[]|e]; exec.
      * eexists _, [_; _; _]. split; [reflexivity|].
        split; auto 10 with trace.
      * eexists _, [_; _]. split; [reflexivity|].
        split; [auto 10 with trace|]. by eexists _, _.
Qed.

Lemma getOrCreateMonthlySheet_cases o s log :
  ∃ r new, run getOrCreateMonthlySheet o s log = (r, s, new ++ log)
           ∧ prepared r new
           ∧ ∀ sheet, r = inl sheet → sheet = month_title (o log newDate).
Proof.
  unfold getOrCreateMonthlySheet, monthSheetName, prepared. exec.
  destruct (o _ loadInfo) as [titles|e]; exec.
  2: { eexists _, [_; _]. split; [reflexivity|].
       split; [split; [auto with trace|by eexists _, _]|done]. }
  destruct (bool_decide _); exec.
  - rewrite run_bind.
    destruct (ensureHeaders_cases (month_title (o log newDate)) o s
                ((loadInfo, None) :: (newDate, None) :: log))
      as (r & new & -> & Hnew & Hr).
    destruct r as [[]|e]; exec.
    + exists (inl (month_title (o log newDate))),
        (new ++ [(loadInfo, None); (newDate, None)]).
      rewrite <-app_assoc. split; [done|].
      split; [split; auto 10 with trace|]. by intros ? [= <-].
    + exists (inr e), (new ++ [(loadInfo, None); (newDate, None)]).
      rewrite <-app_assoc. split; [done|].
      split; [split; [auto 10 with trace|]|done].
      destruct Hr as (c & pre & ->). by eexists _, _.
  - destruct (o _ (addSheet _ _)) as [[]|e]; exec.
    + eexists _, [_; _; _; _]. split; [reflexivity|].
      split; [split; auto 10 with trace|]. by intros ? [= <-].
    + eexists _, [_; _; _; _]. split; [reflexivity|].
      split; [split; [auto 10 with trace|by eexists _, _]|done].
Qed.

(** The four ways the quorum block ends: a call before the append
    raised, the append raised, the block ran to its end, or the last edit
    of the card raised after the row was appended. *)
Lemma finalize_cases cfg st chat msgId o s log :
  ∃ r new,
    run (finalize cfg st chat msgId) o s log = (r, s, new ++ log)
    ∧ ((∃ e sent c pre,
          new = reported chat e sent ++ (c, Some e) :: pre
          ∧ no_append ((c, Some e) :: pre) ∧ r = result_of sent)
       ∨ (∃ e sent row pre,
            new = reported chat e sent
                  ++ (addRow (month_title (o log newDate)) row, Some e) :: pre
            ∧ quiet pre ∧ r = result_of sent)
       ∨ (∃ txt row pre,
            new = (editMessageText txt chat msgId, None)
                  :: (newDate, None)
                  :: (addRow (month_title (o log newDate)) row, None) :: pre
            ∧ no_append pre ∧ quiet pre ∧ r = inl tt)
       ∨ (∃ e sent txt row pre,
            new = reported chat e sent
                  ++ (editMessageText txt chat msgId, Some e)
                  :: (newDate, None)
                  :: (addRow (month_title (o log newDate)) row, None) :: pre
            ∧ no_append pre ∧ quiet pre ∧ r = result_of sent)).
Proof.
  unfold finalize. rewrite run_try_catch, run_bind.
  destruct (getOrCreateMonthlySheet_cases o s log)
    as (r1 & new1 & -> & [H1 Hq1] & Ht).
  destruct r1 as [sheet|e].
  2: { rewrite reported_run. cbv zeta. destruct Hq1 as (c & pre & ->).
       eexists _, (reported chat e _ ++ (c, Some e) :: pre).
       split; [rewrite <-!app_assoc; reflexivity|].
       left. by eexists _, _, _, _. }
  rewrite (Ht sheet eq_refl). clear Ht sheet.
  set (title := month_title (o log newDate)).
  rewrite run_bind.
  destruct (ensureHeaders_cases title o s (new1 ++ log))
    as (r2 & new2 & -> & [H2 Hq2]).
  destruct r2 as [[]|e].
  2: { rewrite reported_run. cbv zeta. destruct Hq2 as (c & pre & ->).
       eexists _, (reported chat e _ ++ ((c, Some e) :: pre) ++ new1).
       split; [rewrite <-!app_assoc; reflexivity|].
       left. eexists _, _, c, (pre ++ new1).
       split; [reflexivity|]. split; [|done].
       change ((c, Some e) :: pre ++ new1) with (((c, Some e) :: pre) ++ new1).
       auto with trace. }
  unfold nowHelsinkiString, monthSheetName. exec.
  set (log2 := new2 ++ new1 ++ log).
  assert (Hpre : no_append ((newDate, None) :: new2 ++ new1))
    by auto 10 with trace.
  assert (Hquiet : quiet ((newDate, None) :: new2 ++ new1))
    by auto 10 with trace.
  assert (Hlog : ∀ x, x ++ (newDate, None) :: log2
     = (x ++ (newDate, None) :: new2 ++ new1) ++ log).
  { intros x. unfold log2. rewrite <-!app_assoc. cbn [app].
    rewrite <-!app_assoc. reflexivity. }
  destruct (o _ (addRow _ _)) as [[]|e]; exec.
  - destruct (o _ (editMessageText _ _ _)) as [[]|e]; exec.
    + eexists _, _. split; [apply (f_equal (pair _)), (Hlog [_; _; _])|].
      cbn [app]. right. right. left. by eexists _, _, _.
    + destruct (o _ (sendMessage _ _ _)) as [?|e']; exec.
      * eexists _, _. split.
        { apply (f_equal (pair _)).
          apply (Hlog (reported chat e None ++ [_; _; _])). }
        rewrite <-app_assoc. cbn [app]. right. right. right.
        by eexists e, None, _, _, _.
      * eexists _, _. split.
        { apply (f_equal (pair _)).
          apply (Hlog (reported chat e (Some e') ++ [_; _; _])). }
        rewrite <-app_assoc. cbn [app]. right. right. right.
        by eexists e, (Some e'), _, _, _.
  - destruct (o _ (sendMessage _ _ _)) as [?|e']; exec.
    + eexists _, _. split.
      { apply (f_equal (pair _)). apply (Hlog (reported chat e None ++ [_])). }
      rewrite <-app_assoc. cbn [app]. right. left.
      by eexists e, None, _, _.
    + eexists _, _. split.
      { apply (f_equal (pair _)).
        apply (Hlog (reported chat e (Some e') ++ [_])). }
      rewrite <-app_assoc. cbn [app]. right. left.
      by eexists e, (Some e'), _, _.
Qed.

Lemma not_in_reported_append chat e sent sheet row x :
  (addRow sheet row, x) ∉ reported chat e sent.
Proof. apply no_append_not_in, no_append_reported. Qed.

Lemma not_in_reported_edit chat e sent txt c m x :
  (editMessageText txt c m, x) ∉ reported chat e sent.
Proof.
  unfold reported. rewrite !not_elem_of_cons.
  split; [done|]. split; [done|]. apply not_elem_of_nil.
Qed.

(** X18. When the quorum block makes no append, a call that prepares
    the sheet raised: the block logs that error, sends it to the chat as
    a failure to write to the table, and changes nothing in the maps. *)
Theorem preparation_failure_is_reported cfg st chat msgId o s log r s' new :
  run (finalize cfg st chat msgId) o s log = (r, s', new ++ log) →
  appends new = 0%nat →
  ∃ e sent c pre,
    new = reported chat e sent ++ (c, Some e) :: pre
    ∧ is_append c = false ∧ r = result_of sent ∧ s' = s.
Proof.
  intros Hrun Hnone.
  destruct (finalize_cases cfg st chat msgId o s log)
    as (r0 & new0 & Hrun0 & Hcases).
  rewrite Hrun in Hrun0. injection Hrun0 as -> -> Hnew.
  apply app_inv_tail in Hnew as ->.
  destruct Hcases
    as [(e & sent & c & pre & -> & Hpre & ->)
       |[(e & sent & row & pre & -> & _ & ->)
        |[(txt & row & pre & -> & _ & _ & ->)
         |(e & sent & txt & row & pre & -> & _ & _ & ->)]]].
  - exists e, sent, c, pre. split; [done|]. split; [|done].
    by apply Forall_cons_1 in Hpre as [? _].
  - rewrite appends_app, appends_cons_append in Hnone. lia.
  - change (appends (?a :: ?b :: ?l)) with (appends l) in Hnone.
    by rewrite appends_cons_append in Hnone.
  - rewrite appends_app in Hnone.
    change (appends (?a :: ?b :: ?l)) with (appends l) in Hnone.
    rewrite appends_cons_append in Hnone. lia.
Qed.

(** X19. When the row was appended and the last edit of the card raises,
    the block still tells the chat that writing to the table failed,
    with the error of the edit, although the row is in the ledger. *)
Theorem late_failure_is_reported_as_write_failure cfg st chat msgId o s log
    r s' new sheet row txt c m e :
  run (finalize cfg st chat msgId) o s log = (r, s', new ++ log) →
  (addRow sheet row, None) ∈ new →
  (editMessageText txt c m, Some e) ∈ new →
  ∃ sent rest,
    new = reported chat e sent ++ rest
    ∧ (addRow sheet row, None) ∈ rest
    ∧ appends new = 1%nat
    ∧ r = result_of sent.
Proof.
  intros Hrun Happended Hedit.
  destruct (finalize_cases cfg st chat msgId o s log)
    as (r0 & new0 & Hrun0 & Hcases).
  rewrite Hrun in Hrun0. injection Hrun0 as -> -> Hnew.
  apply app_inv_tail in Hnew as ->.
  destruct Hcases
    as [(e0 & sent & c0 & pre & -> & Hpre & ->)
       |[(e0 & sent & row0 & pre & -> & Hquiet & ->)
        |[(txt0 & row0 & pre & -> & Hpre & Hquiet & ->)
         |(e0 & sent & txt0 & row0 & pre & -> & Hpre & Hquiet & ->)]]].
  - exfalso. apply elem_of_app in Happended as [Hin|Hin].
    + by apply not_in_reported_append in Hin.
    + by apply no_append_not_in in Hin.
  - exfalso. apply elem_of_app in Hedit as [Hin|Hin].
    + by apply not_in_reported_edit in Hin.
    + apply elem_of_cons in Hin as [Hin|Hin]; [done|].
      by apply quiet_not_in in Hin.
  - exfalso. apply elem_of_cons in Hedit as [Hin|Hin]; [done|].
    apply elem_of_cons in Hin as [Hin|Hin]; [done|].
    apply elem_of_cons in Hin as [Hin|Hin]; [done|].
    by apply quiet_not_in in Hin.
  - assert (e0 = e) as ->.
    { apply elem_of_app in Hedit as [Hin|Hin].
      { by apply not_in_reported_edit in Hin. }
      apply elem_of_cons in Hin as [Hin|Hin]; [by injection Hin|].
      apply elem_of_cons in Hin as [Hin|Hin]; [done|].
      apply elem_of_cons in Hin as [Hin|Hin]; [done|].
      by apply quiet_not_in in Hin. }
    eexists sent, _. split; [reflexivity|].
    apply elem_of_app in Happended as [Hin|Hin].
    { by apply not_in_reported_append in Hin. }
    split; [done|]. split; [|done].
    rewrite appends_app, (no_append_appends (reported _ _ _))
      by auto with trace.
    change (appends (?a :: ?b :: ?l)) with (appends l).
    by rewrite appends_cons_append, (no_append_appends pre).
Qed.

(** ** The monthly summary *)

Section StatsProperties.

Variable toLowerCase : jsstring → jsstring.
Variable number : Type.
Variable zero : number.
Variable plus : number → number → number.
Variable parseFloat : jsstring → option number.

Lemma counted_tally_add type v (m : list (jsstring * Tally number)) :
  counted (tally_add number zero plus type v m) = S (counted m).
Proof.
  unfold counted. induction m as [|[k cur] m IH]; [done|].
  cbn [tally_add]. case_bool_decide; cbn; [done|].
  unfold counted in IH. cbn in IH. rewrite IH. lia.
Qed.

Lemma keys_tally_add type v (m : list (jsstring * Tally number)) :
  (tally_add number zero plus type v m).*1
  = if bool_decide (type ∈ m.*1) then m.*1 else m.*1 ++ [type].
Proof.
  induction m as [|[k cur] m IH]; [done|]. cbn [tally_add].
  destruct (decide (k = type)) as [->|Hk].
  - rewrite (bool_decide_true (type = type)) by done.
    rewrite !fmap_cons. cbn [fst].
    by rewrite bool_decide_true by apply list_elem_of_here.
  - rewrite (bool_decide_false (k = type)) by done.
    rewrite !fmap_cons, IH. cbn [fst].
    destruct (decide (type ∈ m.*1)) as [Hin|Hout].
    + rewrite !bool_decide_true; [done| |done]. by apply list_elem_of_further.
    + rewrite !bool_decide_false; [done| |done].
      rewrite not_elem_of_cons. split; [|done]. by intros ->.
Qed.

Lemma positive_tally_add type v (m : list (jsstring * Tally number)) :
  Forall (λ kv, (1 ≤ t_count kv.2)%nat) m →
  Forall (λ kv, (1 ≤ t_count kv.2)%nat) (tally_add number zero plus type v m).
Proof.
  induction 1 as [|[k cur] m Hk Hm IH]; cbn [tally_add].
  - repeat constructor.
  - case_bool_decide; constructor; try done. cbn. lia.
Qed.

Lemma summarize_from iType iStatus iAmount rows (acc : Summary number) :
  let r := fold_left
             (summary_step toLowerCase number zero plus parseFloat
                iType iStatus iAmount) rows acc in
  totalApproved r
  = (totalApproved acc
     + length (List.filter (approved_status toLowerCase iStatus) rows))%nat
  ∧ (counted (agg acc) = totalApproved acc →
     counted (agg r) = totalApproved r)
  ∧ (NoDup (agg acc).*1 → NoDup (agg r).*1)
  ∧ (Forall (λ kv, (1 ≤ t_count kv.2)%nat) (agg acc) →
     Forall (λ kv, (1 ≤ t_count kv.2)%nat) (agg r)).
Proof.
  revert acc. induction rows as [|row rows IH]; intros acc.
  { cbn. split; [lia|]. done. }
  cbn [fold_left List.filter]. cbv zeta.
  specialize (IH (summary_step toLowerCase number zero plus parseFloat
                    iType iStatus iAmount acc row)).
  cbv zeta in IH. destruct IH as (IH1 & IH2 & IH3 & IH4).
  unfold summary_step in *.
  destruct (approved_status toLowerCase iStatus row); [|done].
  cbn [agg totalApproved] in *.
  split; [rewrite IH1; cbn [length]; lia|].
  split; [|split].
  - intros Hacc. apply IH2. by rewrite counted_tally_add, Hacc.
  - intros Hacc. apply IH3. rewrite keys_tally_add.
    case_bool_decide as Hk; [done|]. apply NoDup_app. split; [done|].
    split; [|apply NoDup_singleton].
    by intros k Hin ->%list_elem_of_singleton.
  - intros Hacc. by apply IH4, positive_tally_add.
Qed.

(** X20. The loop of the summary counts the rows whose status cell,
    trimmed and in lower case, is the approved status: their number is
    [totalApproved], it is also the sum of the counts kept per type, each
    type is kept once, and every kept count is at least one. *)
Theorem summary_counts iType iStatus iAmount rows :
  let r := summarize toLowerCase number zero plus parseFloat
             iType iStatus iAmount rows in
  totalApproved r
  = length (List.filter (approved_status toLowerCase iStatus) rows)
  ∧ counted (agg r) = totalApproved r
  ∧ NoDup (agg r).*1
  ∧ Forall (λ kv, (1 ≤ t_count kv.2)%nat) (agg r).
Proof.
  unfold summarize.
  destruct (summarize_from iType iStatus iAmount rows
              {| agg := []; totalApproved := 0; totalAmount := zero |})
    as (H1 & H2 & H3 & H4).
  cbv zeta. split; [by rewrite H1|]. split; [by apply H2|].
  split; [apply H3, NoDup_nil_2|]. apply H4. constructor.
Qed.

(** X21. Rows whose status is not the approved one do not change the
    summary, wherever they stand among the rows. *)
Theorem summary_ignores_other_rows iType iStatus iAmount rows :
  summarize toLowerCase number zero plus parseFloat iType iStatus iAmount rows
  = summarize toLowerCase number zero plus parseFloat iType iStatus iAmount
      (List.filter (approved_status toLowerCase iStatus) rows).
Proof.
  unfold summarize.
  generalize ({| agg := []; totalApproved := 0; totalAmount := zero |}
              : Summary number).
  induction rows as [|row rows IH]; intros acc; [done|].
  cbn [fold_left List.filter].
  destruct (approved_status toLowerCase iStatus row) eqn:Hrow.
  - cbn [fold_left]. apply IH.
  - rewrite <-IH. unfold summary_step at 2. by rewrite Hrow.
Qed.

End StatsProperties.

(** ** Which submissions parse *)

Lemma match_chars_drop canon pat t after :
  match_chars canon pat t = Some after → after = drop (length pat) t.
Proof.
  revert t. induction pat as [|p pat IH]; intros t; cbn [match_chars].
  - by intros [= <-].
  - destruct t as [|c t]; [done|].
    destruct (canon p =? canon c)%N; [|done]. cbn [length drop]. apply IH.
Qed.

Lemma blank_drop (l : jsstring) k :
  forallb is_space l = true → forallb is_space (drop k l) = true.
Proof.
  revert k. induction l as [|c l IH]; intros [|k] H; try done.
  cbn [forallb] in H. apply andb_prop in H as [_ H]. cbn [drop]. by apply IH.
Qed.

(** When only white space stands further than the length of the pattern
    into the text, no occurrence of the label has a value. *)
Lemma blank_rest_lacks canon label t :
  forallb is_space (drop (length (label ++ lit ":")) t) = true →
  lacks_field canon label t = true.
Proof.
  assert (Hlen : ∃ n, length (label ++ lit ":") = S n).
  { rewrite length_app. change (length (lit ":")) with 1%nat.
    exists (length label). lia. }
  destruct Hlen as [n Hn].
  induction t as [|c t IH]; intros Hrest; cbn [lacks_field].
  - destruct (label ++ lit ":") as [|p pat]; [done|]. done.
  - apply andb_true_intro. split.
    + destruct (match_chars canon _ _) as [after|] eqn:Hafter; [|done].
      apply match_chars_drop in Hafter. by rewrite Hafter.
    + apply IH. rewrite Hn in *. cbn [drop] in Hrest.
      replace (drop (S n) t) with (drop 1 (drop n t)).
      * by apply blank_drop.
      * rewrite drop_drop. f_equal. lia.
Qed.

Lemma trimStart_blank s :
  forallb is_space (trimStart s) = true → trimStart s = [].
Proof.
  destruct (trimStart s) as [|c l] eqn:Hs; [done|].
  assert (Hc : is_space c = false) by (apply (trimStart_head s); by rewrite Hs).
  cbn [forallb]. by rewrite Hc.
Qed.

Lemma blank_rev (s : jsstring) :
  forallb is_space (rev s) = true → forallb is_space s = true.
Proof.
  rewrite !forallb_forall. intros H c Hc. apply H. by apply in_rev in Hc.
Qed.

Lemma trim_nonblank s : forallb is_space s = false → truthy (trim s) = true.
Proof.
  intros Hs. unfold trim.
  destruct (trimStart (rev (trimStart s))) as [|c l] eqn:Hend.
  - exfalso. assert (Hblank : forallb is_space (trimStart s) = true).
    { apply blank_rev.
      destruct (trimStart_split (rev (trimStart s))) as (sp & Hsplit & Hsp).
      rewrite Hend, app_nil_r in Hsplit. by rewrite Hsplit. }
    apply trimStart_blank in Hblank.
    destruct (trimStart_split s) as (sp & Hsplit & Hsp).
    rewrite Hblank, app_nil_r in Hsplit. rewrite Hsplit in Hs. congruence.
  - cbn [rev]. by destruct (rev l).
Qed.

Lemma spaces_capture_nonblank t :
  forallb is_space t = false →
  ∃ r, spaces_capture t = Some r ∧ forallb is_space r = false.
Proof.
  induction t as [|c t IH]; [done|]. cbn [forallb spaces_capture].
  destruct (is_space c) eqn:Hc.
  - cbn [andb]. intros (r & -> & Hr)%IH. by exists r.
  - intros _. unfold capture. cbn [line_head].
    destruct (c =? 10)%N eqn:Hlf.
    { apply N.eqb_eq in Hlf. subst c. vm_compute in Hc. discriminate. }
    eexists. split; [reflexivity|]. cbn [forallb]. by rewrite Hc.
Qed.

Lemma regexp_match_present canon label t :
  lacks_field canon label t = false →
  ∃ r, regexp_match canon label t = Some r ∧ forallb is_space r = false.
Proof.
  induction t as [|c t IH]; cbn [lacks_field regexp_match].
  - destruct (match_chars canon _ _) as [after|] eqn:Hafter; [|done].
    apply match_chars_drop in Hafter. by rewrite Hafter, drop_nil.
  - unfold match_here.
    destruct (match_chars canon _ _) as [after|] eqn:Hafter;
      cbn [mbind option_bind].
    + destruct (forallb is_space after) eqn:Hblank.
      * cbn [andb]. intros Hlacks. exfalso.
        apply match_chars_drop in Hafter. subst after.
        pose proof (blank_rest_lacks canon label (c :: t) Hblank) as H.
        cbn [lacks_field] in H. apply andb_prop in H as [_ H]. congruence.
      * intros _.
        destruct (spaces_capture_nonblank after Hblank) as (r & -> & Hr).
        by exists r.
    + cbn [andb]. exact IH.
Qed.

Lemma grab_present canon label t :
  lacks_field canon label t = false → truthy (grab canon t label) = true.
Proof.
  intros (r & Hr & Hblank)%regexp_match_present. unfold grab. rewrite Hr.
  by apply trim_nonblank.
Qed.

(** X22. [parsePayload] returns nothing exactly when, for one of the
    three mandatory labels, every occurrence of the label followed by a
    colon (in any letter case) is followed by white space only up to the
    end of the text, or there is no occurrence.  Nothing else is asked of
    a value: a text in which each mandatory label is followed, anywhere
    later, by a code unit that is not white space is accepted. *)
Theorem parsePayload_rejects_exactly canon t :
  parsePayload canon t = None
  ↔ lacks_field canon (lit "Тикет") t
    || lacks_field canon (lit "Нарушение") t
    || lacks_field canon (lit "Причина") t = true.
Proof.
  split; [|apply parsePayload_lacking].
  destruct (lacks_field canon (lit "Тикет") t) eqn:H1; [done|].
  destruct (lacks_field canon (lit "Нарушение") t) eqn:H2; [done|].
  destruct (lacks_field canon (lit "Причина") t) eqn:H3; [done|].
  unfold parsePayload. destruct t as [|c t]; [done|].
  cbn [truthy negb]. cbv zeta.
  by rewrite (grab_present _ _ _ H1), (grab_present _ _ _ H2),
    (grab_present _ _ _ H3).
Qed.

(** The form that the template and the help text show, sent back as it
    is, parses: each label takes the next one as its value. *)
Example unfilled_form_parses :
  parsePayload Sample.upper
    (lit "Тикет:" ++ [10%N] ++ lit "Нарушение:" ++ [10%N] ++ lit "Причина:"
     ++ [10%N] ++ lit "Сумма:" ++ [10%N] ++ lit "Оператор:")
  = Some {| ticket := lit "Нарушение:"; violation := lit "Причина:";
            reason := lit "Сумма:"; amount := lit "Оператор:";
            operator := [] |}.
Proof. vm_compute. reflexivity. Qed.

(** ** The further properties at the sample data *)

Lemma approvers_round_trip_witness :
  APPROVER_LIST
    {| APPROVERS := join ([44%N] ++ [32%N]) [lit "ann"; lit "bob"];
       REQUIRED := 2 |}
  = [lit "ann"; lit "bob"].
Proof.
  assert (H1 : forallb is_space [32%N] = true) by (vm_compute; reflexivity).
  assert (H2 : forallb plain_name [lit "ann"; lit "bob"] = true)
    by (vm_compute; reflexivity).
  exact (approvers_round_trip [32%N] [lit "ann"; lit "bob"] 2 H1 H2).
Defined.

Lemma parsed_fields_are_plain_witness : plain_value (lit "12") = true.
Proof.
  assert (H : parsePayload Sample.upper
                (lit "тикет: 12 " ++ [10%N] ++ lit "НАРУШЕНИЕ: late" ++ [10%N]
                 ++ lit "Причина: agreed")
              = Some {| ticket := lit "12"; violation := lit "late";
                        reason := lit "agreed"; amount := [];
                        operator := [] |})
    by (vm_compute; reflexivity).
  exact (proj1 (parsed_fields_are_plain Sample.upper _ _ H)).
Defined.

Lemma label_takes_next_line_witness :
  grab Sample.upper
    (lit "Причина" ++ lit ":" ++ [10%N] ++ 1057%N :: tail (lit "Сумма: 50")
     ++ [])
    (lit "Причина")
  = trim (1057%N :: tail (lit "Сумма: 50")).
Proof.
  assert (H0 : lit "Причина" ∈ labels)
    by (apply (bool_decide_unpack _); vm_compute; exact I).
  assert (H1 : forallb is_space [10%N] = true) by (vm_compute; reflexivity).
  assert (H2 : is_space 1057 = false) by (vm_compute; reflexivity).
  assert (H3 : 10%N ∉ 1057%N :: tail (lit "Сумма: 50"))
    by (apply (bool_decide_unpack _); vm_compute; exact I).
  assert (H4 : @nil N = [] ∨ head (@nil N) = Some 10%N) by (by left).
  exact (label_takes_next_line Sample.upper (lit "Причина") [10%N] 1057%N
           (tail (lit "Сумма: 50")) [] H0 H1 H2 H3 H4).
Defined.

Lemma requests_stay_consistent_witness :
  consistent_store Sample.cfg_two
    (run_events Sample.upper Sample.cfg_two
       [Vote (Sample.vote Sample.ann "approve");
        Vote (Sample.vote Sample.bob "reject")]
       Sample.calm Sample.registered []).1.
Proof.
  assert (H : consistent_store Sample.cfg_two Sample.registered).
  { apply consistent_set; [|apply consistent_new].
    intros t st Ht. cbn in Ht. by rewrite lookup_empty in Ht. }
  exact (requests_stay_consistent Sample.upper Sample.cfg_two _ Sample.calm
           Sample.registered [] H).
Defined.

Lemma correlations_stay_anchored_witness :
  anchored
    (run_events Sample.upper Sample.cfg_two
       [Vote (Sample.vote Sample.ann "reject"); Inbound Sample.reply]
       Sample.calm Sample.registered []).1.
Proof.
  assert (H : anchored Sample.registered).
  { intros k w Hw. cbn in Hw. by rewrite lookup_empty in Hw. }
  exact (correlations_stay_anchored Sample.upper Sample.cfg_two _ Sample.calm
           Sample.registered [] H).
Defined.

Lemma request_only_advances_witness :
  ∃ st',
    ticketsState
      (run_events Sample.upper Sample.cfg_two
         [Vote (Sample.vote Sample.ann "approve");
          Vote (Sample.vote Sample.bob "reject"); Inbound Sample.reply]
         Sample.calm Sample.registered []).1 !! 100 = Some st'
    ∧ extends (new_ticket Sample.chat Sample.request) st'.
Proof.
  assert (H1 : consistent_store Sample.cfg_two Sample.registered).
  { apply consistent_set; [|apply consistent_new].
    intros t st Ht. cbn in Ht. by rewrite lookup_empty in Ht. }
  assert (H2 : never_reuses Sample.calm 100).
  { intros l c txt options H. injection H. lia. }
  assert (H3 : ticketsState Sample.registered !! 100
               = Some (new_ticket Sample.chat Sample.request))
    by (vm_compute; reflexivity).
  exact (request_only_advances Sample.upper Sample.cfg_two 100 _ _ Sample.calm
           Sample.registered [] H1 H2 H3).
Defined.

Lemma unlisted_voter_is_refused_witness :
  ∃ sent,
    run (on_callback_query Sample.cfg_two (Sample.vote Faults.dan "approve"))
      Sample.calm Sample.registered []
    = (result_of sent, Sample.registered,
       [(answerCallbackQuery (lit "q") (lit "Нет прав на согласование") true,
         sent)]).
Proof.
  assert (H1 : ticketsState Sample.registered !! message_id Sample.card
               = Some (new_ticket Sample.chat Sample.request))
    by (vm_compute; reflexivity).
  assert (H2 : APPROVER_LIST Sample.cfg_two ≠ [])
    by (vm_compute; discriminate).
  assert (H3 : default [] (username (query_from
                                       (Sample.vote Faults.dan "approve")))
               ∉ APPROVER_LIST Sample.cfg_two)
    by (apply (bool_decide_unpack _); vm_compute; exact I).
  exact (unlisted_voter_is_refused Sample.cfg_two
           (Sample.vote Faults.dan "approve") Sample.card
           (new_ticket Sample.chat Sample.request) Sample.calm
           Sample.registered [] eq_refl eq_refl eq_refl H1 eq_refl H2 H3).
Defined.

Lemma repeated_vote_is_refused_witness :
  ∃ sent,
    run (on_callback_query Sample.cfg_two (Sample.vote Sample.ann "reject"))
      Sample.calm Faults.voted []
    = (result_of sent, Faults.voted,
       [(answerCallbackQuery (lit "q") (lit "Вы уже голосовали") true, sent)]).
Proof.
  assert (H1 : ticketsState Faults.voted !! message_id Sample.card
               = Some (approved_state (voter_profile Sample.ann)
                         (new_ticket Sample.chat Sample.request)))
    by (vm_compute; reflexivity).
  assert (H2 : APPROVER_LIST Sample.cfg_two = []
               ∨ default [] (username (query_from
                                         (Sample.vote Sample.ann "reject")))
                 ∈ APPROVER_LIST Sample.cfg_two).
  { right. apply (bool_decide_unpack _). vm_compute. exact I. }
  assert (H3 : uid (query_from (Sample.vote Sample.ann "reject"))
               ∈ voters (approved_state (voter_profile Sample.ann)
                           (new_ticket Sample.chat Sample.request)))
    by (apply (bool_decide_unpack _); vm_compute; exact I).
  exact (repeated_vote_is_refused Sample.cfg_two
           (Sample.vote Sample.ann "reject") Sample.card _ Sample.calm
           Faults.voted [] eq_refl eq_refl eq_refl H1 eq_refl H2 H3).
Defined.

Lemma vote_without_decision_is_dropped_witness :
  run (on_callback_query Sample.cfg_default (Sample.vote Sample.ann "later"))
    Sample.calm Sample.registered []
  = (inl tt, Sample.registered, []).
Proof.
  assert (H1 : accepted Sample.cfg_default Sample.registered
                 (Sample.vote Sample.ann "later") Sample.card
                 (new_ticket Sample.chat Sample.request))
    by (constructor; vm_compute; reflexivity).
  assert (H2 : data (Sample.vote Sample.ann "later") ≠ Some (lit "approve"))
    by (intros H; vm_compute in H; discriminate H).
  assert (H3 : data (Sample.vote Sample.ann "later") ≠ Some (lit "reject"))
    by (intros H; vm_compute in H; discriminate H).
  exact (vote_without_decision_is_dropped Sample.cfg_default Sample.registered
           (Sample.vote Sample.ann "later") Sample.card
           (new_ticket Sample.chat Sample.request) Sample.calm [] H1 H2 H3).
Defined.

Lemma reject_without_prompt_witness :
  ticketsState
    (run_events Sample.upper Sample.cfg_default
       [Inbound Sample.reply; Vote (Sample.vote Sample.bob "approve")]
       Sample.calm
       (run (on_callback_query Sample.cfg_default
               (Sample.vote Sample.ann "reject"))
          Faults.prompt_fails Sample.registered []).1.2
       (run (on_callback_query Sample.cfg_default
               (Sample.vote Sample.ann "reject"))
          Faults.prompt_fails Sample.registered []).2).1 !! 100
  = Some Sample.rejected_ticket.
Proof.
  assert (H1 : accepted Sample.cfg_default Sample.registered
                 (Sample.vote Sample.ann "reject") Sample.card
                 (new_ticket Sample.chat Sample.request))
    by (constructor; vm_compute; reflexivity).
  assert (H2 : data (Sample.vote Sample.ann "reject") = Some (lit "reject"))
    by (vm_compute; reflexivity).
  assert (H4 : unreferenced Sample.registered (message_id Sample.card)).
  { intros k w Hw. cbn in Hw. by rewrite lookup_empty in Hw. }
  assert (H5 : never_reuses Sample.calm (message_id Sample.card)).
  { intros l c txt options H. injection H. cbn. lia. }
  destruct (reject_without_prompt Sample.upper Sample.cfg_default
              Sample.registered (Sample.vote Sample.ann "reject") Sample.card
              (new_ticket Sample.chat Sample.request) Faults.prompt_fails []
              Sample.timeout_error H1 H2 eq_refl eq_refl H4)
    as (Hrun & _ & _ & _ & _ & Hlater).
  rewrite Hrun. cbn [fst snd]. exact (Hlater Sample.calm _ _ H5).
Defined.

Lemma headers_kept_and_completed_witness :
  ∃ r new,
    run (ensureHeaders (lit "2026-11")) Sample.calm empty_store []
    = (r, empty_store, new ++ [])
    ∧ (header_writes new = []
       ∧ forallb blank_header [] = false
       ∧ (∀ h, h ∈ REQUIRED_HEADERS → h ∈ @nil jsstring)
       ∨ ∃ headers,
           header_writes new = [(lit "2026-11", headers)]
           ∧ (∀ h, h ∈ REQUIRED_HEADERS → h ∈ headers)
           ∧ if forallb blank_header [] then headers = REQUIRED_HEADERS
             else ∃ missing,
                 headers = [] ++ missing ∧ missing ≠ []
                 ∧ ∀ h, h ∈ missing → h ∈ REQUIRED_HEADERS ∧ h ∉ @nil jsstring).
Proof.
  assert (H : Sample.calm [] (loadHeaderRow (lit "2026-11"))
              = inl [] :> list jsstring + exn) by reflexivity.
  exact (headers_kept_and_completed (lit "2026-11") [] Sample.calm empty_store
           [] H).
Defined.

Lemma month_title_inj_witness :
  getFullYear Sample.clock = getFullYear Sample.clock
  ∧ getMonth Sample.clock = getMonth Sample.clock.
Proof.
  assert (H1 : 0 ≤ getFullYear Sample.clock) by (cbn; lia).
  assert (H2 : 0 ≤ getMonth Sample.clock ≤ 11) by (cbn; lia).
  exact (month_title_inj Sample.clock Sample.clock H1 H1 H2 H2 eq_refl).
Defined.

Lemma approver_without_username_is_shown_unnamed_witness :
  mentionByProfile (profile_user (voter_profile Sample.carl))
  = lit "<a href=" ++ [34%N] ++ lit "tg://user?id=" ++ of_Z 3
    ++ [34%N] ++ lit ">" ++ lit "сотрудник" ++ lit "</a>".
Proof.
  assert (H : default [] (username Sample.carl) = []) by reflexivity.
  exact (proj2 (proj2
    (approver_without_username_is_shown_unnamed Sample.carl H))).
Defined.

Lemma preparation_failure_is_reported_witness :
  ∃ e sent c pre,
    (run (finalize Sample.cfg_default Faults.approved_ticket Sample.chat 100)
       Faults.sheets_down Faults.approved []).2
    = reported Sample.chat e sent ++ (c, Some e) :: pre
    ∧ is_append c = false
    ∧ (run (finalize Sample.cfg_default Faults.approved_ticket Sample.chat 100)
         Faults.sheets_down Faults.approved []).1.1
      = result_of sent
    ∧ (run (finalize Sample.cfg_default Faults.approved_ticket Sample.chat 100)
         Faults.sheets_down Faults.approved []).1.2
      = Faults.approved.
Proof.
  set (x := run (finalize Sample.cfg_default Faults.approved_ticket
                   Sample.chat 100)
              Faults.sheets_down Faults.approved []).
  assert (H1 : x = (x.1.1, x.1.2, x.2 ++ [])) by (vm_compute; reflexivity).
  assert (H2 : appends x.2 = 0%nat) by (vm_compute; reflexivity).
  exact (preparation_failure_is_reported Sample.cfg_default
           Faults.approved_ticket Sample.chat 100 Faults.sheets_down
           Faults.approved [] x.1.1 x.1.2 x.2 H1 H2).
Defined.

Lemma late_failure_is_reported_as_write_failure_witness :
  ∃ sent rest,
    (run (finalize Sample.cfg_default Faults.approved_ticket Sample.chat 100)
       Faults.edit_fails Faults.approved []).2
    = reported Sample.chat Sample.timeout_error sent ++ rest
    ∧ (addRow (lit "2026-11")
         (approved_row Faults.approved_ticket (ru_RU Sample.clock)), None)
      ∈ rest
    ∧ appends
        (run (finalize Sample.cfg_default Faults.approved_ticket Sample.chat
                100)
           Faults.edit_fails Faults.approved []).2 = 1%nat
    ∧ (run (finalize Sample.cfg_default Faults.approved_ticket Sample.chat 100)
         Faults.edit_fails Faults.approved []).1.1
      = result_of sent.
Proof.
  set (x := run (finalize Sample.cfg_default Faults.approved_ticket
                   Sample.chat 100)
              Faults.edit_fails Faults.approved []).
  assert (H1 : x = (x.1.1, x.1.2, x.2 ++ [])) by (vm_compute; reflexivity).
  assert (H2 : (addRow (lit "2026-11")
                  (approved_row Faults.approved_ticket (ru_RU Sample.clock)),
                None) ∈ x.2).
  { vm_compute. do 4 apply list_elem_of_further. apply list_elem_of_here. }
  assert (H3 : (editMessageText
                  (approved_text Sample.cfg_default Faults.approved_ticket
                     (lit "2026-11")) Sample.chat 100,
                Some Sample.timeout_error) ∈ x.2).
  { vm_compute. do 2 apply list_elem_of_further. apply list_elem_of_here. }
  exact (late_failure_is_reported_as_write_failure Sample.cfg_default
           Faults.approved_ticket Sample.chat 100 Faults.edit_fails
           Faults.approved [] x.1.1 x.1.2 x.2 _ _ _ _ _ _ H1 H2 H3).
Defined.
